(** * pngjs: a shallow embedding of the PNG decoder

    The development follows the two classes of the library:
    - [PNG] (index.ts): the decoded image, its validating setters and
      the pixel accessor [getPixel];
    - [PNGReader] (reader.ts): the byte cursor, the chunk loop, the
      hand-over to zlib and the five inverse scanline filters.

    JavaScript numbers are embedded as [Z]; a value that may be
    [undefined] (a read past the end of a typed array) or [NaN] (arithmetic
    on such a read) is an [option Z].  The elements of a [Uint8Array]
    are a [list Z] of bytes; reads outside the array give [undefined] and
    writes outside the array are dropped, as typed arrays do.  Where the
    code goes through the ArrayBuffer of an array ([readUInt32] does), the
    array is a [JS.u8]: its elements with the bytes of the ArrayBuffer
    around them.  The bytes per pixel of a header whose channels do not
    fill whole bytes, and the numbers [interlaceNone] computes from them,
    are multiples of 1/8: they are carried as eight times their value. *)

From Stdlib Require Import ZArith Lia List String Ascii Bool.
From stdpp Require Import base list.
Import ListNotations.
Local Open Scope Z_scope.

(** ** JavaScript values and typed arrays *)

Module JS.

(** A JavaScript number that may be [undefined]/[NaN]. *)
Definition num := option Z.

Definition byte_ok (z : Z) : Prop := 0 <= z < 256.
Definition bytes_ok (a : list Z) : Prop := Forall byte_ok a.

Definition len (a : list Z) : Z := Z.of_nat (length a).

(** [a[k]]: [undefined] outside [0 .. a.length). *)
Definition rd (a : list Z) (k : Z) : num :=
  if k <? 0 then None else a !! Z.to_nat k.

(** ToUint8, the conversion of a stored value: modulo 256, [NaN] and
    [undefined] become 0. *)
Definition toUint8 (v : num) : Z :=
  match v with Some z => z mod 256 | None => 0 end.

(** [a[k] = v] on a typed array: no effect outside the array. *)
Definition wr (a : list Z) (k : Z) (v : num) : list Z :=
  if k <? 0 then a else <[Z.to_nat k := toUint8 v]> a.

(** ToInt32, the conversion applied by the bit operators. *)
Definition toInt32 (v : num) : Z :=
  match v with
  | Some z => (z + 2 ^ 31) mod 2 ^ 32 - 2 ^ 31
  | None => 0
  end.

Definition add (x y : num) : num :=
  match x, y with Some a, Some b => Some (a + b) | _, _ => None end.

Definition sub (x y : num) : num :=
  match x, y with Some a, Some b => Some (a - b) | _, _ => None end.

Definition mul (x y : num) : num :=
  match x, y with Some a, Some b => Some (a * b) | _, _ => None end.

(** [Math.abs] *)
Definition abs (x : num) : num :=
  match x with Some a => Some (Z.abs a) | None => None end.

(** [x <= y]: false as soon as one side is [NaN]. *)
Definition le (x y : num) : bool :=
  match x, y with Some a, Some b => a <=? b | _, _ => false end.

(** [x & m] *)
Definition and (x : num) (m : Z) : num := Some (Z.land (toInt32 x) m).

(** [x >> n] *)
Definition shr (x : num) (n : Z) : num := Some (Z.shiftr (toInt32 x) n).

(** [a.slice(s, e)] of a typed array, with its clamping of the two
    bounds (a negative bound counts from the end). *)
Definition slice (a : list Z) (s e : Z) : list Z :=
  let n := len a in
  let k := if s <? 0 then Z.max (n + s) 0 else Z.min s n in
  let f := if e <? 0 then Z.max (n + e) 0 else Z.min e n in
  firstn (Z.to_nat (f - k)) (skipn (Z.to_nat k) a).

(** *** A typed array and its ArrayBuffer

    A [Uint8Array] is a window on an ArrayBuffer: [before] holds the
    bytes of the buffer that lie before the array ([byteOffset] of them),
    [elems] the elements of the array, [after] the bytes of the buffer
    behind it.  A Node [Buffer] is such an array whose [slice] gives a
    view of the same ArrayBuffer; the [slice] of any other [Uint8Array]
    copies the elements into an ArrayBuffer of their own. *)
Record u8 : Type := mkU8 {
  before : list Z;
  elems : list Z;
  after : list Z;
  isBuffer : bool
}.

(** [new Uint8Array(arrayBuffer)]: the array spans the buffer. *)
Definition newUint8Array (arrayBuffer : list Z) : u8 :=
  mkU8 [] arrayBuffer [] false.

(** [a.buffer] and [a.byteOffset] *)
Definition buffer (a : u8) : list Z := before a ++ elems a ++ after a.
Definition byteOffset (a : u8) : Z := len (before a).

(** The clamping of a bound of [slice]. *)
Definition clamp (n k : Z) : Z :=
  if k <? 0 then Z.max (n + k) 0 else Z.min k n.

(** [a.slice(s, e)] of a [Uint8Array]: the elements are those of
    [slice]; for a [Buffer] they stay where they are in the ArrayBuffer,
    for any other array they are copied. *)
Definition sliceOf (a : u8) (s e : Z) : u8 :=
  if isBuffer a then
    let k := clamp (len (elems a)) s in
    let f := Z.max k (clamp (len (elems a)) e) in
    mkU8 (before a ++ take (Z.to_nat k) (elems a))
         (slice (elems a) s e)
         (drop (Z.to_nat f) (elems a) ++ after a)
         true
  else newUint8Array (slice (elems a) s e).

(** [Buffer.alloc(n)]: [n] zero bytes. *)
Definition alloc (n : Z) : list Z := repeat 0 (Z.to_nat n).

(** *** Numbers that are not whole

    [Math.max(1, colors * bitDepth / 8)] is a multiple of 1/8 that need
    not be whole, and so are the numbers [interlaceNone] derives from
    it.  Such a number is carried as eight times its value.  An index
    that is not whole names no element of an array: the read gives
    [undefined], the write to a typed array is dropped. *)
Definition rd8 (a : list Z) (k8 : Z) : num :=
  if k8 mod 8 =? 0 then rd a (k8 / 8) else None.

Definition wr8 (a : list Z) (k8 : Z) (v : num) : list Z :=
  if k8 mod 8 =? 0 then wr a (k8 / 8) v else a.

(** The least whole number that is not below [x8 / 8]: a counter [i]
    of whole values passes the test [i < x8 / 8] exactly when
    [i < ceil8 x8]. *)
Definition ceil8 (x8 : Z) : Z := (x8 + 7) / 8.

(** [for (; i < hi; i++) body] entered with [i = lo]: the body runs
    for [lo, lo+1, ..., hi-1]. *)
Fixpoint for_loop {S : Type} (n : nat) (i : Z) (body : Z -> S -> S) (s : S) : S :=
  match n with
  | O => s
  | Datatypes.S n' => for_loop n' (i + 1) body (body i s)
  end.

Definition for_range {S : Type} (lo hi : Z) (body : Z -> S -> S) (s : S) : S :=
  for_loop (Z.to_nat (hi - lo)) lo body s.

End JS.

(** Where the elements of a typed array are asked for, the array stands
    for them. *)
Coercion JS.elems : JS.u8 >-> list.

(** ** Outcomes of a method call *)

(** The errors the two classes throw, one constructor per message. *)
Inductive error : Type :=
| UnexpectedEOF            (* 'Unexpectedly reached end of file' *)
| PointerNotAtStart        (* 'file pointer should be at 0 to read the header' *)
| BadSignature             (* 'invalid PNGReader file (bad signature)' *)
| BadChunkLength (n : Z)   (* 'Bad chunk length ' + (0xffffffff & length) *)
| UnknownFilter            (* 'unknown filtered scanline' *)
| Adam7NotImplemented      (* 'Adam7 interlacing is not implemented yet' *)
| InvalidColorType         (* 'invalid color type' *)
| InvalidCompressionMethod (v : JS.num)  (* 'invalid compression method ' + v *)
| InvalidFilterMethod (v : JS.num)       (* 'invalid filter method ' + v *)
| InvalidInterlaceMethod (v : JS.num)    (* 'invalid interlace method ' + v *)
| IncorrectPLTELength      (* 'incorrect PLTE chunk length' *)
| PaletteTooLarge          (* 'palette has more colors than 2^bitdepth' *)
| PixelDataEmpty           (* 'pixel data is empty' *)
| OutOfBound               (* 'x,y position out of bound' *)
| RangeError               (* thrown by the DataView constructor, [new Array],
                              [Buffer.alloc] *)
| InflateError.            (* the error zlib.inflate reports *)

(** A run the embedding cuts short. *)
Inductive beyond : Type :=
| FuelExhausted.     (* a loop was cut by its iteration bound *)

Inductive outcome (A : Type) : Type :=
| Ok (a : A)
| Throw (e : error)
| Beyond (b : beyond).
Arguments Ok {A} a.
Arguments Throw {A} e.
Arguments Beyond {A} b.

(** A method of an object with state [S]: the outcome and the state the
    object is left in (an exception leaves the assignments made before
    it in place). *)
Definition M (S A : Type) : Type := S -> outcome A * S.

Definition ret {S A} (a : A) : M S A := fun s => (Ok a, s).
Definition throw {S A} (e : error) : M S A := fun s => (Throw e, s).
Definition bind {S A B} (c : M S A) (k : A -> M S B) : M S B :=
  fun s =>
    match c s with
    | (Ok a, s') => k a s'
    | (Throw e, s') => (Throw e, s')
    | (Beyond b, s') => (Beyond b, s')
    end.
Definition gets {S A} (f : S -> A) : M S A := fun s => (Ok (f s), s).
Definition modify {S} (f : S -> S) : M S unit := fun s => (Ok tt, f s).

Notation "x <- c ;; k" := (bind c (fun x => k))
  (at level 100, c at next level, right associativity).
Notation "c ;;; k" := (bind c (fun _ => k))
  (at level 100, right associativity).

(** ** The [PNG] class (index.ts) *)

Record PNG : Type := mkPNG {
  width : Z;
  height : Z;
  (* [decodeIHDR] hands [setBitDepth] what it reads at index 8 of the
     chunk, which is [undefined] past the end of a short chunk. *)
  bitDepth : JS.num;
  colorType : Z;
  compressionMethod : Z;
  filterMethod : Z;
  interlaceMethod : Z;
  colors : Z;
  alpha : bool;
  palette : list Z;
  (* [pixels] and [trns] are tested against null by [getPixel]:
     [None] is a null reference, [Some a] a typed array. *)
  pixels : option (list Z);
  trns : option (list Z)
}.

(** [new PNG()]: every numeric field 0, the three arrays
    [new Uint8Array()], that is empty but not null. *)
Definition newPNG : PNG :=
  {| width := 0; height := 0; bitDepth := Some 0; colorType := 0;
     compressionMethod := 0; filterMethod := 0; interlaceMethod := 0;
     colors := 0; alpha := false; palette := [];
     pixels := Some []; trns := Some [] |}.

Definition with_width (v : Z) (p : PNG) : PNG :=
  mkPNG v (height p) (bitDepth p) (colorType p) (compressionMethod p)
        (filterMethod p) (interlaceMethod p) (colors p) (alpha p)
        (palette p) (pixels p) (trns p).
Definition with_height (v : Z) (p : PNG) : PNG :=
  mkPNG (width p) v (bitDepth p) (colorType p) (compressionMethod p)
        (filterMethod p) (interlaceMethod p) (colors p) (alpha p)
        (palette p) (pixels p) (trns p).
Definition with_bitDepth (v : JS.num) (p : PNG) : PNG :=
  mkPNG (width p) (height p) v (colorType p) (compressionMethod p)
        (filterMethod p) (interlaceMethod p) (colors p) (alpha p)
        (palette p) (pixels p) (trns p).
Definition with_color (ct cs : Z) (al : bool) (p : PNG) : PNG :=
  mkPNG (width p) (height p) (bitDepth p) ct (compressionMethod p)
        (filterMethod p) (interlaceMethod p) cs al
        (palette p) (pixels p) (trns p).
Definition with_compressionMethod (v : Z) (p : PNG) : PNG :=
  mkPNG (width p) (height p) (bitDepth p) (colorType p) v
        (filterMethod p) (interlaceMethod p) (colors p) (alpha p)
        (palette p) (pixels p) (trns p).
Definition with_filterMethod (v : Z) (p : PNG) : PNG :=
  mkPNG (width p) (height p) (bitDepth p) (colorType p) (compressionMethod p)
        v (interlaceMethod p) (colors p) (alpha p)
        (palette p) (pixels p) (trns p).
Definition with_interlaceMethod (v : Z) (p : PNG) : PNG :=
  mkPNG (width p) (height p) (bitDepth p) (colorType p) (compressionMethod p)
        (filterMethod p) v (colors p) (alpha p)
        (palette p) (pixels p) (trns p).
Definition with_palette (v : list Z) (p : PNG) : PNG :=
  mkPNG (width p) (height p) (bitDepth p) (colorType p) (compressionMethod p)
        (filterMethod p) (interlaceMethod p) (colors p) (alpha p)
        v (pixels p) (trns p).
Definition with_pixels (v : option (list Z)) (p : PNG) : PNG :=
  mkPNG (width p) (height p) (bitDepth p) (colorType p) (compressionMethod p)
        (filterMethod p) (interlaceMethod p) (colors p) (alpha p)
        (palette p) v (trns p).
Definition with_trns (v : option (list Z)) (p : PNG) : PNG :=
  mkPNG (width p) (height p) (bitDepth p) (colorType p) (compressionMethod p)
        (filterMethod p) (interlaceMethod p) (colors p) (alpha p)
        (palette p) (pixels p) v.

Definition setWidth (w : Z) : M PNG unit := modify (with_width w).
Definition setHeight (h : Z) : M PNG unit := modify (with_height h).
Definition setBitDepth (b : JS.num) : M PNG unit := modify (with_bitDepth b).

(** [setColorType]: the switch fills the locals [colors] and [alpha] or
    throws; the three fields are assigned after it. *)
Definition colorTable (c : Z) : option (Z * bool) :=
  match c with
  | 0 => Some (1, false)
  | 2 => Some (3, false)
  | 3 => Some (1, false)
  | 4 => Some (2, true)
  | 6 => Some (4, true)
  | _ => None
  end.

Definition setColorType (c : Z) : M PNG unit :=
  match colorTable c with
  | Some (cs, al) => modify (with_color c cs al)
  | None => throw InvalidColorType
  end.

Definition setCompressionMethod (v : Z) : M PNG unit :=
  if negb (v =? 0) then throw (InvalidCompressionMethod (Some v))
  else modify (with_compressionMethod v).

Definition setFilterMethod (v : Z) : M PNG unit :=
  if negb (v =? 0) then throw (InvalidFilterMethod (Some v))
  else modify (with_filterMethod v).

Definition setInterlaceMethod (v : Z) : M PNG unit :=
  if negb (v =? 0) && negb (v =? 1) then throw (InvalidInterlaceMethod (Some v))
  else modify (with_interlaceMethod v).

Definition setTRNS (t : list Z) : M PNG unit := modify (with_trns (Some t)).

(** [palette.length > Math.pow(2, bitDepth) * 3]: the power is exact for
    the bit depths a byte can hold ([bitDepth] is taken non-negative), and
    a comparison with [NaN], the power of an [undefined] bit depth, is
    false. *)
Definition exceeds (n : Z) (bitDepth : JS.num) : bool :=
  match bitDepth with
  | Some bd => n >? 2 ^ bd * 3
  | None => false
  end.

Definition setPalette (p : list Z) : M PNG unit :=
  fun png =>
    if negb (JS.len p mod 3 =? 0) then throw IncorrectPLTELength png
    else if exceeds (JS.len p) (bitDepth png) then throw PaletteTooLarge png
    else modify (with_palette p) png.

Definition setPixels (px : list Z) : M PNG unit := modify (with_pixels (Some px)).

(** [getPixel].  The byte index is
    [((colors * bitDepth) / 8) * (y * width + x)], a fraction when
    [colors * bitDepth * (y * width + x)] is not a multiple of 8; a typed
    array read at a fractional index gives [undefined], and so do the
    reads at that index plus 1, 2, 3.  [i8] is eight times the index.
    With an [undefined] bit depth the index is [NaN] and every read
    gives [undefined]. *)
Definition sampleAt (px : list Z) (i8 k : Z) : JS.num :=
  if i8 mod 8 =? 0 then JS.rd px (i8 / 8 + k) else None.

(** [a[v]] for a computed index [v] that may be [NaN]. *)
Definition rdn (a : list Z) (v : JS.num) : JS.num :=
  match v with Some k => JS.rd a k | None => None end.

Definition getPixel (png : PNG) (x y : Z) : outcome (JS.num * JS.num * JS.num * JS.num) :=
  match pixels png with
  | None => Throw PixelDataEmpty
  | Some px =>
    if (x >=? width png) || (y >=? height png) then Throw OutOfBound
    else
      let s := fun k =>
        match bitDepth png with
        | Some bd => sampleAt px (colors png * bd * (y * width png + x)) k
        | None => None
        end in
      match colorType png with
      | 0 => Ok (s 0, s 0, s 0, Some 255)
      | 2 => Ok (s 0, s 1, s 2, Some 255)
      | 3 =>
        let al :=
          match trns png with
          | Some t => match rdn t (s 0) with Some v => Some v | None => Some 255 end
          | None => Some 255
          end in
        Ok (rdn (palette png) (JS.add (JS.mul (s 0) (Some 3)) (Some 0)),
            rdn (palette png) (JS.add (JS.mul (s 0) (Some 3)) (Some 1)),
            rdn (palette png) (JS.add (JS.mul (s 0) (Some 3)) (Some 2)),
            al)
      | 4 => Ok (s 0, s 0, s 0, s 1)
      | 6 => Ok (s 0, s 1, s 2, s 3)
      | _ => Throw InvalidColorType
      end
  end.

(** ** The inverse scanline filters of [PNGReader] (reader.ts)

    The five methods write into the [pixels] buffer they are handed; here
    each returns the buffer after its loops.  [off] (the source's [of]) is the
    offset of the row in [pixels], [length] the number of bytes of the row.
    [bpp], [off] and [length] are whole numbers here; [Eighths] below has
    the same methods for numbers that are not. *)

(** No filtering, direct copy. *)
Definition unFilterNone (scanline pixels : list Z) (_bpp off length : Z) : list Z :=
  JS.for_range 0 length
    (fun i px => JS.wr px (off + i) (JS.rd scanline i)) pixels.

Definition unFilterSub (scanline pixels : list Z) (bpp off length : Z) : list Z :=
  let px1 :=
    JS.for_range 0 bpp
      (fun i px => JS.wr px (off + i) (JS.rd scanline i)) pixels in
  JS.for_range (Z.max 0 bpp) length
    (fun i px =>
       JS.wr px (off + i)
         (JS.and (JS.add (JS.rd scanline i) (JS.rd px (off + i - bpp))) 255))
    px1.

Definition unFilterUp (scanline pixels : list Z) (_bpp off length : Z) : list Z :=
  if off - length <? 0 then
    JS.for_range 0 length
      (fun i px => JS.wr px (off + i) (JS.rd scanline i)) pixels
  else
    JS.for_range 0 length
      (fun i px =>
         let byte := JS.rd scanline i in
         let prev := JS.rd px (off + i - length) in
         JS.wr px (off + i) (JS.and (JS.add byte prev) 255))
      pixels.

Definition unFilterAverage (scanline pixels : list Z) (bpp off length : Z) : list Z :=
  if off - length <? 0 then
    let px1 :=
      JS.for_range 0 bpp
        (fun i px => JS.wr px (off + i) (JS.rd scanline i)) pixels in
    JS.for_range (Z.max 0 bpp) length
      (fun i px =>
         JS.wr px (off + i)
           (JS.and (JS.add (JS.rd scanline i)
                           (JS.shr (JS.rd px (off + i - bpp)) 1)) 255))
      px1
  else
    let px1 :=
      JS.for_range 0 bpp
        (fun i px =>
           JS.wr px (off + i)
             (JS.and (JS.add (JS.rd scanline i)
                             (JS.shr (JS.rd px (off - length + i)) 1)) 255))
        pixels in
    JS.for_range (Z.max 0 bpp) length
      (fun i px =>
         let byte := JS.rd scanline i in
         let prev := JS.rd px (off + i - bpp) in
         let prior := JS.rd px (off + i - length) in
         JS.wr px (off + i)
           (JS.and (JS.add byte (JS.shr (JS.add prev prior) 1)) 255))
      px1.

(** The predictor computed in the last loop of [unFilterPaeth], from
    [p = a + b - c] to the choice of [pr]. *)
Definition paethPredictor (a b c : JS.num) : JS.num :=
  let p := JS.sub (JS.add a b) c in
  let pa := JS.abs (JS.sub p a) in
  let pb := JS.abs (JS.sub p b) in
  let pc := JS.abs (JS.sub p c) in
  if JS.le pa pb && JS.le pa pc then a
  else if JS.le pb pc then b
  else c.

Definition unFilterPaeth (scanline pixels : list Z) (bpp off length : Z) : list Z :=
  if off - length <? 0 then
    let px1 :=
      JS.for_range 0 bpp
        (fun i px => JS.wr px (off + i) (JS.rd scanline i)) pixels in
    JS.for_range (Z.max 0 bpp) length
      (fun i px =>
         JS.wr px (off + i)
           (JS.and (JS.add (JS.rd scanline i) (JS.rd px (off + i - bpp))) 255))
      px1
  else
    let px1 :=
      JS.for_range 0 bpp
        (fun i px =>
           JS.wr px (off + i)
             (JS.and (JS.add (JS.rd scanline i) (JS.rd px (off + i - length))) 255))
        pixels in
    JS.for_range (Z.max 0 bpp) length
      (fun i px =>
         let raw := JS.rd scanline i in
         let a := JS.rd px (off + i - bpp) in
         let b := JS.rd px (off + i - length) in
         let c := JS.rd px (off + i - length - bpp) in
         let pr := paethPredictor a b c in
         JS.wr px (off + i) (JS.and (JS.add raw pr) 255))
      px1.

(** The row loop of [interlaceNone]:
    [for (let i = 0; i < data.length; i += cpr + 1)].  The loop advances
    by at least one byte per turn when [cpr] is not negative, so
    [data.length + 1] turns of fuel are never used up. *)
Fixpoint scanlines (fuel : nat) (bpp cpr : Z) (data : list Z)
         (i offset : Z) (pixels : list Z) : outcome (list Z) :=
  match fuel with
  | O => Beyond FuelExhausted
  | S fuel' =>
    if i <? JS.len data then
      let scanline := JS.slice data (i + 1) (i + cpr + 1) in
      let next := scanlines fuel' bpp cpr data (i + (cpr + 1)) (offset + cpr) in
      match JS.rd data i with
      | Some 0 => next (unFilterNone scanline pixels bpp offset cpr)
      | Some 1 => next (unFilterSub scanline pixels bpp offset cpr)
      | Some 2 => next (unFilterUp scanline pixels bpp offset cpr)
      | Some 3 => next (unFilterAverage scanline pixels bpp offset cpr)
      | Some 4 => next (unFilterPaeth scanline pixels bpp offset cpr)
      | _ => Throw UnknownFilter
      end
    else Ok pixels
  end.

(** The five filters and the row loop once more, for the arguments
    [interlaceNone] hands them whatever the header: [bpp], [off], [length]
    and [cpr], and the row counter [i] and [offset] of the loop, are eight
    times the numbers of the source.  The counter [i] of a filter starts
    at 0 and steps by 1, so it is whole; the indices built from it are
    whole or not with [off], [bpp] and [length].  At whole numbers these
    are the definitions above ([unFilterNone_whole] to
    [unFilterPaeth_whole] and [scanlines_whole] below). *)
Module Eighths.

Definition unFilterNone (scanline pixels : list Z) (_bpp off length : Z) : list Z :=
  JS.for_range 0 (JS.ceil8 length)
    (fun i px => JS.wr8 px (off + 8 * i) (JS.rd scanline i)) pixels.

Definition unFilterSub (scanline pixels : list Z) (bpp off length : Z) : list Z :=
  let px1 :=
    JS.for_range 0 (JS.ceil8 bpp)
      (fun i px => JS.wr8 px (off + 8 * i) (JS.rd scanline i)) pixels in
  JS.for_range (Z.max 0 (JS.ceil8 bpp)) (JS.ceil8 length)
    (fun i px =>
       JS.wr8 px (off + 8 * i)
         (JS.and (JS.add (JS.rd scanline i) (JS.rd8 px (off + 8 * i - bpp))) 255))
    px1.

Definition unFilterUp (scanline pixels : list Z) (_bpp off length : Z) : list Z :=
  if off - length <? 0 then
    JS.for_range 0 (JS.ceil8 length)
      (fun i px => JS.wr8 px (off + 8 * i) (JS.rd scanline i)) pixels
  else
    JS.for_range 0 (JS.ceil8 length)
      (fun i px =>
         let byte := JS.rd scanline i in
         let prev := JS.rd8 px (off + 8 * i - length) in
         JS.wr8 px (off + 8 * i) (JS.and (JS.add byte prev) 255))
      pixels.

Definition unFilterAverage (scanline pixels : list Z) (bpp off length : Z) : list Z :=
  if off - length <? 0 then
    let px1 :=
      JS.for_range 0 (JS.ceil8 bpp)
        (fun i px => JS.wr8 px (off + 8 * i) (JS.rd scanline i)) pixels in
    JS.for_range (Z.max 0 (JS.ceil8 bpp)) (JS.ceil8 length)
      (fun i px =>
         JS.wr8 px (off + 8 * i)
           (JS.and (JS.add (JS.rd scanline i)
                           (JS.shr (JS.rd8 px (off + 8 * i - bpp)) 1)) 255))
      px1
  else
    let px1 :=
      JS.for_range 0 (JS.ceil8 bpp)
        (fun i px =>
           JS.wr8 px (off + 8 * i)
             (JS.and (JS.add (JS.rd scanline i)
                             (JS.shr (JS.rd8 px (off - length + 8 * i)) 1)) 255))
        pixels in
    JS.for_range (Z.max 0 (JS.ceil8 bpp)) (JS.ceil8 length)
      (fun i px =>
         let byte := JS.rd scanline i in
         let prev := JS.rd8 px (off + 8 * i - bpp) in
         let prior := JS.rd8 px (off + 8 * i - length) in
         JS.wr8 px (off + 8 * i)
           (JS.and (JS.add byte (JS.shr (JS.add prev prior) 1)) 255))
      px1.

Definition unFilterPaeth (scanline pixels : list Z) (bpp off length : Z) : list Z :=
  if off - length <? 0 then
    let px1 :=
      JS.for_range 0 (JS.ceil8 bpp)
        (fun i px => JS.wr8 px (off + 8 * i) (JS.rd scanline i)) pixels in
    JS.for_range (Z.max 0 (JS.ceil8 bpp)) (JS.ceil8 length)
      (fun i px =>
         JS.wr8 px (off + 8 * i)
           (JS.and (JS.add (JS.rd scanline i) (JS.rd8 px (off + 8 * i - bpp))) 255))
      px1
  else
    let px1 :=
      JS.for_range 0 (JS.ceil8 bpp)
        (fun i px =>
           JS.wr8 px (off + 8 * i)
             (JS.and (JS.add (JS.rd scanline i) (JS.rd8 px (off + 8 * i - length))) 255))
        pixels in
    JS.for_range (Z.max 0 (JS.ceil8 bpp)) (JS.ceil8 length)
      (fun i px =>
         let raw := JS.rd scanline i in
         let a := JS.rd8 px (off + 8 * i - bpp) in
         let b := JS.rd8 px (off + 8 * i - length) in
         let c := JS.rd8 px (off + 8 * i - length - bpp) in
         let pr := paethPredictor a b c in
         JS.wr8 px (off + 8 * i) (JS.and (JS.add raw pr) 255))
      px1.

(** The row loop.  [slice] cuts its two bounds down to whole numbers
    ([Z.quot], towards zero), and [data[i]] is [undefined] for an [i]
    that is not whole, which ends the loop in the default case of the
    switch. *)
Fixpoint scanlines (fuel : nat) (bpp cpr : Z) (data : list Z)
         (i offset : Z) (pixels : list Z) : outcome (list Z) :=
  match fuel with
  | O => Beyond FuelExhausted
  | S fuel' =>
    if i <? 8 * JS.len data then
      let scanline := JS.slice data (Z.quot (i + 8) 8) (Z.quot (i + cpr + 8) 8) in
      let next := scanlines fuel' bpp cpr data (i + (cpr + 8)) (offset + cpr) in
      match JS.rd8 data i with
      | Some 0 => next (unFilterNone scanline pixels bpp offset cpr)
      | Some 1 => next (unFilterSub scanline pixels bpp offset cpr)
      | Some 2 => next (unFilterUp scanline pixels bpp offset cpr)
      | Some 3 => next (unFilterAverage scanline pixels bpp offset cpr)
      | Some 4 => next (unFilterPaeth scanline pixels bpp offset cpr)
      | _ => Throw UnknownFilter
      end
    else Ok pixels
  end.

End Eighths.

(** [Math.max(1, (colors * bitDepth) / 8)], when it is an integer. *)
Definition bytesPerPixel (p : PNG) : option Z :=
  match bitDepth p with
  | Some bd =>
    let q := colors p * bd in
    if q <=? 8 then Some 1
    else if q mod 8 =? 0 then Some (q / 8)
    else None
  | None => None
  end.

(** ** The [PNGReader] class (reader.ts) *)

Definition equalBytes (a b : list Z) : bool :=
  if negb (JS.len a =? JS.len b) then false
  else forallb (fun xy => fst xy =? snd xy) (combine a b).

(** [new DataView(arrayBuffer, pos, 4).getUint32(0, false)]: the
    big-endian value of the four bytes at [pos] of the ArrayBuffer.  The
    constructor throws a RangeError unless the four bytes lie inside the
    ArrayBuffer. *)
Definition getUint32 (arrayBuffer : list Z) (pos : Z) : outcome Z :=
  match JS.rd arrayBuffer pos, JS.rd arrayBuffer (pos + 1),
        JS.rd arrayBuffer (pos + 2), JS.rd arrayBuffer (pos + 3) with
  | Some b0, Some b1, Some b2, Some b3 =>
    Ok (b0 * 2 ^ 24 + b1 * 2 ^ 16 + b2 * 2 ^ 8 + b3)
  | _, _, _, _ => Throw RangeError
  end.

(** [readUInt32]: the DataView is built on the ArrayBuffer of [buffer],
    at [buffer.byteOffset + offset], whatever the length of [buffer]
    itself: on a view, four bytes that lie past the end of the view but
    inside the ArrayBuffer are read like any others. *)
Definition readUInt32 (buffer : JS.u8) (offset : Z) : outcome Z :=
  getUint32 (JS.buffer buffer) (JS.byteOffset buffer + offset).

Definition readUInt8 (buffer : list Z) (offset : Z) : JS.num := JS.rd buffer offset.

(** [String.fromCharCode] of each byte. *)
Definition bufferToString (buffer : list Z) : string :=
  fold_right (fun b s => String (ascii_of_N (Z.to_N b)) s) EmptyString buffer.

Record Reader : Type := mkReader {
  bytes : JS.u8;
  i : Z;
  png : PNG;
  dataChunks : list (list Z);
  header : option (list Z)
}.

(** [new PNGReader(bytes)] for a typed array, a Node [Buffer] or any
    other [Uint8Array]: the array is kept as it is. *)
Definition PNGReaderOn (bytes : JS.u8) : Reader :=
  {| bytes := bytes; i := 0; png := newPNG; dataChunks := []; header := None |}.

(** [new PNGReader(bytes)] for an ArrayBuffer, which the constructor
    wraps in a [Uint8Array]. *)
Definition PNGReader (bs : list Z) : Reader :=
  PNGReaderOn (JS.newUint8Array bs).

Definition with_i (v : Z) (r : Reader) : Reader :=
  mkReader (bytes r) v (png r) (dataChunks r) (header r).
Definition with_png (v : PNG) (r : Reader) : Reader :=
  mkReader (bytes r) (i r) v (dataChunks r) (header r).
Definition with_dataChunks (v : list (list Z)) (r : Reader) : Reader :=
  mkReader (bytes r) (i r) (png r) v (header r).
Definition with_header (v : list Z) (r : Reader) : Reader :=
  mkReader (bytes r) (i r) (png r) (dataChunks r) (Some v).

(** A call of a method of [this.png]. *)
Definition onPng {A} (c : M PNG A) : M Reader A :=
  fun r => let '(o, p) := c (png r) in (o, with_png p r).

(** A function that may throw, called from a method. *)
Definition lift {S A} (o : outcome A) : M S A := fun s => (o, s).

Definition readBytes (length : Z) : M Reader JS.u8 :=
  fun r =>
    let e := i r + length in
    if e >? JS.len (bytes r) then (Throw UnexpectedEOF, r)
    else (Ok (JS.sliceOf (bytes r) (i r) e), with_i e r).

Definition signature : list Z := [137; 80; 78; 71; 13; 10; 26; 10].

Definition decodeHeader : M Reader unit :=
  fun r =>
    if negb (i r =? 0) then (Throw PointerNotAtStart, r)
    else (h <- readBytes 8 ;;
          if negb (equalBytes h signature) then throw BadSignature
          else modify (with_header h)) r.

(** [decodeIHDR].  The five one-byte fields are read with [chunk[k]];
    past the end of a short chunk that is [undefined], which each of the
    last four setters rejects; [setBitDepth] stores it, so that the
    throw of [setColorType(undefined)] that follows leaves the bit depth
    [undefined]. *)
Definition decodeIHDR (chunk : JS.u8) : M Reader unit :=
  w <- lift (readUInt32 chunk 0) ;;
  onPng (setWidth w) ;;;
  h <- lift (readUInt32 chunk 4) ;;
  onPng (setHeight h) ;;;
  onPng (setBitDepth (readUInt8 chunk 8)) ;;;
  match readUInt8 chunk 9 with
  | Some c => onPng (setColorType c)
  | None => throw InvalidColorType
  end ;;;
  match readUInt8 chunk 10 with
  | Some c => onPng (setCompressionMethod c)
  | None => throw (InvalidCompressionMethod None)
  end ;;;
  match readUInt8 chunk 11 with
  | Some c => onPng (setFilterMethod c)
  | None => throw (InvalidFilterMethod None)
  end ;;;
  match readUInt8 chunk 12 with
  | Some c => onPng (setInterlaceMethod c)
  | None => throw (InvalidInterlaceMethod None)
  end.

Definition decodePLTE (chunk : JS.u8) : M Reader unit := onPng (setPalette chunk).

Definition decodeIDAT (chunk : JS.u8) : M Reader unit :=
  modify (fun r => with_dataChunks (dataChunks r ++ [JS.elems chunk]) r).

Definition decodeTRNS (chunk : JS.u8) : M Reader unit := onPng (setTRNS chunk).

Definition decodeIEND (_chunk : JS.u8) : M Reader unit := ret tt.

Definition decodeChunk : M Reader string :=
  b <- readBytes 4 ;;
  length <- lift (readUInt32 b 0) ;;
  if length <? 0 then throw (BadChunkLength (Z.land 4294967295 length))
  else
    t <- readBytes 4 ;;
    let type := bufferToString t in
    chunk <- readBytes length ;;
    readBytes 4 ;;;
    (if String.eqb type "IHDR" then decodeIHDR chunk
     else if String.eqb type "PLTE" then decodePLTE chunk
     else if String.eqb type "IDAT" then decodeIDAT chunk
     else if String.eqb type "tRNS" then decodeTRNS chunk
     else if String.eqb type "IEND" then decodeIEND chunk
     else ret tt) ;;;
    ret type.

(** [interlaceNone]: the raster is allocated, filled row by row and
    stored with [setPixels] once the loop is over.  [bpp], [cpr] and the
    size of the raster are eight times the numbers of the source.
    [Buffer.alloc] throws a RangeError for a size that is [NaN] (the bit
    depth is [undefined]) or negative, and cuts a size that is not whole
    down to a whole number of bytes; its upper limit on the size
    ([buffer.constants.MAX_LENGTH]) is not modelled. *)
Definition interlaceNone (data : list Z) : M Reader unit :=
  fun r =>
    match bitDepth (png r) with
    | None => (Throw RangeError, r)
    | Some bd =>
      let bpp := Z.max 8 (colors (png r) * bd) in
      let cpr := bpp * width (png r) in
      let size := bpp * width (png r) * height (png r) in
      if size <? 0 then (Throw RangeError, r)
      else
        let pixels := JS.alloc (size / 8) in
        match Eighths.scanlines (S (length data)) bpp cpr data 0 0 pixels with
        | Ok px => onPng (setPixels px) r
        | Throw e => (Throw e, r)
        | Beyond b => (Beyond b, r)
        end
    end.

Definition interlaceAdam7 (_data : list Z) : M Reader unit :=
  throw Adam7NotImplemented.

Section Decoder.

(** [zlib.inflate], the external decompressor: the inflated bytes, or
    [None] when it reports an error. *)
Variable inflate : list Z -> option (list Z).

(** [decodePixels]: the IDAT payloads are copied one after the other
    into one buffer, which is inflated before the interlace method is
    looked at. *)
Definition decodePixels : M Reader unit :=
  fun r =>
    let data := concat (dataChunks r) in
    match inflate data with
    | None => (Throw InflateError, r)
    | Some inflated =>
      if interlaceMethod (png r) =? 0 then interlaceNone inflated r
      else interlaceAdam7 inflated r
    end.

(** The chunk loop of [parse]:
    [while (this.i < this.bytes.length) { ...; if (...) break; }]. *)
Fixpoint chunkLoop (fuel : nat) (readData : bool) : M Reader unit :=
  match fuel with
  | O => fun r => (Beyond FuelExhausted, r)
  | S fuel' =>
    fun r =>
      if i r <? JS.len (bytes r) then
        (type <- decodeChunk ;;
         if (String.eqb type "IHDR" && negb readData) || String.eqb type "IEND"
         then ret tt
         else chunkLoop fuel' readData) r
      else (Ok tt, r)
  end.

Definition parse (readData : bool) : M Reader PNG :=
  decodeHeader ;;;
  (fun r => chunkLoop (S (length (bytes r))) readData r) ;;;
  decodePixels ;;;
  gets png.

End Decoder.

(** ** The filter side of the PNG standard

    The library has no encoder.  The filters below are those of the PNG
    recommendation the comments of reader.ts quote: a filtered byte is
    the raw byte minus a predictor computed from [Raw(x - bpp)],
    [Prior(x)] and [Prior(x - bpp)], modulo 256, with every byte left of a
    row or above the first row taken as 0. *)

Module PngFilter.

(** The PaethPredictor function, as the pseudo-code in the comment of
    [unFilterPaeth] gives it. *)
Definition PaethPredictor (a b c : Z) : Z :=
  let p := a + b - c in
  let pa := Z.abs (p - a) in
  let pb := Z.abs (p - b) in
  let pc := Z.abs (p - c) in
  if (pa <=? pb) && (pa <=? pc) then a
  else if pb <=? pc then b
  else c.

Section Rows.

Variables (bpp cpr : Z) (raw : list Z).

(** Byte [x] of row [r] of the raw image. *)
Definition Raw (r x : Z) : Z :=
  if x <? 0 then 0 else default 0 (JS.rd raw (r * cpr + x)).

(** Byte [x] of the row above row [r]. *)
Definition Prior (r x : Z) : Z :=
  if r <=? 0 then 0 else Raw (r - 1) x.

Definition predictor (t r x : Z) : Z :=
  match t with
  | 1 => Raw r (x - bpp)
  | 2 => Prior r x
  | 3 => (Raw r (x - bpp) + Prior r x) / 2
  | 4 => PaethPredictor (Raw r (x - bpp)) (Prior r x) (Prior r (x - bpp))
  | _ => 0
  end.

Definition filterByte (t r x : Z) : Z :=
  (Raw r x - predictor t r x) mod 256.

(** The filtered bytes of row [r] under filter type [t]. *)
Definition filterLine (t r : Z) : list Z :=
  map (fun n => filterByte t r (Z.of_nat n)) (seq 0 (Z.to_nat cpr)).

(** The filtered stream of the rows [r, r+1, ...], one filter type
    per row: each row is its type byte followed by its line. *)
Fixpoint filterRows (r : Z) (types : list Z) : list Z :=
  match types with
  | [] => []
  | t :: ts => (t :: filterLine t r) ++ filterRows (r + 1) ts
  end.

End Rows.

End PngFilter.

(** ** Sample inputs *)

(** A complete 1x1 8-bit greyscale file: signature, IHDR, one IDAT chunk
    holding the zlib stream of the filtered row [0; 128], IEND. *)
Definition chunkIHDR (interlace : Z) (crc : list Z) : list Z :=
  [0; 0; 0; 13; 73; 72; 68; 82;
   0; 0; 0; 1; 0; 0; 0; 1; 8; 0; 0; 0; interlace] ++ crc.
Definition chunkIDAT : list Z :=
  [0; 0; 0; 10; 73; 68; 65; 84;
   120; 156; 99; 104; 0; 0; 0; 130; 0; 129; 119; 205; 114; 182].
Definition chunkIEND : list Z := [0; 0; 0; 0; 73; 69; 78; 68; 174; 66; 96; 130].

Definition tinyPNG : list Z :=
  signature ++ chunkIHDR 0 [58; 126; 155; 85] ++ chunkIDAT ++ chunkIEND.

(** The header [tinyPNG] declares. *)
Definition tinyHeader : PNG :=
  {| width := 1; height := 1; bitDepth := Some 8; colorType := 0;
     compressionMethod := 0; filterMethod := 0; interlaceMethod := 0;
     colors := 1; alpha := false; palette := [];
     pixels := Some []; trns := Some [] |}.

(** The reader of [tinyPNG] once the signature and the IHDR chunk are
    read: the cursor stands before the IDAT chunk. *)
Definition afterIHDR : Reader :=
  {| bytes := JS.newUint8Array tinyPNG; i := 33; png := tinyHeader;
     dataChunks := []; header := Some signature |}.


(** A reader whose header asks for Adam7 and which holds no IDAT
    payload. *)
Definition adam7Reader : Reader :=
  {| bytes := JS.newUint8Array
                (signature ++ chunkIHDR 1 [77; 121; 171; 195] ++ chunkIEND);
     i := 45; png := with_interlaceMethod 1 tinyHeader; dataChunks := [];
     header := Some signature |}.

(** [zlib.inflate] on a payload it rejects, as it does the empty one. *)
Definition rejecting : list Z -> option (list Z) := fun _ => None.

(** A 2x1 greyscale image of bit depth 4 and the raster [interlaceNone]
    builds for it from the filtered row [0; 18]. *)
Definition nibbleHeader : PNG :=
  {| width := 2; height := 1; bitDepth := Some 4; colorType := 0;
     compressionMethod := 0; filterMethod := 0; interlaceMethod := 0;
     colors := 1; alpha := false; palette := [];
     pixels := Some []; trns := Some [] |}.
Definition nibbleImage : PNG := with_pixels (Some [18; 0]) nibbleHeader.

(** [never_bad_length c]: the method never throws 'Bad chunk length'. *)
Definition never_bad_length {S A} (c : M S A) : Prop :=
  forall s n, fst (c s) <> Throw (BadChunkLength n).

(** [agree raw k st]: the buffer [st] has the size of the raw image
    [raw] and holds its first [k] bytes. *)
Definition agree (raw : list Z) (k : Z) (st : list Z) : Prop :=
  length st = length raw /\ forall j, 0 <= j < k -> JS.rd st j = JS.rd raw j.

(** [keeps_cursor c]: the method leaves the cursor and the bytes of the
    reader alone and stays within the embedding. *)
Definition keeps_cursor {A} (c : M Reader A) : Prop :=
  forall r, i (snd (c r)) = i r /\ bytes (snd (c r)) = bytes r /\
            forall b, fst (c r) <> Beyond b.

(** ** Further methods of the two classes *)

Definition with_alpha (v : bool) (p : PNG) : PNG :=
  mkPNG (width p) (height p) (bitDepth p) (colorType p) (compressionMethod p)
        (filterMethod p) (interlaceMethod p) (colors p) v
        (palette p) (pixels p) (trns p).

Definition setAlpha (a : bool) : M PNG unit := modify (with_alpha a).

(** A JavaScript [Array] of numbers: a hole or an [undefined] element
    is [None]. *)
Definition array := list JS.num.

(** [new Array(n)]: [n] holes.  The constructor throws a RangeError
    unless [n] is a length, that is [0 <= n < 2^32]. *)
Definition newArray (n : Z) : outcome array :=
  if (n <? 0) || (n >=? 2 ^ 32) then Throw RangeError
  else Ok (repeat None (Z.to_nat n)).

(** [a[k] = v] on an [Array]: inside the array the element is replaced;
    past its end the array grows, with holes up to [k]. *)
Definition aset (a : array) (k : Z) (v : JS.num) : array :=
  if k <? 0 then a
  else if k <? Z.of_nat (length a) then <[Z.to_nat k := v]> a
  else a ++ repeat None (Z.to_nat (k - Z.of_nat (length a))) ++ [v].

(** A [for] loop whose body may throw: the first throw ends the loop. *)
Fixpoint for_loop_M {S : Type} (n : nat) (k : Z) (body : Z -> S -> outcome S) (s : S)
  : outcome S :=
  match n with
  | O => Ok s
  | Datatypes.S n' =>
    match body k s with
    | Ok s' => for_loop_M n' (k + 1) body s'
    | Throw e => Throw e
    | Beyond b => Beyond b
    end
  end.

(** [getRGBA8Array].  The tuple [getPixel] returns is an object, so the
    test [!pixelData] never holds. *)
Definition getRGBA8Array (p : PNG) : outcome array :=
  match newArray (width p * height p * 4) with
  | Ok data0 =>
    for_loop_M (Z.to_nat (height p - 0)) 0
      (fun y data =>
         for_loop_M (Z.to_nat (width p - 0)) 0
           (fun x data =>
              match getPixel p x y with
              | Ok (r, g, b, a) =>
                let data := aset data ((y * width p + x) * 4 + 0) r in
                let data := aset data ((y * width p + x) * 4 + 1) g in
                let data := aset data ((y * width p + x) * 4 + 2) b in
                let data := aset data ((y * width p + x) * 4 + 3) a in
                Ok data
              | Throw e => Throw e
              | Beyond b => Beyond b
              end)
           data)
      data0
  | Throw e => Throw e
  | Beyond b => Beyond b
  end.

(** The [switch (type)] of [decodeChunk]. *)
Definition chunkHandler (type : string) (chunk : JS.u8) : M Reader unit :=
  if String.eqb type "IHDR" then decodeIHDR chunk
  else if String.eqb type "PLTE" then decodePLTE chunk
  else if String.eqb type "IDAT" then decodeIDAT chunk
  else if String.eqb type "tRNS" then decodeTRNS chunk
  else if String.eqb type "IEND" then decodeIEND chunk
  else ret tt.

(** A chunk type [decodeChunk] has no case for. *)
Definition unhandled (type : string) : bool :=
  negb (String.eqb type "IHDR") && negb (String.eqb type "PLTE") &&
  negb (String.eqb type "IDAT") && negb (String.eqb type "tRNS") &&
  negb (String.eqb type "IEND").

(** ** The layout of a file

    The byte layout [decodeChunk] and [decodeIHDR] read, as the comments
    above them give it: a chunk is a 4-byte big-endian length, 4 type
    bytes, the payload and 4 CRC bytes; the IHDR payload is width and
    height (4 bytes each) and five one-byte fields. *)

Module Layout.

Definition be32 (v : Z) : list Z :=
  [v / 2 ^ 24 mod 256; v / 2 ^ 16 mod 256; v / 2 ^ 8 mod 256; v mod 256].

Definition chunk (type payload crc : list Z) : list Z :=
  be32 (JS.len payload) ++ type ++ payload ++ crc.

Definition ihdr (w h bd ct cm fm im : Z) : list Z :=
  be32 w ++ be32 h ++ [bd; ct; cm; fm; im].

Definition IHDR : list Z := [73; 72; 68; 82].
Definition IDAT : list Z := [73; 68; 65; 84].
Definition IEND : list Z := [73; 69; 78; 68].

(** The chunks between IHDR and IEND of the files considered below:
    each is its type bytes, payload and CRC bytes. *)
Definition item : Type := list Z * list Z * list Z.

Definition itemBytes (it : item) : list Z :=
  chunk (fst (fst it)) (snd (fst it)) (snd it).

(** IDAT chunks and chunks of a type the reader has no case for. *)
Definition item_ok (it : item) : Prop :=
  length (fst (fst it)) = 4%nat /\ length (snd it) = 4%nat /\
  JS.len (snd (fst it)) < 2 ^ 32 /\
  (fst (fst it) = IDAT \/ unhandled (bufferToString (fst (fst it))) = true).

(** The payloads of the IDAT chunks, in file order. *)
Definition idatPayloads (its : list item) : list (list Z) :=
  map (fun it => snd (fst it))
      (List.filter (fun it => String.eqb (bufferToString (fst (fst it))) "IDAT") its).

End Layout.

(** The PNG object after a valid IHDR chunk. *)
Definition headerPNG (w h bd ct cs : Z) (al : bool) (im : Z) : PNG :=
  {| width := w; height := h; bitDepth := Some bd; colorType := ct;
     compressionMethod := 0; filterMethod := 0; interlaceMethod := im;
     colors := cs; alpha := al; palette := [];
     pixels := Some []; trns := Some [] |}.

(** A file of the shape considered below: the signature, an IHDR chunk
    with compression and filter method 0, [its], an IEND chunk and any
    bytes after it. *)
Definition fileOf (w h bd ct im : Z) (crc0 : list Z) (its : list Layout.item)
           (crcE rest : list Z) : list Z :=
  signature
    ++ Layout.chunk Layout.IHDR (Layout.ihdr w h bd ct 0 0 im) crc0
    ++ concat (map Layout.itemBytes its)
    ++ Layout.chunk Layout.IEND [] crcE ++ rest.

(** A 1x1 file of colour type 2 (three channels) and bit depth 4, one
    and a half bytes per pixel, held in a Node [Buffer]. *)
Definition fracPNG : JS.u8 :=
  JS.mkU8 [] (fileOf 1 1 4 2 0 [0; 0; 0; 0] [(Layout.IDAT, [1], [0; 0; 0; 0])]
                     [0; 0; 0; 0] [])
          [] true.

(** What the reader's calls keep true of its PNG object: the colour
    fields are those of [new PNG()] or a row of the colour table, the
    compression and filter methods are 0, the interlace method is 0 or 1
    and the palette holds whole RGB triples. *)
Definition png_ok (p : PNG) : Prop :=
  ((colorType p = 0 /\ colors p = 0 /\ alpha p = false) \/
   colorTable (colorType p) = Some (colors p, alpha p)) /\
  compressionMethod p = 0 /\ filterMethod p = 0 /\
  (interlaceMethod p = 0 \/ interlaceMethod p = 1) /\
  JS.len (palette p) mod 3 = 0.

(** The cursor of a reader lies within its bytes. *)
Definition cursor_ok (r : Reader) : Prop := 0 <= i r <= JS.len (bytes r).

(** Component [k] of a pixel. *)
Definition component (t : JS.num * JS.num * JS.num * JS.num) (k : Z) : JS.num :=
  match t with
  | (r, g, b, a) =>
    if k =? 0 then r else if k =? 1 then g else if k =? 2 then b else a
  end.

(** The numbers an IHDR chunk can hold. *)
Definition dims_ok (p : PNG) : Prop :=
  0 <= width p < 2 ^ 32 /\ 0 <= height p < 2 ^ 32 /\
  match bitDepth p with Some b => 0 <= b < 256 | None => True end.

(** The state of a reader of the file [bs] whose cursor has not gone
    back before [lo]. *)
Definition reader_ok (bs : JS.u8) (lo : Z) (r : Reader) : Prop :=
  bytes r = bs /\ lo <= i r <= JS.len bs /\ png_ok (png r) /\ dims_ok (png r).

(** [hoare P c Q I]: run from a state in [P], the method [c] returns a
    value and a state in [Q], or ends otherwise in a state in [I]. *)
Definition hoare {S A} (P : S -> Prop) (c : M S A) (Q : A -> S -> Prop)
           (I : S -> Prop) : Prop :=
  forall s, P s ->
    match c s with
    | (Ok a, s') => Q a s'
    | (_, s') => I s'
    end.

(** [a[k]], read as 0 where it is [undefined]. *)
Definition byteAt (a : list Z) (k : Z) : Z := default 0 (JS.rd a k).

(** The raster [interlaceNone] stores: one byte per sample position of
    the header. *)
Definition raster_ok (p : PNG) : Prop :=
  exists bpp px,
    bytesPerPixel p = Some bpp /\ pixels p = Some px /\
    JS.len px = bpp * width p * height p /\ JS.bytes_ok px.

(** The raster [interlaceNone] stores, whatever the header: the bit
    depth is a number, and the raster holds as many bytes as
    [Math.max(1, colors * bitDepth / 8) * width * height], cut down to a
    whole number. *)
Definition raster_floor (p : PNG) : Prop :=
  exists bd px,
    bitDepth p = Some bd /\ pixels p = Some px /\
    JS.len px = Z.max 8 (colors p * bd) * width p * height p / 8 /\
    JS.bytes_ok px.

(** What the setters keep true of a PNG object. *)
Definition pinv (p : PNG) : Prop := png_ok p /\ dims_ok p.

(** The entries of [data] written by [getRGBA8Array] when its loops
    stand at column [x] of row [y]: the four of every pixel before that
    place, in row order. *)
Definition filled (p : PNG) (data : array) (x y : Z) : Prop :=
  Z.of_nat (length data) = width p * height p * 4 /\
  forall x' y' k,
    0 <= x' < width p -> 0 <= y' -> y' < y \/ (y' = y /\ x' < x) -> 0 <= k < 4 ->
    exists t, getPixel p x' y' = Ok t /\
              data !! Z.to_nat ((y' * width p + x') * 4 + k) = Some (component t k).

(** A call of one of the setters of [PNG] that the reader uses, and a
    sequence of such calls on one object: a call that throws ends the
    sequence. *)
Inductive setter : Type :=
| SetWidth (w : Z)
| SetHeight (h : Z)
| SetBitDepth (b : JS.num)
| SetColorType (c : Z)
| SetCompressionMethod (v : Z)
| SetFilterMethod (v : Z)
| SetInterlaceMethod (v : Z)
| SetTRNS (t : list Z)
| SetPalette (pal : list Z)
| SetPixels (px : list Z).

Definition call (c : setter) : M PNG unit :=
  match c with
  | SetWidth w => setWidth w
  | SetHeight h => setHeight h
  | SetBitDepth b => setBitDepth b
  | SetColorType c => setColorType c
  | SetCompressionMethod v => setCompressionMethod v
  | SetFilterMethod v => setFilterMethod v
  | SetInterlaceMethod v => setInterlaceMethod v
  | SetTRNS t => setTRNS t
  | SetPalette pal => setPalette pal
  | SetPixels px => setPixels px
  end.

Fixpoint calls (cs : list setter) : M PNG unit :=
  match cs with
  | [] => ret tt
  | c :: cs' => call c ;;; calls cs'
  end.

(** * Properties *)

(** ** Typed arrays *)

Section Arrays.

Import JS.

Lemma wr_length (a : list Z) (k : Z) (v : num) : length (wr a k v) = length a.
Proof.
  unfold wr. destruct (k <? 0); [reflexivity | apply length_insert].
Qed.

Lemma wr_len (a : list Z) (k : Z) (v : num) : len (wr a k v) = len a.
Proof. unfold len. now rewrite wr_length. Qed.

Lemma rd_wr_same (a : list Z) (k : Z) (v : num) :
  0 <= k < len a -> rd (wr a k v) k = Some (toUint8 v).
Proof.
  intros Hk. unfold rd, wr, len in *.
  destruct (k <? 0) eqn:E; [lia |].
  apply list_lookup_insert_eq. lia.
Qed.

Lemma rd_wr_other (a : list Z) (k j : Z) (v : num) :
  j <> k -> rd (wr a k v) j = rd a j.
Proof.
  intros Hne. unfold rd, wr.
  destruct (j <? 0) eqn:Ej; [reflexivity |].
  destruct (k <? 0) eqn:Ek; [reflexivity |].
  apply list_lookup_insert_ne. lia.
Qed.

Lemma rd_is_Some (a : list Z) (k : Z) :
  0 <= k < len a -> exists v, rd a k = Some v.
Proof.
  intros Hk. unfold rd, len in *.
  destruct (k <? 0) eqn:E; [lia |].
  destruct (lookup_lt_is_Some_2 a (Z.to_nat k)) as [v Hv]; [lia | eauto].
Qed.

Lemma rd_Some_range (a : list Z) (k v : Z) :
  rd a k = Some v -> 0 <= k < len a.
Proof.
  unfold rd, len. destruct (k <? 0) eqn:E; [discriminate |].
  intros H. apply lookup_lt_Some in H. lia.
Qed.

Lemma rd_bytes (a : list Z) (k v : Z) :
  bytes_ok a -> rd a k = Some v -> byte_ok v.
Proof.
  unfold rd. destruct (k <? 0); [discriminate |].
  intros Ha H. eapply Forall_lookup_1; eauto.
Qed.

Lemma rd_ext (a b : list Z) :
  length a = length b ->
  (forall k, 0 <= k < len a -> rd a k = rd b k) -> a = b.
Proof.
  intros Hl H. apply list_eq. intros n.
  destruct (Nat.lt_ge_cases n (length a)) as [Hn | Hn].
  - specialize (H (Z.of_nat n)). unfold rd, len in H.
    destruct (Z.of_nat n <? 0) eqn:E; [lia |].
    rewrite Nat2Z.id in H. apply H. lia.
  - rewrite (proj2 (lookup_ge_None a n)) by lia.
    rewrite (proj2 (lookup_ge_None b n)) by lia. reflexivity.
Qed.

Lemma toInt32_small (z : Z) :
  - 2 ^ 31 <= z < 2 ^ 31 -> toInt32 (Some z) = z.
Proof.
  intros H. unfold toInt32. rewrite Z.mod_small; lia.
Qed.

Lemma toInt32_mod256 (z : Z) : toInt32 (Some z) mod 256 = z mod 256.
Proof.
  unfold toInt32.
  pose proof (Z.div_mod (z + 2 ^ 31) (2 ^ 32) ltac:(lia)) as H.
  replace ((z + 2 ^ 31) mod 2 ^ 32 - 2 ^ 31)
    with (z + (- (2 ^ 24) * ((z + 2 ^ 31) / 2 ^ 32)) * 256) by lia.
  apply Z_mod_plus_full.
Qed.

(** [x & 0xff] keeps the low byte. *)
Lemma and_255 (z : Z) : and (Some z) 255 = Some (z mod 256).
Proof.
  unfold and. f_equal.
  change 255 with (Z.ones 8). rewrite Z.land_ones by lia.
  apply toInt32_mod256.
Qed.

Lemma and_255_undefined : and None 255 = Some 0.
Proof. reflexivity. Qed.

(** [x >> 1] halves a small non-negative number. *)
Lemma shr_1 (z : Z) : 0 <= z < 2 ^ 31 -> shr (Some z) 1 = Some (z / 2).
Proof.
  intros H. unfold shr. rewrite toInt32_small by lia.
  now rewrite Z.shiftr_div_pow2 by lia.
Qed.

Lemma mod256_byte (z : Z) : byte_ok z -> z mod 256 = z.
Proof. unfold byte_ok. intros H. apply Z.mod_small. lia. Qed.

Lemma bytes_ok_slice (a : list Z) (s e : Z) : bytes_ok a -> bytes_ok (slice a s e).
Proof.
  intros H. unfold slice, bytes_ok. apply Forall_take, Forall_drop, H.
Qed.

(** *** Typed arrays and their ArrayBuffer *)

Lemma elems_sliceOf (a : u8) (s e : Z) :
  elems (sliceOf a s e) = slice (elems a) s e.
Proof. unfold sliceOf. destruct (isBuffer a); reflexivity. Qed.

Lemma slice_clamp (a : list Z) (s e : Z) :
  slice a s e
  = take (Z.to_nat (clamp (len a) e - clamp (len a) s))
         (drop (Z.to_nat (clamp (len a) s)) a).
Proof. reflexivity. Qed.

Lemma clamp_range (n k : Z) : 0 <= n -> 0 <= clamp n k <= n.
Proof. intros Hn. unfold clamp. destruct (Z.ltb_spec k 0); lia. Qed.

(** The slice of a [Buffer] is a view: the ArrayBuffer is the same. *)
Lemma buffer_sliceOf_view (a : u8) (s e : Z) :
  isBuffer a = true -> buffer (sliceOf a s e) = buffer a.
Proof.
  intros Hv. unfold sliceOf, buffer. rewrite Hv. cbn [before elems after].
  rewrite slice_clamp.
  assert (Hn : 0 <= len (elems a)) by (unfold len; lia).
  pose proof (clamp_range (len (elems a)) s Hn) as Hk.
  pose proof (clamp_range (len (elems a)) e Hn) as Hf.
  set (k := clamp (len (elems a)) s) in *.
  set (f := clamp (len (elems a)) e) in *.
  assert (E : take (Z.to_nat k) (elems a)
              ++ take (Z.to_nat (f - k)) (drop (Z.to_nat k) (elems a))
              ++ drop (Z.to_nat (Z.max k f)) (elems a) = elems a).
  { destruct (Z.le_gt_cases k f) as [Hle | Hgt].
    - rewrite Z.max_r by lia.
      replace (Z.to_nat f) with (Z.to_nat k + Z.to_nat (f - k))%nat by lia.
      rewrite <- drop_drop, take_drop. apply take_drop.
    - rewrite Z.max_l by lia.
      replace (Z.to_nat (f - k)) with 0%nat by lia.
      rewrite take_0. apply take_drop. }
  rewrite <- !app_assoc. f_equal.
  rewrite <- E at 4. rewrite <- !app_assoc. reflexivity.
Qed.

(** The slice of any other array owns its ArrayBuffer. *)
Lemma buffer_sliceOf_copy (a : u8) (s e : Z) :
  isBuffer a = false -> buffer (sliceOf a s e) = slice (elems a) s e.
Proof.
  intros Hv. unfold sliceOf, buffer. rewrite Hv. cbn. apply app_nil_r.
Qed.

Lemma bytes_ok_elems (a : u8) : bytes_ok (buffer a) -> bytes_ok (elems a).
Proof.
  unfold buffer, bytes_ok. rewrite !Forall_app. tauto.
Qed.

Lemma bytes_ok_buffer_sliceOf (a : u8) (s e : Z) :
  bytes_ok (buffer a) -> bytes_ok (buffer (sliceOf a s e)).
Proof.
  intros H. destruct (isBuffer a) eqn:Hv.
  - now rewrite buffer_sliceOf_view.
  - rewrite buffer_sliceOf_copy by assumption.
    apply bytes_ok_slice, bytes_ok_elems, H.
Qed.

(** Inside the array, the ArrayBuffer holds the elements. *)
Lemma rd_buffer_inside (a : u8) (k : Z) :
  0 <= k < len (elems a) ->
  rd (buffer a) (byteOffset a + k) = rd (elems a) k.
Proof.
  intros Hk. unfold rd, buffer, byteOffset, len in *.
  destruct (Z.ltb_spec (Z.of_nat (length (before a)) + k) 0); [lia |].
  destruct (Z.ltb_spec k 0); [lia |].
  rewrite lookup_app_r by lia.
  rewrite lookup_app_l by lia.
  f_equal. lia.
Qed.

End Arrays.

(** ** The colour type table and the palette check *)




(** C8.  [setPalette p]: throws 'incorrect PLTE chunk length' when
    the length of [p] is not a multiple of 3; for a bit depth a header
    byte can hold, throws (that error or 'palette has more colors than
    2^bitdepth') when the length exceeds 2^bitDepth * 3, and otherwise
    stores [p] itself as the palette.  A throw leaves the PNG object, and
    so the stored palette, as it was.  (With the bit depth [undefined],
    which [decodeIHDR] can leave behind, the second test compares with
    [NaN] and every palette of whole triples is stored.) *)
Theorem setPalette_validation (p : list Z) (png : PNG) :
  (JS.len p mod 3 <> 0 ->
     setPalette p png = (Throw IncorrectPLTELength, png)) /\
  (forall bd, bitDepth png = Some bd -> 0 <= bd ->
     (JS.len p > 2 ^ bd * 3 ->
        exists e, setPalette p png = (Throw e, png) /\
                  (e = IncorrectPLTELength \/ e = PaletteTooLarge)) /\
     (JS.len p mod 3 = 0 -> JS.len p <= 2 ^ bd * 3 ->
        setPalette p png = (Ok tt, with_palette p png) /\
        palette (with_palette p png) = p)) /\
  (bitDepth png = None -> JS.len p mod 3 = 0 ->
     setPalette p png = (Ok tt, with_palette p png) /\
     palette (with_palette p png) = p).
Proof.
  unfold setPalette, throw, modify. split; [| split].
  - intros H. destruct (JS.len p mod 3 =? 0) eqn:E; [lia | reflexivity].
  - intros bd Hbd _. rewrite Hbd. unfold exceeds. split.
    + intros H. destruct (JS.len p mod 3 =? 0) eqn:E; simpl.
      * destruct (JS.len p >? 2 ^ bd * 3) eqn:E'; [| lia].
        exists PaletteTooLarge. auto.
      * exists IncorrectPLTELength. auto.
    + intros H3 Hle. destruct (JS.len p mod 3 =? 0) eqn:E; [| lia]. simpl.
      destruct (JS.len p >? 2 ^ bd * 3) eqn:E'; [lia |]. split; reflexivity.
  - intros Hbd H3. rewrite Hbd. unfold exceeds.
    destruct (JS.len p mod 3 =? 0) eqn:E; [| lia]. simpl. split; reflexivity.
Qed.

Lemma setPalette_validation_witness :
  setPalette [10; 20; 30] (with_bitDepth (Some 1) newPNG)
    = (Ok tt, with_palette [10; 20; 30] (with_bitDepth (Some 1) newPNG)) /\
  setPalette [10; 20] (with_bitDepth (Some 1) newPNG)
    = (Throw IncorrectPLTELength, with_bitDepth (Some 1) newPNG) /\
  (exists e, setPalette [1; 2; 3; 4; 5; 6; 7; 8; 9] (with_bitDepth (Some 1) newPNG)
             = (Throw e, with_bitDepth (Some 1) newPNG) /\
             (e = IncorrectPLTELength \/ e = PaletteTooLarge)).
Proof.
  split; [| split].
  - apply (proj1 (proj2 (setPalette_validation [10; 20; 30]
                           (with_bitDepth (Some 1) newPNG))) 1);
      vm_compute; congruence.
  - apply (setPalette_validation [10; 20] (with_bitDepth (Some 1) newPNG));
      vm_compute; congruence.
  - apply (proj1 (proj2 (setPalette_validation [1; 2; 3; 4; 5; 6; 7; 8; 9]
                           (with_bitDepth (Some 1) newPNG))) 1);
      vm_compute; congruence.
Defined.

(** ** The Paeth predictor *)

(** On numbers, the predictor of [unFilterPaeth] is the PaethPredictor
    function of the standard. *)
Lemma paethPredictor_defined (a b c : Z) :
  paethPredictor (Some a) (Some b) (Some c) = Some (PngFilter.PaethPredictor a b c).
Proof.
  unfold paethPredictor, PngFilter.PaethPredictor. simpl.
  destruct (_ <=? _); simpl; [destruct (_ <=? _); simpl |];
    try reflexivity; destruct (_ <=? _); reflexivity.
Qed.

(** C2.  With [p = a + b - c], the predictor of [unFilterPaeth] returns
    [a] when |p-a| <= |p-b| and |p-a| <= |p-c|, else [b] when
    |p-b| <= |p-c|, else [c]; the value returned is one of [a], [b], [c]
    at the least distance from [p]; when the three distances are equal
    it is [a]. *)
Theorem paethPredictor_nearest (a b c : Z) :
  let p := a + b - c in
  let pa := Z.abs (p - a) in
  let pb := Z.abs (p - b) in
  let pc := Z.abs (p - c) in
  exists r,
    paethPredictor (Some a) (Some b) (Some c) = Some r /\
    (pa <= pb /\ pa <= pc /\ r = a \/
     ~ (pa <= pb /\ pa <= pc) /\ pb <= pc /\ r = b \/
     ~ (pa <= pb /\ pa <= pc) /\ ~ pb <= pc /\ r = c) /\
    Z.abs (p - r) <= pa /\ Z.abs (p - r) <= pb /\ Z.abs (p - r) <= pc /\
    (pa = pb /\ pb = pc -> r = a).
Proof.
  intros p pa pb pc.
  exists (PngFilter.PaethPredictor a b c).
  split; [apply paethPredictor_defined |].
  unfold PngFilter.PaethPredictor. fold p. fold pa. fold pb. fold pc.
  destruct (pa <=? pb) eqn:E1; destruct (pa <=? pc) eqn:E2;
    destruct (pb <=? pc) eqn:E3; simpl;
    repeat split; try lia;
    try (left; lia); try (right; left; lia); try (right; right; lia).
Qed.

Lemma paethPredictor_nearest_witness :
  paethPredictor (Some 3) (Some 3) (Some 3) = Some 3 /\
  paethPredictor (Some 10) (Some 20) (Some 15) = Some 15 /\
  paethPredictor (Some 10) (Some 20) (Some 5) = Some 20.
Proof.
  split; [| split].
  - destruct (paethPredictor_nearest 3 3 3) as (r & Hr & _ & _ & _ & _ & Heq).
    simpl in Heq. rewrite Hr, Heq; [reflexivity | split; reflexivity].
  - destruct (paethPredictor_nearest 10 20 15) as (r & Hr & Hc & _).
    rewrite Hr. simpl in Hc. f_equal. lia.
  - destruct (paethPredictor_nearest 10 20 5) as (r & Hr & Hc & _).
    rewrite Hr. simpl in Hc. f_equal. lia.
Defined.

(** ** Chunk lengths *)

Lemma getUint32_range (b : list Z) (k v : Z) :
  JS.bytes_ok b -> getUint32 b k = Ok v -> 0 <= v < 2 ^ 32.
Proof.
  intros Hb. unfold getUint32.
  destruct (JS.rd b k) as [b0 |] eqn:E0; [| discriminate].
  destruct (JS.rd b (k + 1)) as [b1 |] eqn:E1; [| discriminate].
  destruct (JS.rd b (k + 2)) as [b2 |] eqn:E2; [| discriminate].
  destruct (JS.rd b (k + 3)) as [b3 |] eqn:E3; [| discriminate].
  intros [= <-].
  apply (rd_bytes _ _ _ Hb) in E0, E1, E2, E3.
  unfold JS.byte_ok in *. lia.
Qed.

Lemma readUInt32_range (b : JS.u8) (k v : Z) :
  JS.bytes_ok (JS.buffer b) -> readUInt32 b k = Ok v -> 0 <= v < 2 ^ 32.
Proof. intros Hb. unfold readUInt32. now apply getUint32_range. Qed.

(** Four bytes inside the array are read from its elements. *)
Lemma readUInt32_inside (b : JS.u8) (k : Z) :
  0 <= k -> k + 4 <= JS.len b -> readUInt32 b k = getUint32 b k.
Proof.
  intros Hk Hl. unfold readUInt32, getUint32.
  replace (JS.byteOffset b + k + 1) with (JS.byteOffset b + (k + 1)) by lia.
  replace (JS.byteOffset b + k + 2) with (JS.byteOffset b + (k + 2)) by lia.
  replace (JS.byteOffset b + k + 3) with (JS.byteOffset b + (k + 3)) by lia.
  now rewrite !rd_buffer_inside by lia.
Qed.

Lemma readUInt32_not_bad_length (b : JS.u8) (k n : Z) :
  readUInt32 b k <> Throw (BadChunkLength n).
Proof.
  unfold readUInt32, getUint32. repeat destruct (JS.rd _ _); discriminate.
Qed.

Section NeverBadLength.

Context {S : Type}.

Lemma nbl_ret {A} (a : A) : never_bad_length (S := S) (ret a).
Proof. intros s n. discriminate. Qed.

Lemma nbl_modify (f : S -> S) : never_bad_length (modify f).
Proof. intros s n. discriminate. Qed.

Lemma nbl_gets {A} (f : S -> A) : never_bad_length (gets f).
Proof. intros s n. discriminate. Qed.

Lemma nbl_throw {A} (e : error) :
  (forall n, e <> BadChunkLength n) -> never_bad_length (S := S) (A := A) (throw e).
Proof. intros He s n. simpl. intros [= E]. exact (He n E). Qed.

Lemma nbl_lift {A} (o : outcome A) :
  (forall n, o <> Throw (BadChunkLength n)) -> never_bad_length (S := S) (lift o).
Proof. intros Ho s n. apply Ho. Qed.

Lemma nbl_bind {A B} (c : M S A) (k : A -> M S B) :
  never_bad_length c -> (forall a, never_bad_length (k a)) ->
  never_bad_length (bind c k).
Proof.
  intros Hc Hk s n. unfold bind.
  specialize (Hc s n). destruct (c s) as [[a | e | b] s']; simpl in *.
  - apply Hk.
  - intros [= ->]. now apply Hc.
  - discriminate.
Qed.

End NeverBadLength.

Lemma nbl_onPng {A} (c : M PNG A) :
  never_bad_length c -> never_bad_length (onPng c).
Proof.
  intros Hc r n. unfold onPng. specialize (Hc (png r) n).
  destruct (c (png r)) as [o p]. exact Hc.
Qed.

Lemma nbl_readBytes (n : Z) : never_bad_length (readBytes n).
Proof.
  intros r m. unfold readBytes. destruct (_ >? _); discriminate.
Qed.

Ltac nbl_step :=
  first
    [ apply nbl_bind; [| intros ?]
    | apply nbl_ret
    | apply nbl_modify
    | apply nbl_readBytes
    | apply nbl_onPng
    | apply nbl_throw; intros ?; discriminate
    | apply nbl_lift; intros ?; apply readUInt32_not_bad_length
    | match goal with
      | |- never_bad_length (if ?b then _ else _) => destruct b
      | |- never_bad_length (match ?x with _ => _ end) => destruct x
      end ].

Lemma nbl_setColorType (c : Z) : never_bad_length (setColorType c).
Proof.
  unfold setColorType. destruct (colorTable c) as [[cs al] |]; repeat nbl_step.
Qed.

Lemma nbl_setPalette (p : list Z) : never_bad_length (setPalette p).
Proof.
  intros png n. unfold setPalette, throw, modify.
  destruct (negb _); [discriminate |]. destruct (exceeds _ _); discriminate.
Qed.

Lemma nbl_decodeIHDR (chunk : JS.u8) : never_bad_length (decodeIHDR chunk).
Proof.
  unfold decodeIHDR, setWidth, setHeight, setBitDepth, setCompressionMethod,
    setFilterMethod, setInterlaceMethod.
  repeat first [apply nbl_setColorType | nbl_step].
Qed.

(** C10.  The four length bytes of a chunk are read as one unsigned
    big-endian number, which lies in [0, 2^32); the test [length < 0] of
    [decodeChunk] therefore never holds, and [decodeChunk] never throws
    'Bad chunk length', whatever the bytes of the file (a Node [Buffer]
    or any other typed array, whose ArrayBuffer, like every ArrayBuffer,
    holds bytes). *)
Theorem decodeChunk_never_bad_length (r : Reader) (n : Z) :
  JS.bytes_ok (JS.buffer (bytes r)) ->
  (forall (b : JS.u8) k v,
     JS.bytes_ok (JS.buffer b) -> readUInt32 b k = Ok v -> 0 <= v < 2 ^ 32) /\
  fst (decodeChunk r) <> Throw (BadChunkLength n).
Proof.
  intros Hb. split; [exact readUInt32_range |].
  unfold decodeChunk. unfold bind at 1.
  destruct (readBytes 4 r) as [[b | e | x] r'] eqn:E.
  - assert (Hbb : JS.bytes_ok (JS.buffer b)).
    { unfold readBytes in E. destruct (_ >? _); [discriminate |].
      injection E as <- _. now apply bytes_ok_buffer_sliceOf. }
    unfold bind at 1, lift.
    destruct (readUInt32 b 0) as [v | e | x] eqn:Ev.
    + pose proof (readUInt32_range _ _ _ Hbb Ev) as Hv.
      destruct (v <? 0) eqn:Hneg; [lia |].
      revert r' E n.
      assert (H : never_bad_length
                    (t <- readBytes 4 ;;
                     (let type := bufferToString t in
                      chunk <- readBytes v ;;
                      readBytes 4 ;;;
                      (if String.eqb type "IHDR" then decodeIHDR chunk
                       else if String.eqb type "PLTE" then decodePLTE chunk
                       else if String.eqb type "IDAT" then decodeIDAT chunk
                       else if String.eqb type "tRNS" then decodeTRNS chunk
                       else if String.eqb type "IEND" then decodeIEND chunk
                       else ret tt) ;;;
                      ret type))).
      { unfold decodePLTE, decodeIDAT, decodeTRNS, decodeIEND, setTRNS.
        repeat first [apply nbl_decodeIHDR | apply nbl_setPalette | nbl_step]. }
      intros r' _ n. apply H.
    + simpl. intros [= ->]. exact (readUInt32_not_bad_length _ _ _ Ev).
    + discriminate.
  - unfold readBytes in E. destruct (_ >? _); [| discriminate].
    injection E as <- _. discriminate.
  - discriminate.
Qed.

Lemma decodeChunk_never_bad_length_witness :
  JS.bytes_ok (JS.buffer (bytes afterIHDR)) /\
  fst (decodeChunk afterIHDR) <> Throw (BadChunkLength 0).
Proof.
  assert (H : JS.bytes_ok (JS.buffer (bytes afterIHDR))).
  { unfold JS.bytes_ok, JS.byte_ok. simpl.
    repeat (apply Forall_cons; split; [lia |]). apply Forall_nil; exact I. }
  split; [exact H |].
  exact (proj2 (decodeChunk_never_bad_length afterIHDR 0 H)).
Defined.

(** ** Pixel decoding and the interlace method *)

(** C9 as stated fails: with interlace method 1 the error of
    [decodePixels] is not always the Adam7 one.  The payload is inflated
    first, and a payload zlib rejects (such as the empty one of
    [adam7Reader]) ends the call with the error of zlib. *)
Lemma decodePixels_adam7_inflate_first :
  interlaceMethod (png adam7Reader) = 1 /\
  decodePixels rejecting adam7Reader = (Throw InflateError, adam7Reader) /\
  ~ (forall (inflate : list Z -> option (list Z)) (r : Reader),
        interlaceMethod (png r) = 1 ->
        fst (decodePixels inflate r) = Throw Adam7NotImplemented).
Proof.
  split; [reflexivity |]. split; [reflexivity |].
  intros H.
  specialize (H rejecting adam7Reader eq_refl).
  discriminate H.
Qed.

(** C9, amended.  With interlace method 1, [decodePixels] never
    succeeds and leaves the reader and its PNG object untouched (no row is
    defiltered, no raster stored): it throws the Adam7 error when zlib
    inflates the payload, and the error of zlib when it does not.  More
    generally, whenever the interlace method is not 0 the call throws
    with the reader unchanged, so the work of [interlaceNone] is done for
    method 0 only. *)
Theorem decodePixels_adam7 (inflate : list Z -> option (list Z)) (r : Reader) :
  (interlaceMethod (png r) = 1 ->
     snd (decodePixels inflate r) = r /\
     fst (decodePixels inflate r) =
       match inflate (concat (dataChunks r)) with
       | Some _ => Throw Adam7NotImplemented
       | None => Throw InflateError
       end) /\
  (interlaceMethod (png r) <> 0 ->
     snd (decodePixels inflate r) = r /\
     exists e, fst (decodePixels inflate r) = Throw e) /\
  (interlaceMethod (png r) = 0 ->
     forall d, inflate (concat (dataChunks r)) = Some d ->
               decodePixels inflate r = interlaceNone d r).
Proof.
  unfold decodePixels, interlaceAdam7, throw.
  split; [| split].
  - intros H. rewrite H. simpl.
    destruct (inflate _); split; reflexivity.
  - intros H. destruct (inflate _).
    + destruct (Z.eqb_spec (interlaceMethod (png r)) 0) as [E | E]; [contradiction |].
      split; [reflexivity | eexists; reflexivity].
    + split; [reflexivity | eexists; reflexivity].
  - intros H d Hd. now rewrite Hd, H.
Qed.

Lemma decodePixels_adam7_witness :
  interlaceMethod (png adam7Reader) = 1 /\
  decodePixels (fun _ => Some [0; 128]) adam7Reader
    = (Throw Adam7NotImplemented, adam7Reader) /\
  decodePixels rejecting adam7Reader = (Throw InflateError, adam7Reader).
Proof.
  split; [reflexivity |]. split.
  - destruct (decodePixels_adam7 (fun _ => Some [0; 128]) adam7Reader)
      as [H _].
    destruct (H eq_refl) as [Hs Hf].
    rewrite (surjective_pairing (decodePixels _ adam7Reader)).
    now rewrite Hs, Hf.
  - destruct (decodePixels_adam7 rejecting adam7Reader) as [H _].
    destruct (H eq_refl) as [Hs Hf].
    rewrite (surjective_pairing (decodePixels _ adam7Reader)).
    now rewrite Hs, Hf.
Defined.

(** ** Header-only parsing *)

(** C4, at [tinyPNG].  [parse(false)] leaves the chunk loop right after
    the IHDR chunk, with the cursor before the IDAT chunk and no payload
    gathered; it then calls [decodePixels] all the same, which hands the
    empty payload to zlib: the call ends with the error of zlib, or, were
    the empty payload inflated, with the rows defiltered. *)
Theorem parse_header_only_tinyPNG (inflate : list Z -> option (list Z)) :
  (decodeHeader ;;;
   (fun r => chunkLoop (S (length (bytes r))) false r)) (PNGReader tinyPNG)
    = (Ok tt, afterIHDR) /\
  parse inflate false (PNGReader tinyPNG) =
    match inflate [] with
    | None => (Throw InflateError, afterIHDR)
    | Some d => (interlaceNone d ;;; gets png) afterIHDR
    end.
Proof.
  split; [reflexivity |].
  assert (H : parse inflate false (PNGReader tinyPNG)
              = (decodePixels inflate ;;; gets png) afterIHDR) by reflexivity.
  rewrite H. unfold bind, decodePixels. simpl concat.
  destruct (inflate []); reflexivity.
Qed.

(** ** [getPixel] *)

(** C6, at the header [tinyPNG] declares.  The pixel array of a PNG
    object starts as an empty typed array, not as null, so the test
    [!this.pixels] does not fire: before any raster is stored, an
    in-bounds [getPixel] returns a tuple of [undefined] samples instead
    of throwing 'pixel data is empty'. *)
Theorem getPixel_before_decode :
  png afterIHDR = tinyHeader /\
  pixels tinyHeader = pixels newPNG /\
  getPixel tinyHeader 0 0 = Ok (None, None, None, Some 255).
Proof. repeat split. Qed.

(** The empty-data error needs a null pixel array, which neither the
    constructor nor [setPixels] produces. *)
Lemma getPixel_empty_error_iff (p : PNG) (x y : Z) :
  getPixel p x y = Throw PixelDataEmpty <-> pixels p = None.
Proof.
  unfold getPixel. destruct (pixels p) as [px |]; [| tauto].
  split; [| discriminate].
  destruct (_ || _); [discriminate |].
  destruct (colorType p) as [| q | q]; try discriminate.
  do 3 (try destruct q as [q | q |]); discriminate.
Qed.

(** C5, at a 2x1 greyscale image of bit depth 4.  [interlaceNone] lays
    the raster out with one byte per pixel (max(1, 4/8) = 1), giving
    [18; 0]; [getPixel(1, 0)] indexes it with 4/8 * 1, a fractional
    index, and returns [undefined] samples where the byte at offset
    1 * (0 * 2 + 1) is 0. *)
Theorem getPixel_sub_byte_depth :
  bytesPerPixel nibbleHeader = Some 1 /\
  snd (interlaceNone [0; 18] (with_png nibbleHeader (PNGReader [])))
    = with_png nibbleImage (PNGReader []) /\
  getPixel nibbleImage 1 0 = Ok (None, None, None, Some 255) /\
  JS.rd [18; 0] (1 * (0 * 2 + 1)) = Some 0.
Proof. repeat split. Qed.

(** When [colors * bitDepth] is a whole number [bpp >= 1] of bytes, the
    samples [getPixel] reads are the bytes from offset
    [bpp * (y * width + x)] on. *)
Lemma sampleAt_whole_bytes (px : list Z) (bpp n k : Z) :
  sampleAt px (8 * bpp * n) k = JS.rd px (bpp * n + k).
Proof.
  unfold sampleAt.
  replace (8 * bpp * n) with ((bpp * n) * 8) by lia.
  rewrite Z_mod_mult, Z_div_mult by lia. reflexivity.
Qed.

Lemma getPixel_whole_bytes (p : PNG) (px : list Z) (bd bpp x y : Z) :
  pixels p = Some px -> x < width p -> y < height p ->
  1 <= bpp -> bitDepth p = Some bd -> colors p * bd = 8 * bpp ->
  bytesPerPixel p = Some bpp /\
  let s := fun k => JS.rd px (bpp * (y * width p + x) + k) in
  (colorType p = 0 -> getPixel p x y = Ok (s 0, s 0, s 0, Some 255)) /\
  (colorType p = 2 -> getPixel p x y = Ok (s 0, s 1, s 2, Some 255)) /\
  (colorType p = 4 -> getPixel p x y = Ok (s 0, s 0, s 0, s 1)) /\
  (colorType p = 6 -> getPixel p x y = Ok (s 0, s 1, s 2, s 3)).
Proof.
  intros Hpx Hx Hy Hb Hbd Hq. split.
  - unfold bytesPerPixel. rewrite Hbd. cbv zeta. rewrite Hq.
    destruct (8 * bpp <=? 8) eqn:E.
    + f_equal. lia.
    + replace (8 * bpp) with (bpp * 8) by lia.
      rewrite Z_mod_mult, Z_div_mult by lia. reflexivity.
  - intros s. unfold getPixel. rewrite Hpx.
    destruct (Z.geb_spec x (width p)); [lia |].
    destruct (Z.geb_spec y (height p)); [lia |]. simpl.
    rewrite Hbd, Hq.
    repeat split; intros ->; rewrite !sampleAt_whole_bytes; reflexivity.
Qed.

(** ** Loops that fill a row

    Every loop of the inverse filters has the shape
    [for (; i < hi; i++) pixels[off + i] = f(i, pixels)]. *)

Section Fill.

Import JS.

Variable off : Z.
Variable f : Z -> list Z -> num.

Local Abbreviation body := (fun i px => wr px (off + i) (f i px)).

Lemma for_loop_split {S : Type} (g : Z -> S -> S) (n m : nat) (lo : Z) (s : S) :
  for_loop (n + m) lo g s = for_loop m (lo + Z.of_nat n) g (for_loop n lo g s).
Proof.
  revert lo s. induction n as [| n IH]; intros lo s.
  - simpl. now rewrite Z.add_0_r.
  - simpl Nat.add. cbn [for_loop]. rewrite IH. f_equal. lia.
Qed.

Lemma fill_length (n : nat) (lo : Z) (px : list Z) :
  length (for_loop n lo body px) = length px.
Proof.
  revert lo px. induction n as [| n IH]; intros lo px; [reflexivity |].
  cbn [for_loop]. rewrite IH. apply wr_length.
Qed.

(** Bytes outside the filled range keep their value. *)
Lemma fill_outside (n : nat) (lo : Z) (px : list Z) (k : Z) :
  k < off + lo \/ off + lo + Z.of_nat n <= k ->
  rd (for_loop n lo body px) k = rd px k.
Proof.
  revert lo px. induction n as [| n IH]; intros lo px Hk; [reflexivity |].
  cbn [for_loop]. rewrite IH by lia. apply rd_wr_other. lia.
Qed.

(** The byte at [off + i] is the one turn [i] stored. *)
Lemma fill_inside (n : nat) (lo : Z) (px : list Z) (i : Z) :
  lo <= i < lo + Z.of_nat n -> 0 <= off + i < len px ->
  rd (for_loop n lo body px) (off + i)
  = Some (toUint8 (f i (for_loop (Z.to_nat (i - lo)) lo body px))).
Proof.
  intros Hi Hr.
  replace n with (Z.to_nat (i - lo) + S (Z.to_nat (lo + Z.of_nat n - i - 1)))%nat by lia.
  rewrite for_loop_split. cbn [for_loop].
  replace (lo + Z.of_nat (Z.to_nat (i - lo))) with i by lia.
  rewrite fill_outside by lia.
  apply rd_wr_same. unfold len in *. now rewrite fill_length.
Qed.

Lemma wr_bytes_ok (a : list Z) (k : Z) (v : num) : bytes_ok a -> bytes_ok (wr a k v).
Proof.
  intros Ha. unfold wr. destruct (k <? 0); [exact Ha |].
  apply Forall_insert; [exact Ha |].
  unfold byte_ok, toUint8. destruct v as [z |]; [| lia].
  apply Z.mod_pos_bound. lia.
Qed.

Lemma fill_bytes_ok (n : nat) (lo : Z) (px : list Z) :
  bytes_ok px -> bytes_ok (for_loop n lo body px).
Proof.
  revert lo px. induction n as [| n IH]; intros lo px Hpx; [exact Hpx |].
  cbn [for_loop]. apply IH, wr_bytes_ok, Hpx.
Qed.

End Fill.

(** ** The inverse filters at the edges of the image *)

Section Boundaries.

Import JS.

Variables (scanline pixels : list Z) (bpp n : Z).
Hypothesis Hbpp : 1 <= bpp.
Hypothesis Hlen : len scanline = n.
Hypothesis Hs : bytes_ok scanline.
Hypothesis Hpx : bytes_ok pixels.

Lemma scanline_byte (i : Z) :
  0 <= i < n -> exists v, rd scanline i = Some v /\ byte_ok v.
Proof.
  intros Hi. destruct (rd_is_Some scanline i) as [v Hv]; [lia |].
  exists v. split; [exact Hv |]. exact (rd_bytes _ _ _ Hs Hv).
Qed.

(** A loop that copies the scanline stores it byte for byte. *)
Lemma copy_inside (off lo hi i : Z) (px : list Z) :
  lo <= i < hi -> 0 <= i < n -> 0 <= off + i < len px ->
  rd (for_range lo hi (fun i px => wr px (off + i) (rd scanline i)) px) (off + i)
  = rd scanline i.
Proof.
  intros Hi Hin Hr. unfold for_range.
  rewrite (fill_inside off (fun i _ => rd scanline i)) by lia.
  destruct (scanline_byte i Hin) as (v & -> & Hv).
  simpl. now rewrite mod256_byte.
Qed.

Lemma first_row_test : 0 < n -> (0 - n <? 0) = true.
Proof. intros Hn. apply Z.ltb_lt. lia. Qed.

Lemma later_row_test (off : Z) : n <= off -> (off - n <? 0) = false.
Proof. intros H. apply Z.ltb_ge. lia. Qed.

Lemma unFilterUp_first_row (i : Z) :
  0 <= i < n -> i < len pixels ->
  rd (unFilterUp scanline pixels bpp 0 n) (0 + i) = rd scanline i.
Proof.
  intros Hi Hp. unfold unFilterUp. rewrite first_row_test by lia.
  apply copy_inside; lia.
Qed.

(** Two loops that store the same values leave the same buffer. *)
Lemma for_loop_same {S : Type} (g g' : Z -> S -> S) (k : nat) :
  (forall i s, g i s = g' i s) ->
  forall lo s, for_loop k lo g s = for_loop k lo g' s.
Proof.
  intros Hg. induction k as [| k IH]; intros lo s; [reflexivity |].
  cbn [for_loop]. rewrite Hg. apply IH.
Qed.

(** On the first row Paeth is Sub.  An empty row (a width of 0) takes
    the other branch of [unFilterPaeth], which then stores the same
    zeros as Sub does: the scanline has no byte to give. *)
Lemma unFilterPaeth_first_row :
  unFilterPaeth scanline pixels bpp 0 n = unFilterSub scanline pixels bpp 0 n.
Proof.
  unfold unFilterPaeth, unFilterSub.
  destruct (Z.ltb_spec (0 - n) 0) as [Hlt | Hge]; [reflexivity |].
  assert (Hn0 : n = 0) by (unfold len in Hlen; lia).
  assert (Hnil : scanline = []).
  { destruct scanline; [reflexivity |]. unfold len in Hlen. simpl in Hlen. lia. }
  subst n. rewrite Hnil. cbv zeta. unfold for_range.
  change (len []) with 0.
  replace (Z.to_nat (0 - Z.max 0 bpp)) with 0%nat by lia.
  cbn [for_loop].
  match goal with
  | |- for_loop _ _ ?g _ = for_loop _ _ ?g' _ => apply (for_loop_same g g')
  end.
  intros i s.
  assert (Hrd : rd [] i = None).
  { unfold rd. destruct (i <? 0); [reflexivity | apply lookup_nil]. }
  rewrite Hrd. reflexivity.
Qed.

Lemma unFilterAverage_first_row_left (i : Z) :
  0 <= i < n -> i < bpp -> i < len pixels ->
  rd (unFilterAverage scanline pixels bpp 0 n) (0 + i) = rd scanline i.
Proof.
  intros Hi Hb Hp. unfold unFilterAverage. rewrite first_row_test by lia.
  unfold for_range at 1.
  rewrite (fill_outside 0
             (fun i px => and (add (rd scanline i) (shr (rd px (0 + i - bpp)) 1)) 255))
    by lia.
  apply copy_inside; lia.
Qed.

Lemma unFilterSub_left (off i : Z) :
  0 <= off -> 0 <= i < n -> i < bpp -> off + i < len pixels ->
  rd (unFilterSub scanline pixels bpp off n) (off + i) = rd scanline i.
Proof.
  intros Ho Hi Hb Hp. unfold unFilterSub.
  unfold for_range at 1.
  rewrite (fill_outside off
             (fun i px => and (add (rd scanline i) (rd px (off + i - bpp))) 255))
    by lia.
  apply copy_inside; lia.
Qed.

Lemma unFilterAverage_first_row (i l : Z) :
  bpp <= i < n -> i < len pixels ->
  rd (unFilterAverage scanline pixels bpp 0 n) (0 + i - bpp) = Some l ->
  exists v, rd scanline i = Some v /\
    rd (unFilterAverage scanline pixels bpp 0 n) (0 + i)
    = Some ((v + Z.shiftr l 1) mod 256).
Proof.
  intros Hi Hp. unfold unFilterAverage. rewrite first_row_test by lia.
  set (px1 := for_range 0 bpp _ pixels).
  assert (Hl1 : len px1 = len pixels).
  { unfold px1, for_range, len.
    now rewrite (fill_length 0 (fun i _ => rd scanline i)). }
  set (f2 := fun i px => and (add (rd scanline i) (shr (rd px (0 + i - bpp)) 1)) 255).
  unfold for_range. change (for_loop ?k ?lo _ px1) with (for_loop k lo (fun i px => wr px (0 + i) (f2 i px)) px1).
  replace (Z.max 0 bpp) with bpp by lia.
  intros Hleft.
  destruct (scanline_byte i ltac:(lia)) as (v & Hv & Hvb).
  exists v. split; [exact Hv |].
  rewrite (fill_inside 0 f2) by lia.
  (* the byte to the left is final once turn [i] starts *)
  replace (Z.to_nat (n - bpp))
    with (Z.to_nat (i - bpp) + Z.to_nat (n - i))%nat in Hleft by lia.
  rewrite for_loop_split in Hleft.
  rewrite (fill_outside 0 f2) in Hleft by lia.
  set (st := for_loop (Z.to_nat (i - bpp)) bpp _ px1) in *.
  assert (Hlb : byte_ok l).
  { eapply rd_bytes; [| exact Hleft].
    unfold st. apply (fill_bytes_ok 0 f2).
    unfold px1, for_range. apply (fill_bytes_ok 0 (fun i _ => rd scanline i)), Hpx. }
  unfold f2. rewrite Hleft, Hv.
  unfold shr. rewrite toInt32_small by (unfold byte_ok in Hlb; lia).
  simpl add. rewrite and_255. simpl. now rewrite Z.mod_mod by lia.
Qed.

Lemma unFilterUp_later_row (off i u : Z) :
  n <= off -> 0 <= i < n -> off + i < len pixels ->
  rd pixels (off - n + i) = Some u ->
  exists v, rd scanline i = Some v /\
    rd (unFilterUp scanline pixels bpp off n) (off + i)
    = Some ((v + u) mod 256).
Proof.
  intros Ho Hi Hp Hu. unfold unFilterUp. rewrite later_row_test by lia.
  set (f1 := fun i px => and (add (rd scanline i) (rd px (off + i - n))) 255).
  unfold for_range.
  change (for_loop ?k ?lo _ pixels)
    with (for_loop k lo (fun i px => wr px (off + i) (f1 i px)) pixels).
  rewrite (fill_inside off f1) by lia.
  rewrite Z.sub_0_r.
  destruct (scanline_byte i Hi) as (v & Hv & Hvb).
  exists v. split; [exact Hv |].
  unfold f1. rewrite (fill_outside off f1) by lia.
  replace (off + i - n) with (off - n + i) by lia.
  rewrite Hu, Hv. simpl add. rewrite and_255. simpl. now rewrite Z.mod_mod by lia.
Qed.

Lemma unFilterAverage_later_row_left (off i u : Z) :
  n <= off -> 0 <= i < n -> i < bpp -> off + i < len pixels ->
  rd pixels (off - n + i) = Some u ->
  exists v, rd scanline i = Some v /\
    rd (unFilterAverage scanline pixels bpp off n) (off + i)
    = Some ((v + Z.shiftr u 1) mod 256).
Proof.
  intros Ho Hi Hb Hp Hu. unfold unFilterAverage. rewrite later_row_test by lia.
  set (f1 := fun i px => and (add (rd scanline i) (shr (rd px (off - n + i)) 1)) 255).
  set (f2 := fun i px =>
               and (add (rd scanline i)
                        (shr (add (rd px (off + i - bpp)) (rd px (off + i - n))) 1)) 255).
  unfold for_range.
  rewrite (fill_outside off f2) by lia.
  rewrite (fill_inside off f1) by lia.
  rewrite Z.sub_0_r.
  destruct (scanline_byte i Hi) as (v & Hv & Hvb).
  exists v. split; [exact Hv |].
  unfold f1. rewrite (fill_outside off f1) by lia.
  rewrite Hu, Hv.
  assert (Hub : byte_ok u) by exact (rd_bytes _ _ _ Hpx Hu).
  unfold shr. rewrite toInt32_small by (unfold byte_ok in Hub; lia).
  simpl add. rewrite and_255. simpl. now rewrite Z.mod_mod by lia.
Qed.

Lemma unFilterPaeth_later_row_left (off i u : Z) :
  n <= off -> 0 <= i < n -> i < bpp -> off + i < len pixels ->
  rd pixels (off - n + i) = Some u ->
  exists v, rd scanline i = Some v /\
    rd (unFilterPaeth scanline pixels bpp off n) (off + i)
    = Some ((v + u) mod 256).
Proof.
  intros Ho Hi Hb Hp Hu. unfold unFilterPaeth. rewrite later_row_test by lia.
  set (f1 := fun i px => and (add (rd scanline i) (rd px (off + i - n))) 255).
  set (f2 := fun i px =>
               and (add (rd scanline i)
                        (paethPredictor (rd px (off + i - bpp)) (rd px (off + i - n))
                                        (rd px (off + i - n - bpp)))) 255).
  unfold for_range.
  rewrite (fill_outside off f2) by lia.
  rewrite (fill_inside off f1) by lia.
  rewrite Z.sub_0_r.
  destruct (scanline_byte i Hi) as (v & Hv & Hvb).
  exists v. split; [exact Hv |].
  unfold f1. rewrite (fill_outside off f1) by lia.
  replace (off + i - n) with (off - n + i) by lia.
  rewrite Hu, Hv. simpl add. rewrite and_255. simpl. now rewrite Z.mod_mod by lia.
Qed.

End Boundaries.

Ltac bytes_ok_tac :=
  unfold JS.bytes_ok, JS.byte_ok;
  repeat (constructor; [lia |]); constructor.

Lemma bytes_ok_forallb (a : list Z) :
  forallb (fun z => (0 <=? z) && (z <? 256)) a = true -> JS.bytes_ok a.
Proof.
  intros H. apply List.Forall_forall. intros z Hz.
  rewrite forallb_forall in H. specialize (H z Hz).
  unfold JS.byte_ok. lia.
Qed.

(** C3.  A row of [n] bytes handed to the inverse filters, for any
    pixel buffer, be it of one row only or shorter than the row; the
    bytes spoken of are those that lie in the buffer.
    On the first row (offset 0) the row above counts as zeros: Up stores
    the scanline as it is, Paeth is Sub, Average and Paeth copy the
    first [bpp] bytes and Average then adds half of the byte [bpp] to the
    left and nothing else.
    On a later row (offset [off >= n]) the bytes left of the row count as
    zeros: within the first [bpp] bytes Average adds half of the byte
    above and Paeth adds the byte above; Up, which counted the row
    above as zeros on the first row, now adds the byte above at every
    place of the row. *)
Theorem unFilter_boundaries (scanline pixels : list Z) (bpp n : Z) :
  1 <= bpp ->
  JS.len scanline = n -> JS.bytes_ok scanline -> JS.bytes_ok pixels ->
  (forall i, 0 <= i < n -> i < JS.len pixels ->
     JS.rd (unFilterUp scanline pixels bpp 0 n) i = JS.rd scanline i) /\
  unFilterPaeth scanline pixels bpp 0 n = unFilterSub scanline pixels bpp 0 n /\
  (forall i, 0 <= i < n -> i < bpp -> i < JS.len pixels ->
     JS.rd (unFilterAverage scanline pixels bpp 0 n) i = JS.rd scanline i /\
     JS.rd (unFilterPaeth scanline pixels bpp 0 n) i = JS.rd scanline i) /\
  (forall i l, bpp <= i < n -> i < JS.len pixels ->
     JS.rd (unFilterAverage scanline pixels bpp 0 n) (i - bpp) = Some l ->
     exists v, JS.rd scanline i = Some v /\
       JS.rd (unFilterAverage scanline pixels bpp 0 n) i
       = Some ((v + Z.shiftr l 1) mod 256)) /\
  (forall off i u, n <= off -> 0 <= i < n -> i < bpp -> off + i < JS.len pixels ->
     JS.rd pixels (off - n + i) = Some u ->
     exists v, JS.rd scanline i = Some v /\
       JS.rd (unFilterAverage scanline pixels bpp off n) (off + i)
       = Some ((v + Z.shiftr u 1) mod 256) /\
       JS.rd (unFilterPaeth scanline pixels bpp off n) (off + i)
       = Some ((v + u) mod 256)) /\
  (forall off i u, n <= off -> 0 <= i < n -> off + i < JS.len pixels ->
     JS.rd pixels (off - n + i) = Some u ->
     exists v, JS.rd scanline i = Some v /\
       JS.rd (unFilterUp scanline pixels bpp off n) (off + i)
       = Some ((v + u) mod 256)).
Proof.
  intros Hbpp Hlen Hs Hpx.
  split; [| split; [| split; [| split; [| split]]]].
  - intros i Hi Hp.
    apply (unFilterUp_first_row scanline pixels bpp n); assumption.
  - apply unFilterPaeth_first_row; assumption.
  - intros i Hi Hb Hp. split.
    + apply (unFilterAverage_first_row_left scanline pixels bpp n); assumption.
    + rewrite unFilterPaeth_first_row by assumption.
      change i with (0 + i) at 1.
      apply (unFilterSub_left scanline pixels bpp n); try assumption; lia.
  - intros i l Hi Hp Hl.
    apply (unFilterAverage_first_row scanline pixels bpp n); assumption.
  - intros off i u Hoff Hi Hb Hp Hu.
    destruct (unFilterAverage_later_row_left scanline pixels bpp n
                Hbpp Hlen Hs Hpx off i u Hoff Hi Hb Hp Hu) as (v & Hv & Ha).
    destruct (unFilterPaeth_later_row_left scanline pixels bpp n
                Hbpp Hlen Hs off i u Hoff Hi Hb Hp Hu) as (v' & Hv' & HP).
    exists v. split; [exact Hv |]. split; [exact Ha |].
    rewrite Hv in Hv'. injection Hv' as <-. exact HP.
  - intros off i u Hoff Hi Hp Hu.
    apply (unFilterUp_later_row scanline pixels bpp n); assumption.
Qed.

Lemma unFilter_boundaries_witness :
  (forall i, 0 <= i < 4 -> i < JS.len [1; 2; 3; 255] ->
     JS.rd (unFilterUp [10; 20; 30; 40] [1; 2; 3; 255] 2 0 4) i
     = JS.rd [10; 20; 30; 40] i) /\
  unFilterPaeth [10; 20; 30; 40] [1; 2; 3; 255] 2 0 4
  = unFilterSub [10; 20; 30; 40] [1; 2; 3; 255] 2 0 4.
Proof.
  destruct (unFilter_boundaries [10; 20; 30; 40] [1; 2; 3; 255] 2 4)
    as (Hu & HP & _);
    [lia | reflexivity | bytes_ok_tac | bytes_ok_tac |].
  split; [exact Hu | exact HP].
Defined.

(** ** Filtering, then defiltering *)

Lemma unfilter_ok (x p : Z) (v : JS.num) :
  JS.byte_ok x -> v = Some p ->
  Some (JS.toUint8 (JS.and (JS.add (Some ((x - p) mod 256)) v) 255)) = Some x.
Proof.
  intros Hx ->. simpl JS.add. rewrite and_255. simpl.
  rewrite Z.mod_mod by lia.
  rewrite Zplus_mod_idemp_l.
  replace (x - p + p) with x by lia.
  now rewrite mod256_byte.
Qed.

Lemma copy_ok (x p : Z) :
  JS.byte_ok x -> p = 0 -> Some (JS.toUint8 (Some ((x - p) mod 256))) = Some x.
Proof.
  intros Hx ->. simpl. rewrite Z.sub_0_r.
  rewrite Z.mod_mod by lia. now rewrite mod256_byte.
Qed.

Lemma PaethPredictor_left (a : Z) : PngFilter.PaethPredictor a 0 0 = a.
Proof.
  unfold PngFilter.PaethPredictor. cbv zeta.
  repeat match goal with
         | |- context [?x <=? ?y] => destruct (Z.leb_spec x y)
         end; simpl; lia.
Qed.

Lemma PaethPredictor_up (b : Z) : 0 <= b -> PngFilter.PaethPredictor 0 b 0 = b.
Proof.
  intros Hb. unfold PngFilter.PaethPredictor. cbv zeta.
  repeat match goal with
         | |- context [?x <=? ?y] => destruct (Z.leb_spec x y)
         end; simpl; lia.
Qed.

Section RoundTrip.

Import JS.

Variables (bpp cpr : Z) (raw : list Z).
Hypothesis Hbpp : 1 <= bpp.
Hypothesis Hcpr : 0 <= cpr.
Hypothesis Hraw : bytes_ok raw.

Local Abbreviation Raw := (PngFilter.Raw cpr raw).
Local Abbreviation Prior := (PngFilter.Prior cpr raw).
Local Abbreviation filterByte := (PngFilter.filterByte bpp cpr raw).
Local Abbreviation filterLine := (PngFilter.filterLine bpp cpr raw).
Local Abbreviation filterRows := (PngFilter.filterRows bpp cpr raw).

Lemma agree_eq (k k' : Z) (st : list Z) : k = k' -> agree raw k' st -> agree raw k st.
Proof. now intros ->. Qed.

Lemma Raw_left (r x : Z) : x < 0 -> Raw r x = 0.
Proof.
  intros Hx. unfold PngFilter.Raw. destruct (Z.ltb_spec x 0); [reflexivity | lia].
Qed.

Lemma Prior_first (r x : Z) : r <= 0 -> Prior r x = 0.
Proof.
  intros Hr. unfold PngFilter.Prior. destruct (Z.leb_spec r 0); [reflexivity | lia].
Qed.

Lemma Prior_later (r x : Z) : 1 <= r -> Prior r x = Raw (r - 1) x.
Proof.
  intros Hr. unfold PngFilter.Prior. destruct (Z.leb_spec r 0); [lia | reflexivity].
Qed.

Lemma rd_Raw (j r x : Z) :
  j = r * cpr + x -> 0 <= r -> 0 <= x < cpr -> (r + 1) * cpr <= len raw ->
  rd raw j = Some (Raw r x) /\ byte_ok (Raw r x).
Proof.
  intros -> Hr Hx Hfit.
  destruct (rd_is_Some raw (r * cpr + x)) as [v Hv]; [nia |].
  unfold PngFilter.Raw. destruct (Z.ltb_spec x 0); [lia |].
  rewrite Hv. simpl. split; [reflexivity |]. exact (rd_bytes _ _ _ Hraw Hv).
Qed.

Lemma agree_rd (k : Z) (st : list Z) (j r x : Z) :
  agree raw k st ->
  j = r * cpr + x -> 0 <= r -> 0 <= x < cpr -> (r + 1) * cpr <= len raw ->
  j < k ->
  rd st j = Some (Raw r x).
Proof.
  intros [_ Hst] Hj Hr Hx Hfit Hk.
  rewrite Hst by nia. now apply rd_Raw.
Qed.

Lemma lookup_map_seq {A} (g : nat -> A) (n start k : nat) :
  (k < n)%nat -> map g (seq start n) !! k = Some (g (start + k)%nat).
Proof.
  revert start k. induction n as [| n IH]; intros start k Hk; [lia |].
  destruct k as [| k]; simpl.
  - now rewrite Nat.add_0_r.
  - rewrite IH by lia. f_equal. f_equal. lia.
Qed.

Lemma length_filterLine (t r : Z) : len (filterLine t r) = cpr.
Proof.
  unfold len, PngFilter.filterLine. rewrite length_map, length_seq. lia.
Qed.

Lemma rd_filterLine (t r x : Z) :
  0 <= x < cpr -> rd (filterLine t r) x = Some (filterByte t r x).
Proof.
  intros Hx. unfold rd, PngFilter.filterLine.
  destruct (Z.ltb_spec x 0); [lia |].
  rewrite lookup_map_seq by lia. simpl. now rewrite Z2Nat.id by lia.
Qed.

(** One loop of an inverse filter extends the part of the buffer that
    holds the raw image, as long as each turn inside the row stores the
    raw byte. *)
Lemma for_loop_agree (off : Z) (f : Z -> list Z -> num) (n : nat) (lo : Z) (st : list Z) :
  0 <= off -> 0 <= lo -> off + cpr <= len raw ->
  agree raw (off + Z.min lo cpr) st ->
  (forall i s, lo <= i < lo + Z.of_nat n -> i < cpr -> agree raw (off + i) s ->
               Some (toUint8 (f i s)) = rd raw (off + i)) ->
  agree raw (off + Z.min (lo + Z.of_nat n) cpr)
        (for_loop n lo (fun i px => wr px (off + i) (f i px)) st).
Proof.
  intros Hoff. revert lo st.
  induction n as [| n IH]; intros lo st Hlo Hfit Hst Hturn.
  - simpl. now rewrite Z.add_0_r.
  - cbn [for_loop].
    apply (agree_eq _ (off + Z.min (lo + 1 + Z.of_nat n) cpr)); [f_equal; f_equal; lia |].
    apply IH; [lia | exact Hfit | |].
    + destruct Hst as [Hl Hst]. split; [now rewrite wr_length |].
      intros j Hj.
      destruct (Z.eq_dec j (off + lo)) as [-> | Hne].
      * rewrite rd_wr_same by (unfold len in *; lia).
        apply Hturn; [lia | lia |].
        split; [exact Hl |]. intros j Hj'. apply Hst. lia.
      * rewrite rd_wr_other by exact Hne. apply Hst. lia.
    + intros i s Hi. apply Hturn. lia.
Qed.

Lemma for_range_agree (off : Z) (f : Z -> list Z -> num) (lo hi : Z) (st : list Z) :
  0 <= off -> 0 <= lo -> off + cpr <= len raw ->
  agree raw (off + Z.min lo cpr) st ->
  (forall i s, lo <= i < hi -> i < cpr -> agree raw (off + i) s ->
               Some (toUint8 (f i s)) = rd raw (off + i)) ->
  agree raw (off + Z.min (Z.max lo hi) cpr)
        (for_range lo hi (fun i px => wr px (off + i) (f i px)) st).
Proof.
  intros Hoff Hlo Hfit Hst Hturn. unfold for_range.
  apply (agree_eq _ (off + Z.min (lo + Z.of_nat (Z.to_nat (hi - lo))) cpr));
    [f_equal; f_equal; lia |].
  apply for_loop_agree; try assumption.
  intros i s Hi. apply Hturn. lia.
Qed.

(** *** One row

    Row [r] of the raw image, filtered with type [t], is handed to the
    inverse filter of type [t] at offset [r * cpr], with a buffer that
    already holds the rows above. *)

Section Row.

Variable r : Z.
Hypothesis Hr : 0 <= r.
Hypothesis Hfit : (r + 1) * cpr <= len raw.
Variable st : list Z.
Hypothesis Hst : agree raw (r * cpr) st.

Lemma row_start : agree raw (r * cpr + Z.min 0 cpr) st.
Proof. apply (agree_eq _ (r * cpr)); [lia | exact Hst]. Qed.

Lemma row_None :
  agree raw ((r + 1) * cpr) (unFilterNone (filterLine 0 r) st bpp (r * cpr) cpr).
Proof.
  unfold unFilterNone.
  apply (agree_eq _ (r * cpr + Z.min (Z.max 0 cpr) cpr)); [lia |].
  apply (for_range_agree (r * cpr) (fun i _ => rd (filterLine 0 r) i));
    [nia | lia | lia | exact row_start |].
  intros i s Hi Hic _.
  destruct (rd_Raw (r * cpr + i) r i) as [-> Hb]; try lia.
  rewrite rd_filterLine by lia.
  apply copy_ok; [exact Hb | reflexivity].
Qed.

Lemma row_Sub :
  agree raw ((r + 1) * cpr) (unFilterSub (filterLine 1 r) st bpp (r * cpr) cpr).
Proof.
  unfold unFilterSub.
  apply (agree_eq _ (r * cpr + Z.min (Z.max (Z.max 0 bpp) cpr) cpr)); [lia |].
  apply (for_range_agree (r * cpr)
           (fun i px => and (add (rd (filterLine 1 r) i) (rd px (r * cpr + i - bpp))) 255));
    [nia | lia | lia | |].
  - apply (for_range_agree (r * cpr) (fun i _ => rd (filterLine 1 r) i));
      [nia | lia | lia | exact row_start |].
    intros i s Hi Hic _.
    destruct (rd_Raw (r * cpr + i) r i) as [-> Hb]; try lia.
    rewrite rd_filterLine by lia.
    apply copy_ok; [exact Hb |].
    apply Raw_left. lia.
  - intros i s Hi Hic Hs.
    destruct (rd_Raw (r * cpr + i) r i) as [-> Hb]; try lia.
    rewrite rd_filterLine by lia.
    apply unfilter_ok; [exact Hb |].
    apply (agree_rd _ _ _ r (i - bpp) Hs); lia.
Qed.

Lemma row_Up :
  agree raw ((r + 1) * cpr) (unFilterUp (filterLine 2 r) st bpp (r * cpr) cpr).
Proof.
  unfold unFilterUp.
  apply (agree_eq _ (r * cpr + Z.min (Z.max 0 cpr) cpr)); [lia |].
  destruct (Z.ltb_spec (r * cpr - cpr) 0) as [Hrow | Hrow].
  - apply (for_range_agree (r * cpr) (fun i _ => rd (filterLine 2 r) i));
      [nia | lia | lia | exact row_start |].
    intros i s Hi Hic _.
    destruct (rd_Raw (r * cpr + i) r i) as [-> Hb]; try lia.
    rewrite rd_filterLine by lia.
    apply copy_ok; [exact Hb |].
    apply Prior_first. nia.
  - apply (for_range_agree (r * cpr)
             (fun i px => and (add (rd (filterLine 2 r) i) (rd px (r * cpr + i - cpr))) 255));
      [nia | lia | lia | exact row_start |].
    intros i s Hi Hic Hs.
    assert (Hr1 : 1 <= r) by nia.
    destruct (rd_Raw (r * cpr + i) r i) as [-> Hb]; try lia.
    rewrite rd_filterLine by lia.
    apply unfilter_ok; [exact Hb |].
    change (PngFilter.predictor bpp cpr raw 2 r i) with (Prior r i).
    rewrite Prior_later by lia.
    apply (agree_rd _ _ _ (r - 1) i Hs); lia.
Qed.

Lemma row_Average :
  agree raw ((r + 1) * cpr) (unFilterAverage (filterLine 3 r) st bpp (r * cpr) cpr).
Proof.
  unfold unFilterAverage.
  apply (agree_eq _ (r * cpr + Z.min (Z.max (Z.max 0 bpp) cpr) cpr)); [lia |].
  destruct (Z.ltb_spec (r * cpr - cpr) 0) as [Hrow | Hrow].
  - apply (for_range_agree (r * cpr)
             (fun i px =>
                and (add (rd (filterLine 3 r) i) (shr (rd px (r * cpr + i - bpp)) 1)) 255));
      [nia | lia | lia | |].
    + apply (for_range_agree (r * cpr) (fun i _ => rd (filterLine 3 r) i));
        [nia | lia | lia | exact row_start |].
      intros i s Hi Hic _.
      destruct (rd_Raw (r * cpr + i) r i) as [-> Hb]; try lia.
      rewrite rd_filterLine by lia.
      apply copy_ok; [exact Hb |].
      change (PngFilter.predictor bpp cpr raw 3 r i)
        with ((Raw r (i - bpp) + Prior r i) / 2).
      rewrite Raw_left, Prior_first by nia. reflexivity.
    + intros i s Hi Hic Hs.
      destruct (rd_Raw (r * cpr + i) r i) as [-> Hb]; try lia.
      destruct (rd_Raw (r * cpr + (i - bpp)) r (i - bpp)) as [_ Hl]; try lia.
      rewrite rd_filterLine by lia.
      apply unfilter_ok; [exact Hb |].
      change (PngFilter.predictor bpp cpr raw 3 r i)
        with ((Raw r (i - bpp) + Prior r i) / 2).
      rewrite (agree_rd _ _ _ r (i - bpp) Hs) by lia.
      rewrite shr_1 by (unfold byte_ok in Hl; lia).
      rewrite Prior_first by nia. now rewrite Z.add_0_r.
  - apply (for_range_agree (r * cpr)
             (fun i px =>
                and (add (rd (filterLine 3 r) i)
                         (shr (add (rd px (r * cpr + i - bpp)) (rd px (r * cpr + i - cpr))) 1))
                    255));
      [nia | lia | lia | |].
    + apply (for_range_agree (r * cpr)
               (fun i px =>
                  and (add (rd (filterLine 3 r) i) (shr (rd px (r * cpr - cpr + i)) 1)) 255));
        [nia | lia | lia | exact row_start |].
      intros i s Hi Hic Hs.
      assert (Hr1 : 1 <= r) by nia.
      destruct (rd_Raw (r * cpr + i) r i) as [-> Hb]; try lia.
      destruct (rd_Raw ((r - 1) * cpr + i) (r - 1) i) as [_ Hu]; try lia.
      rewrite rd_filterLine by lia.
      apply unfilter_ok; [exact Hb |].
      change (PngFilter.predictor bpp cpr raw 3 r i)
        with ((Raw r (i - bpp) + Prior r i) / 2).
      rewrite (agree_rd _ _ _ (r - 1) i Hs) by lia.
      rewrite shr_1 by (unfold byte_ok in Hu; lia).
      rewrite Prior_later by lia.
      rewrite (Raw_left r (i - bpp)) by lia. reflexivity.
    + intros i s Hi Hic Hs.
      assert (Hr1 : 1 <= r) by nia.
      destruct (rd_Raw (r * cpr + i) r i) as [-> Hb]; try lia.
      destruct (rd_Raw (r * cpr + (i - bpp)) r (i - bpp)) as [_ Hl]; try lia.
      destruct (rd_Raw ((r - 1) * cpr + i) (r - 1) i) as [_ Hu]; try lia.
      rewrite rd_filterLine by lia.
      apply unfilter_ok; [exact Hb |].
      change (PngFilter.predictor bpp cpr raw 3 r i)
        with ((Raw r (i - bpp) + Prior r i) / 2).
      rewrite (agree_rd _ _ _ r (i - bpp) Hs) by lia.
      rewrite (agree_rd _ _ _ (r - 1) i Hs) by lia.
      simpl add.
      rewrite shr_1 by (unfold byte_ok in Hl, Hu; lia).
      now rewrite Prior_later by lia.
Qed.

Lemma row_Paeth :
  agree raw ((r + 1) * cpr) (unFilterPaeth (filterLine 4 r) st bpp (r * cpr) cpr).
Proof.
  unfold unFilterPaeth.
  apply (agree_eq _ (r * cpr + Z.min (Z.max (Z.max 0 bpp) cpr) cpr)); [lia |].
  destruct (Z.ltb_spec (r * cpr - cpr) 0) as [Hrow | Hrow].
  - apply (for_range_agree (r * cpr)
             (fun i px => and (add (rd (filterLine 4 r) i) (rd px (r * cpr + i - bpp))) 255));
      [nia | lia | lia | |].
    + apply (for_range_agree (r * cpr) (fun i _ => rd (filterLine 4 r) i));
        [nia | lia | lia | exact row_start |].
      intros i s Hi Hic _.
      destruct (rd_Raw (r * cpr + i) r i) as [-> Hb]; try lia.
      rewrite rd_filterLine by lia.
      apply copy_ok; [exact Hb |].
      change (PngFilter.predictor bpp cpr raw 4 r i)
        with (PngFilter.PaethPredictor (Raw r (i - bpp)) (Prior r i) (Prior r (i - bpp))).
      rewrite Raw_left, !Prior_first by nia. reflexivity.
    + intros i s Hi Hic Hs.
      destruct (rd_Raw (r * cpr + i) r i) as [-> Hb]; try lia.
      rewrite rd_filterLine by lia.
      apply unfilter_ok; [exact Hb |].
      change (PngFilter.predictor bpp cpr raw 4 r i)
        with (PngFilter.PaethPredictor (Raw r (i - bpp)) (Prior r i) (Prior r (i - bpp))).
      rewrite (agree_rd _ _ _ r (i - bpp) Hs) by lia.
      rewrite !Prior_first by nia. now rewrite PaethPredictor_left.
  - apply (for_range_agree (r * cpr)
             (fun i px =>
                and (add (rd (filterLine 4 r) i)
                         (paethPredictor (rd px (r * cpr + i - bpp))
                                         (rd px (r * cpr + i - cpr))
                                         (rd px (r * cpr + i - cpr - bpp)))) 255));
      [nia | lia | lia | |].
    + apply (for_range_agree (r * cpr)
               (fun i px =>
                  and (add (rd (filterLine 4 r) i) (rd px (r * cpr + i - cpr))) 255));
        [nia | lia | lia | exact row_start |].
      intros i s Hi Hic Hs.
      assert (Hr1 : 1 <= r) by nia.
      destruct (rd_Raw (r * cpr + i) r i) as [-> Hb]; try lia.
      destruct (rd_Raw ((r - 1) * cpr + i) (r - 1) i) as [_ Hu]; try lia.
      rewrite rd_filterLine by lia.
      apply unfilter_ok; [exact Hb |].
      change (PngFilter.predictor bpp cpr raw 4 r i)
        with (PngFilter.PaethPredictor (Raw r (i - bpp)) (Prior r i) (Prior r (i - bpp))).
      rewrite (agree_rd _ _ _ (r - 1) i Hs) by lia.
      rewrite !Prior_later by lia.
      rewrite (Raw_left r (i - bpp)), (Raw_left (r - 1) (i - bpp)) by lia.
      rewrite PaethPredictor_up by (unfold byte_ok in Hu; lia). reflexivity.
    + intros i s Hi Hic Hs.
      assert (Hr1 : 1 <= r) by nia.
      destruct (rd_Raw (r * cpr + i) r i) as [-> Hb]; try lia.
      rewrite rd_filterLine by lia.
      apply unfilter_ok; [exact Hb |].
      change (PngFilter.predictor bpp cpr raw 4 r i)
        with (PngFilter.PaethPredictor (Raw r (i - bpp)) (Prior r i) (Prior r (i - bpp))).
      rewrite (agree_rd _ _ _ r (i - bpp) Hs) by lia.
      rewrite (agree_rd _ _ _ (r - 1) i Hs) by lia.
      rewrite (agree_rd _ _ _ (r - 1) (i - bpp) Hs) by lia.
      rewrite paethPredictor_defined. now rewrite !Prior_later by lia.
Qed.

End Row.

(** *** All rows *)

Lemma rd_app_head (pre rest : list Z) (t k : Z) :
  k = len pre -> rd (pre ++ t :: rest) k = Some t.
Proof.
  intros ->. unfold rd, len.
  destruct (Z.ltb_spec (Z.of_nat (length pre)) 0); [lia |].
  apply list_lookup_middle. now rewrite Nat2Z.id.
Qed.

Lemma slice_app_line (pre line rest : list Z) (t k n : Z) :
  k = len pre -> n = len line ->
  slice (pre ++ (t :: line) ++ rest) (k + 1) (k + n + 1) = line.
Proof.
  intros -> ->. unfold slice, len.
  rewrite !length_app. cbn [length].
  destruct (Z.ltb_spec (Z.of_nat (length pre) + 1) 0); [lia |].
  destruct (Z.ltb_spec (Z.of_nat (length pre) + Z.of_nat (length line) + 1) 0); [lia |].
  rewrite !Z.min_l by lia.
  replace (pre ++ (t :: line) ++ rest) with ((pre ++ [t]) ++ line ++ rest)
    by (rewrite <- app_assoc; reflexivity).
  rewrite drop_app_length' by (rewrite length_app; simpl; lia).
  apply take_app_length'. lia.
Qed.

Lemma length_filterRows (r : Z) (ts : list Z) :
  (length ts <= length (filterRows r ts))%nat.
Proof.
  revert r. induction ts as [| t ts IH]; intros r; [reflexivity |].
  cbn [PngFilter.filterRows]. rewrite length_app. cbn [length].
  specialize (IH (r + 1)). lia.
Qed.

(** The row loop of [interlaceNone], started at row [r] of the filtered
    stream with the rows above already in the buffer, ends with the raw
    image in the buffer. *)
Lemma scanlines_filterRows (ts : list Z) :
  forall (r : Z) (pre st : list Z) (fuel : nat),
    Forall (fun t => 0 <= t <= 4) ts ->
    0 <= r -> len pre = r * (cpr + 1) ->
    (r + len ts) * cpr = len raw ->
    agree raw (r * cpr) st ->
    (length ts < fuel)%nat ->
    scanlines fuel bpp cpr (pre ++ filterRows r ts) (r * (cpr + 1)) (r * cpr) st
    = Ok raw.
Proof.
  induction ts as [| t ts IH]; intros r pre st fuel Hts Hr Hpre Htot Hst Hfuel.
  - destruct fuel as [| fuel]; [simpl in Hfuel; lia |].
    cbn [PngFilter.filterRows scanlines]. rewrite app_nil_r.
    destruct (Z.ltb_spec (r * (cpr + 1)) (len pre)); [lia |].
    f_equal. destruct Hst as [Hl Hst].
    apply rd_ext; [exact Hl |].
    intros k Hk. apply Hst. unfold len in *. simpl in Htot. lia.
  - destruct fuel as [| fuel]; [simpl in Hfuel; lia |].
    cbn [PngFilter.filterRows scanlines].
    assert (Hlt : len ts >= 0) by (unfold len; lia).
    assert (Hrows : (r + 1 + len ts) * cpr = len raw).
    { rewrite <- Htot. unfold len. cbn [length]. f_equal. lia. }
    destruct (Z.ltb_spec (r * (cpr + 1)) (len (pre ++ (t :: filterLine t r) ++ filterRows (r + 1) ts)))
      as [_ | Hge].
    2: { unfold len in Hge, Hpre. rewrite length_app in Hge. cbn [app length] in Hge. lia. }
    rewrite (slice_app_line pre (filterLine t r) _ t (r * (cpr + 1)) cpr)
      by (rewrite ?length_filterLine; lia).
    change ((t :: filterLine t r) ++ filterRows (r + 1) ts)
      with (t :: (filterLine t r ++ filterRows (r + 1) ts)).
    rewrite rd_app_head by lia.
    change (t :: (filterLine t r ++ filterRows (r + 1) ts))
      with ((t :: filterLine t r) ++ filterRows (r + 1) ts).
    rewrite app_assoc.
    replace (r * (cpr + 1) + (cpr + 1)) with ((r + 1) * (cpr + 1)) by lia.
    replace (r * cpr + cpr) with ((r + 1) * cpr) by lia.
    assert (Hpre' : len (pre ++ t :: filterLine t r) = (r + 1) * (cpr + 1)).
    { pose proof (length_filterLine t r) as Hline. unfold len in *.
      rewrite length_app. cbn [length]. lia. }
    assert (Hfit : (r + 1) * cpr <= len raw) by nia.
    inversion Hts as [| t' ts' Ht Hts']; subst t' ts'.
    assert (Hcase : t = 0 \/ t = 1 \/ t = 2 \/ t = 3 \/ t = 4) by lia.
    destruct Hcase as [-> | [-> | [-> | [-> | ->]]]];
      (apply IH; [exact Hts' | lia | exact Hpre' | exact Hrows | | simpl in Hfuel; lia]).
    + now apply row_None.
    + now apply row_Sub.
    + now apply row_Up.
    + now apply row_Average.
    + now apply row_Paeth.
Qed.

Lemma agree_alloc : agree raw 0 (alloc (len raw)).
Proof.
  split; [| intros j Hj; lia].
  unfold alloc, len. rewrite repeat_length. lia.
Qed.

End RoundTrip.

(** ** Whole strides

    Where [bpp], [off], [length] and the row counter are whole numbers,
    the filters and the row loop on eighths are those on the whole
    numbers. *)

Section Whole.

Import JS.

Lemma ceil8_whole (k : Z) : ceil8 (8 * k) = k.
Proof. unfold ceil8. Z.to_euclidean_division_equations. lia. Qed.

Lemma rd8_whole (a : list Z) (k8 k : Z) : k8 = 8 * k -> rd8 a k8 = rd a k.
Proof.
  intros ->. unfold rd8. replace (8 * k) with (k * 8) by lia.
  rewrite Z_mod_mult, Z_div_mult by lia. reflexivity.
Qed.

Lemma wr8_whole (a : list Z) (k8 k : Z) (v : num) : k8 = 8 * k -> wr8 a k8 v = wr a k v.
Proof.
  intros ->. unfold wr8. replace (8 * k) with (k * 8) by lia.
  rewrite Z_mod_mult, Z_div_mult by lia. reflexivity.
Qed.

Lemma for_range_same {S : Type} (g g' : Z -> S -> S) (lo hi : Z) (s s' : S) :
  (forall i t, g i t = g' i t) -> s = s' ->
  for_range lo hi g s = for_range lo hi g' s'.
Proof. intros Hg ->. unfold for_range. now apply for_loop_same. Qed.

Variables (scanline pixels : list Z) (bpp off length : Z).

Lemma unFilterNone_whole :
  Eighths.unFilterNone scanline pixels (8 * bpp) (8 * off) (8 * length)
  = unFilterNone scanline pixels bpp off length.
Proof.
  unfold Eighths.unFilterNone, unFilterNone. rewrite ceil8_whole.
  apply for_range_same; [| reflexivity].
  intros i t. apply wr8_whole. lia.
Qed.

Lemma copy_whole (hi : Z) :
  for_range 0 hi (fun i px => wr8 px (8 * off + 8 * i) (rd scanline i)) pixels
  = for_range 0 hi (fun i px => wr px (off + i) (rd scanline i)) pixels.
Proof.
  apply for_range_same; [| reflexivity].
  intros i t. apply wr8_whole. lia.
Qed.

Lemma unFilterSub_whole :
  Eighths.unFilterSub scanline pixels (8 * bpp) (8 * off) (8 * length)
  = unFilterSub scanline pixels bpp off length.
Proof.
  unfold Eighths.unFilterSub, unFilterSub. rewrite !ceil8_whole.
  apply for_range_same; [| apply copy_whole].
  intros i t. rewrite (rd8_whole t _ (off + i - bpp)) by lia.
  apply wr8_whole. lia.
Qed.

Lemma unFilterUp_whole :
  Eighths.unFilterUp scanline pixels (8 * bpp) (8 * off) (8 * length)
  = unFilterUp scanline pixels bpp off length.
Proof.
  unfold Eighths.unFilterUp, unFilterUp. rewrite !ceil8_whole.
  destruct (Z.ltb_spec (8 * off - 8 * length) 0);
    destruct (Z.ltb_spec (off - length) 0); try lia.
  - apply copy_whole.
  - apply for_range_same; [| reflexivity].
    intros i t. cbv zeta. rewrite (rd8_whole t _ (off + i - length)) by lia.
    apply wr8_whole. lia.
Qed.

Lemma unFilterAverage_whole :
  Eighths.unFilterAverage scanline pixels (8 * bpp) (8 * off) (8 * length)
  = unFilterAverage scanline pixels bpp off length.
Proof.
  unfold Eighths.unFilterAverage, unFilterAverage. rewrite !ceil8_whole.
  destruct (Z.ltb_spec (8 * off - 8 * length) 0);
    destruct (Z.ltb_spec (off - length) 0); try lia.
  - apply for_range_same; [| apply copy_whole].
    intros i t. rewrite (rd8_whole t _ (off + i - bpp)) by lia.
    apply wr8_whole. lia.
  - apply for_range_same.
    + intros i t. cbv zeta.
      rewrite (rd8_whole t _ (off + i - bpp)) by lia.
      rewrite (rd8_whole t _ (off + i - length)) by lia.
      apply wr8_whole. lia.
    + apply for_range_same; [| reflexivity].
      intros i t. rewrite (rd8_whole t _ (off - length + i)) by lia.
      apply wr8_whole. lia.
Qed.

Lemma unFilterPaeth_whole :
  Eighths.unFilterPaeth scanline pixels (8 * bpp) (8 * off) (8 * length)
  = unFilterPaeth scanline pixels bpp off length.
Proof.
  unfold Eighths.unFilterPaeth, unFilterPaeth. rewrite !ceil8_whole.
  destruct (Z.ltb_spec (8 * off - 8 * length) 0);
    destruct (Z.ltb_spec (off - length) 0); try lia.
  - apply for_range_same; [| apply copy_whole].
    intros i t. rewrite (rd8_whole t _ (off + i - bpp)) by lia.
    apply wr8_whole. lia.
  - apply for_range_same.
    + intros i t. cbv zeta.
      rewrite (rd8_whole t _ (off + i - bpp)) by lia.
      rewrite (rd8_whole t _ (off + i - length)) by lia.
      rewrite (rd8_whole t _ (off + i - length - bpp)) by lia.
      apply wr8_whole. lia.
    + apply for_range_same; [| reflexivity].
      intros i t. rewrite (rd8_whole t _ (off + i - length)) by lia.
      apply wr8_whole. lia.
Qed.

End Whole.

Lemma scanlines_whole (bpp cpr : Z) (data : list Z) (fuel : nat) :
  forall (i off : Z) (px : list Z),
    Eighths.scanlines fuel (8 * bpp) (8 * cpr) data (8 * i) (8 * off) px
    = scanlines fuel bpp cpr data i off px.
Proof.
  induction fuel as [| fuel IH]; intros i off px; [reflexivity |].
  cbn [Eighths.scanlines scanlines].
  destruct (Z.ltb_spec (8 * i) (8 * JS.len data));
    destruct (Z.ltb_spec i (JS.len data)); try lia; [| reflexivity].
  replace (Z.quot (8 * i + 8) 8) with (i + 1)
    by (Z.to_euclidean_division_equations; lia).
  replace (Z.quot (8 * i + 8 * cpr + 8) 8) with (i + cpr + 1)
    by (Z.to_euclidean_division_equations; lia).
  rewrite (rd8_whole data _ i) by reflexivity.
  replace (8 * i + (8 * cpr + 8)) with (8 * (i + (cpr + 1))) by lia.
  replace (8 * off + 8 * cpr) with (8 * (off + cpr)) by lia.
  rewrite unFilterNone_whole, unFilterSub_whole, unFilterUp_whole,
    unFilterAverage_whole, unFilterPaeth_whole.
  rewrite !IH. reflexivity.
Qed.

(** Eight times a whole number of bytes per pixel. *)
Lemma bytesPerPixel_eighths (p : PNG) (bpp : Z) :
  bytesPerPixel p = Some bpp ->
  exists bd, bitDepth p = Some bd /\ Z.max 8 (colors p * bd) = 8 * bpp.
Proof.
  unfold bytesPerPixel. destruct (bitDepth p) as [bd |]; [| discriminate].
  cbv zeta. intros H. exists bd. split; [reflexivity |].
  destruct (Z.leb_spec (colors p * bd) 8); [injection H as <-; lia |].
  destruct (Z.eqb_spec ((colors p * bd) mod 8) 0); [| discriminate].
  injection H as <-.
  pose proof (Z.div_mod (colors p * bd) 8 ltac:(lia)). lia.
Qed.

(** [interlaceNone] for a header of whole bytes per pixel. *)
Lemma interlaceNone_whole (data : list Z) (r : Reader) (bpp : Z) :
  bytesPerPixel (png r) = Some bpp ->
  0 <= bpp * width (png r) * height (png r) ->
  interlaceNone data r
  = match scanlines (S (length data)) bpp (bpp * width (png r)) data 0 0
                    (JS.alloc (bpp * width (png r) * height (png r))) with
    | Ok px => onPng (setPixels px) r
    | Throw e => (Throw e, r)
    | Beyond b => (Beyond b, r)
    end.
Proof.
  intros Hb Hsize.
  destruct (bytesPerPixel_eighths _ _ Hb) as (bd & Hbd & Hmax).
  unfold interlaceNone. rewrite Hbd. cbv zeta. rewrite Hmax.
  destruct (Z.ltb_spec (8 * bpp * width (png r) * height (png r)) 0); [lia |].
  replace (8 * bpp * width (png r) * height (png r) / 8)
    with (bpp * width (png r) * height (png r))
    by (Z.to_euclidean_division_equations; lia).
  replace (8 * bpp * width (png r)) with (8 * (bpp * width (png r))) by lia.
  rewrite <- (scanlines_whole bpp (bpp * width (png r)) data (S (length data)) 0 0).
  reflexivity.
Qed.

(** A positive whole number of bytes per pixel. *)
Lemma bytesPerPixel_pos (p : PNG) (bpp : Z) : bytesPerPixel p = Some bpp -> 1 <= bpp.
Proof.
  unfold bytesPerPixel. destruct (bitDepth p) as [bd |]; [| discriminate].
  cbv zeta.
  destruct (Z.leb_spec (colors p * bd) 8); [intros [= <-]; lia |].
  destruct (Z.eqb_spec ((colors p * bd) mod 8) 0); [| discriminate].
  intros [= <-].
  pose proof (Z.div_mod (colors p * bd) 8 ltac:(lia)). lia.
Qed.

(** C1.  Take a raw image of [length types] rows of [cpr] bytes, filter
    row [r] with the filter of the PNG standard of type [types[r]], any
    of 0 to 4, put the type byte before each filtered row, and run the
    row loop of [interlaceNone] on that stream with the same [bpp]: the
    loop calls unFilterNone, unFilterSub, unFilterUp, unFilterAverage or
    unFilterPaeth on row [r] at offset [r * cpr] and ends with the raw
    image in the buffer.  [interlaceNone] itself, for a header with that
    [bpp], width and height, stores the raw image as the pixels. *)
Theorem defilter_inverts_filter (bpp cpr : Z) (raw types : list Z) :
  1 <= bpp -> 0 <= cpr -> JS.bytes_ok raw ->
  Forall (fun t => 0 <= t <= 4) types ->
  JS.len raw = JS.len types * cpr ->
  let data := PngFilter.filterRows bpp cpr raw 0 types in
  scanlines (S (length data)) bpp cpr data 0 0 (JS.alloc (cpr * JS.len types))
  = Ok raw /\
  (forall rd : Reader,
     bytesPerPixel (png rd) = Some bpp ->
     cpr = bpp * width (png rd) ->
     height (png rd) = JS.len types ->
     interlaceNone data rd = (Ok tt, with_png (with_pixels (Some raw) (png rd)) rd)).
Proof.
  intros Hbpp Hcpr Hraw Hts Hlen data.
  assert (Hloop : scanlines (S (length data)) bpp cpr data 0 0
                            (JS.alloc (cpr * JS.len types)) = Ok raw).
  { replace (cpr * JS.len types) with (JS.len raw) by lia.
    apply (scanlines_filterRows bpp cpr raw Hbpp Hcpr Hraw types 0 [] _ _ Hts);
      [lia | reflexivity | lia | apply agree_alloc |].
    pose proof (length_filterRows bpp cpr raw 0 types). unfold data. lia. }
  split; [exact Hloop |].
  intros rd Hb Hw Hh.
  assert (Hty : 0 <= JS.len types) by (unfold JS.len; lia).
  rewrite (interlaceNone_whole data rd bpp Hb) by (rewrite <- Hw, Hh; lia).
  rewrite <- Hw.
  replace (cpr * height (png rd)) with (cpr * JS.len types) by (rewrite Hh; reflexivity).
  now rewrite Hloop.
Qed.

Lemma defilter_inverts_filter_witness :
  let raw := [10; 200; 30; 40; 250; 60; 70; 80; 90; 1; 2; 255; 0; 128; 7] in
  scanlines 21 1 3 (PngFilter.filterRows 1 3 raw 0 [0; 1; 2; 3; 4]) 0 0 (JS.alloc 15)
  = Ok raw.
Proof.
  intros raw.
  apply (defilter_inverts_filter 1 3 raw [0; 1; 2; 3; 4]);
    [lia | lia | bytes_ok_tac | repeat (constructor; [lia |]); constructor | reflexivity].
Defined.

(** ** The two fuelled loops never run out of fuel *)

Lemma scanlines_fuel (bpp cpr : Z) (data : list Z) (fuel : nat) :
  forall (k off : Z) (px : list Z),
    0 <= cpr -> 0 <= k ->
    (Z.to_nat (JS.len data - k) < fuel)%nat ->
    (exists px', scanlines fuel bpp cpr data k off px = Ok px') \/
    scanlines fuel bpp cpr data k off px = Throw UnknownFilter.
Proof.
  induction fuel as [| fuel IH]; intros k off px Hcpr Hk Hfuel; [lia |].
  cbn [scanlines].
  destruct (Z.ltb_spec k (JS.len data)) as [Hlt | Hge]; [| left; eauto].
  assert (Hnext : forall px1,
             (exists px', scanlines fuel bpp cpr data (k + (cpr + 1)) (off + cpr) px1 = Ok px') \/
             scanlines fuel bpp cpr data (k + (cpr + 1)) (off + cpr) px1 = Throw UnknownFilter).
  { intros px1. apply IH; lia. }
  destruct (JS.rd data k) as [[| q | q] |]; try (right; reflexivity);
    [apply Hnext |].
  do 3 (try destruct q as [q | q |]); try (right; reflexivity); apply Hnext.
Qed.

Lemma readBytes_spec (n : Z) (r : Reader) :
  readBytes n r = (Throw UnexpectedEOF, r) \/
  (exists b, readBytes n r = (Ok b, with_i (i r + n) r)).
Proof.
  unfold readBytes. destruct (_ >? _); [left | right; eexists]; reflexivity.
Qed.

Section KeepsCursor.

Lemma kc_ret {A} (a : A) : keeps_cursor (ret a).
Proof. intros r. repeat split. discriminate. Qed.

Lemma kc_throw {A} (e : error) : keeps_cursor (A := A) (throw e).
Proof. intros r. repeat split. discriminate. Qed.

Lemma kc_lift {A} (o : outcome A) :
  (forall b, o <> Beyond b) -> keeps_cursor (lift o).
Proof. intros Ho r. repeat split. exact Ho. Qed.

Lemma kc_onPng {A} (c : M PNG A) :
  (forall p b, fst (c p) <> Beyond b) -> keeps_cursor (onPng c).
Proof.
  intros Hc r. unfold onPng. specialize (Hc (png r)).
  destruct (c (png r)) as [o p]. repeat split. exact Hc.
Qed.

Lemma kc_bind {A B} (c : M Reader A) (k : A -> M Reader B) :
  keeps_cursor c -> (forall a, keeps_cursor (k a)) -> keeps_cursor (bind c k).
Proof.
  intros Hc Hk r. unfold bind.
  destruct (Hc r) as (Hi & Hb & Hn).
  destruct (c r) as [[a | e | b] r']; simpl in *.
  - destruct (Hk a r') as (Hi' & Hb' & Hn'). repeat split; congruence.
  - repeat split; try assumption. discriminate.
  - exfalso. now apply (Hn b).
Qed.

End KeepsCursor.

Lemma readUInt32_not_beyond (b : JS.u8) (k : Z) (x : beyond) :
  readUInt32 b k <> Beyond x.
Proof. unfold readUInt32, getUint32. repeat destruct (JS.rd _ _); discriminate. Qed.

Lemma setPalette_not_beyond (c : list Z) (p : PNG) (b : beyond) :
  fst (setPalette c p) <> Beyond b.
Proof.
  unfold setPalette, throw, modify.
  destruct (negb _); [discriminate |]. destruct (exceeds _ _); discriminate.
Qed.

Ltac kc_step :=
  first
    [ apply kc_bind; [| intros ?]
    | apply kc_ret
    | apply kc_throw
    | apply kc_lift; intros ?; apply readUInt32_not_beyond
    | apply kc_onPng; intros ? ?;
      unfold setWidth, setHeight, setBitDepth, setColorType, setCompressionMethod,
        setFilterMethod, setInterlaceMethod, setTRNS, modify, throw;
      repeat match goal with
             | |- context [match ?x with _ => _ end] => destruct x
             end; discriminate
    | match goal with
      | |- keeps_cursor (match ?x with _ => _ end) => destruct x
      end ].

Lemma kc_decodeIHDR (chunk : JS.u8) : keeps_cursor (decodeIHDR chunk).
Proof. unfold decodeIHDR. repeat kc_step. Qed.

Lemma kc_handlers (type : string) (chunk : JS.u8) :
  keeps_cursor
    (if String.eqb type "IHDR" then decodeIHDR chunk
     else if String.eqb type "PLTE" then decodePLTE chunk
     else if String.eqb type "IDAT" then decodeIDAT chunk
     else if String.eqb type "tRNS" then decodeTRNS chunk
     else if String.eqb type "IEND" then decodeIEND chunk
     else ret tt).
Proof.
  repeat match goal with
         | |- keeps_cursor (if ?b then _ else _) => destruct b
         end.
  - apply kc_decodeIHDR.
  - apply kc_onPng. intros p b. apply setPalette_not_beyond.
  - intros r. repeat split. discriminate.
  - unfold decodeTRNS. kc_step.
  - apply kc_ret.
  - apply kc_ret.
Qed.

(** A chunk that is decoded moves the cursor forward by at least the 12
    bytes of its length, type and CRC. *)
Lemma decodeChunk_progress (r r' : Reader) (o : outcome string) :
  decodeChunk r = (o, r') ->
  bytes r' = bytes r /\
  (forall b, o <> Beyond b) /\
  (forall t, o = Ok t -> i r + 12 <= i r').
Proof.
  assert (Hthrown : forall e r0, bytes r0 = bytes r ->
            (@Throw string e, r0) = (o, r') ->
            bytes r' = bytes r /\
            (forall b, o <> Beyond b) /\
            (forall t, o = Ok t -> i r + 12 <= i r')).
  { intros e r0 Hb [= <- <-]. repeat split; [exact Hb | discriminate | discriminate]. }
  unfold decodeChunk. unfold bind at 1.
  destruct (readBytes_spec 4 r) as [-> | (b & ->)]; [now apply Hthrown |].
  unfold bind at 1, lift.
  destruct (readUInt32 b 0) as [v | e | x] eqn:Ev;
    [| now apply Hthrown | now apply readUInt32_not_beyond in Ev].
  destruct (Z.ltb_spec v 0) as [Hneg | Hpos]; [now apply Hthrown |].
  set (r1 := with_i (i r + 4) r).
  unfold bind at 1.
  destruct (readBytes_spec 4 r1) as [-> | (t & ->)]; [now apply Hthrown |].
  set (r2 := with_i (i r1 + 4) r1).
  unfold bind at 1.
  destruct (readBytes_spec v r2) as [-> | (chunk & ->)]; [now apply Hthrown |].
  set (r3 := with_i (i r2 + v) r2).
  unfold bind at 1.
  destruct (readBytes_spec 4 r3) as [-> | (crc & ->)]; [now apply Hthrown |].
  set (r4 := with_i (i r3 + 4) r3).
  unfold bind at 1.
  destruct (kc_handlers (bufferToString t) chunk r4) as (Hi & Hb & Hn).
  destruct ((if String.eqb (bufferToString t) "IHDR" then decodeIHDR chunk
             else if String.eqb (bufferToString t) "PLTE" then decodePLTE chunk
             else if String.eqb (bufferToString t) "IDAT" then decodeIDAT chunk
             else if String.eqb (bufferToString t) "tRNS" then decodeTRNS chunk
             else if String.eqb (bufferToString t) "IEND" then decodeIEND chunk
             else ret tt) r4) as [[u | e | x] r5]; simpl in *.
  - intros [= <- <-]. repeat split; [exact Hb | discriminate |]. intros _ _. lia.
  - now apply Hthrown.
  - exfalso. now apply (Hn x).
Qed.

(** The chunk loop of [parse] ends within the fuel it is given. *)
Lemma chunkLoop_fuel (readData : bool) (fuel : nat) :
  forall r : Reader,
    (Z.to_nat (JS.len (bytes r) - i r) < fuel)%nat ->
    forall b, fst (chunkLoop fuel readData r) <> Beyond b.
Proof.
  induction fuel as [| fuel IH]; intros r Hfuel b; [lia |].
  cbn [chunkLoop].
  destruct (Z.ltb_spec (i r) (JS.len (bytes r))) as [Hlt | Hge]; [| discriminate].
  unfold bind.
  destruct (decodeChunk r) as [[t | e | x] r'] eqn:E;
    destruct (decodeChunk_progress _ _ _ E) as (Hb & Hn & Hp).
  - destruct (_ || _); [discriminate |].
    apply IH. specialize (Hp t eq_refl). rewrite Hb. lia.
  - discriminate.
  - exfalso. now apply (Hn x).
Qed.

(** The fuel [parse] gives its chunk loop is enough. *)
Lemma parse_chunkLoop_fuel (readData : bool) (r r' : Reader) :
  decodeHeader r = (Ok tt, r') ->
  forall b, fst (chunkLoop (S (length (bytes r'))) readData r') <> Beyond b.
Proof.
  unfold decodeHeader.
  destruct (Z.eqb_spec (i r) 0) as [Hi | Hi]; cbn [negb]; [| discriminate].
  unfold bind.
  destruct (readBytes_spec 8 r) as [-> | (h & ->)]; [discriminate |].
  destruct (negb (equalBytes h signature)); unfold throw, modify; [discriminate |].
  intros [= <-]. apply chunkLoop_fuel. cbn [bytes i with_header with_i]. unfold JS.len. lia.
Qed.

(** The row loop on eighths moves at least one byte forward per turn
    when [cpr] is not negative, whole or not. *)
Lemma scanlines_eighths_fuel (bpp cpr : Z) (data : list Z) (fuel : nat) :
  forall (k off : Z) (px : list Z),
    0 <= cpr ->
    Z.max 0 (8 * JS.len data - k) + 8 <= 8 * Z.of_nat fuel ->
    (exists px', Eighths.scanlines fuel bpp cpr data k off px = Ok px') \/
    Eighths.scanlines fuel bpp cpr data k off px = Throw UnknownFilter.
Proof.
  induction fuel as [| fuel IH]; intros k off px Hcpr Hfuel; [lia |].
  cbn [Eighths.scanlines].
  destruct (Z.ltb_spec k (8 * JS.len data)) as [Hlt | Hge]; [| left; eauto].
  assert (Hnext : forall px1,
             (exists px', Eighths.scanlines fuel bpp cpr data (k + (cpr + 8)) (off + cpr) px1
                          = Ok px') \/
             Eighths.scanlines fuel bpp cpr data (k + (cpr + 8)) (off + cpr) px1
             = Throw UnknownFilter).
  { intros px1. apply IH; lia. }
  destruct (JS.rd8 data k) as [[| q | q] |]; try (right; reflexivity);
    [apply Hnext |].
  do 3 (try destruct q as [q | q |]); try (right; reflexivity); apply Hnext.
Qed.

(** So is the fuel [interlaceNone] gives its row loop, for a width that
    is not negative. *)
Lemma interlaceNone_fuel (data : list Z) (r : Reader) (b : beyond) :
  0 <= width (png r) ->
  fst (interlaceNone data r) <> Beyond b.
Proof.
  intros Hw. unfold interlaceNone.
  destruct (bitDepth (png r)) as [bd |]; [| discriminate].
  cbv zeta.
  destruct (_ <? 0); [discriminate |].
  destruct (scanlines_eighths_fuel
              (Z.max 8 (colors (png r) * bd))
              (Z.max 8 (colors (png r) * bd) * width (png r)) data (S (length data))
              0 0 (JS.alloc (Z.max 8 (colors (png r) * bd) * width (png r)
                             * height (png r) / 8)))
    as [(px & ->) | ->]; try nia; [unfold JS.len; lia | |]; discriminate.
Qed.

(** * Further properties of the reader *)

(** ** The byte cursor *)

Lemma slice_inside (a : list Z) (s e : Z) :
  0 <= s <= e -> e <= JS.len a ->
  JS.len (JS.slice a s e) = e - s /\
  forall k, 0 <= k < e - s -> JS.rd (JS.slice a s e) k = JS.rd a (s + k).
Proof.
  intros Hs He. unfold JS.slice, JS.len in *.
  destruct (Z.ltb_spec s 0); [lia |]. destruct (Z.ltb_spec e 0); [lia |].
  rewrite !Z.min_l by lia. split.
  - rewrite length_take, length_drop. lia.
  - intros k Hk. unfold JS.rd.
    destruct (Z.ltb_spec k 0); [lia |]. destruct (Z.ltb_spec (s + k) 0); [lia |].
    rewrite lookup_take_lt by lia. rewrite lookup_drop. f_equal. lia.
Qed.

(** X1.  [readBytes(n)] with the cursor inside the file: when fewer
    than [n] bytes remain it throws 'Unexpectedly reached end of file'
    and the reader is unchanged; otherwise it returns exactly the [n]
    bytes at the cursor and moves the cursor [n] bytes on, still inside
    the file. *)
Theorem readBytes_bounds (n : Z) (r : Reader) :
  cursor_ok r -> 0 <= n ->
  (i r + n > JS.len (bytes r) -> readBytes n r = (Throw UnexpectedEOF, r)) /\
  (i r + n <= JS.len (bytes r) ->
     exists b, readBytes n r = (Ok b, with_i (i r + n) r) /\
               JS.len b = n /\
               (forall k, 0 <= k < n -> JS.rd b k = JS.rd (bytes r) (i r + k)) /\
               cursor_ok (with_i (i r + n) r)).
Proof.
  intros Hc Hn. unfold cursor_ok in *. unfold readBytes. split; intros H.
  - destruct (Z.gtb_spec (i r + n) (JS.len (bytes r))); [reflexivity | lia].
  - destruct (Z.gtb_spec (i r + n) (JS.len (bytes r))); [lia |].
    eexists. split; [reflexivity |]. rewrite elems_sliceOf.
    destruct (slice_inside (bytes r) (i r) (i r + n)) as [Hl Hrd]; try lia.
    split; [lia |]. split; [| simpl; lia].
    intros k Hk. apply Hrd. lia.
Qed.

Ltac len_tac :=
  unfold cursor_ok, JS.len;
  cbn [i bytes PNGReader PNGReaderOn JS.newUint8Array JS.elems
       with_i with_header length app signature];
  lia.

Lemma readBytes_bounds_witness :
  readBytes 4 (PNGReader [1; 2; 3]) = (Throw UnexpectedEOF, PNGReader [1; 2; 3]) /\
  exists b, readBytes 2 (PNGReader [1; 2; 3]) = (Ok b, with_i 2 (PNGReader [1; 2; 3])) /\
            JS.len b = 2.
Proof.
  destruct (readBytes_bounds 4 (PNGReader [1; 2; 3])) as [H _];
    [len_tac | lia |].
  destruct (readBytes_bounds 2 (PNGReader [1; 2; 3])) as [_ H'];
    [len_tac | lia |].
  split; [apply H; len_tac |].
  destruct H' as (b & Hb & Hl & _); [len_tac |].
  exists b. split; [exact Hb | exact Hl].
Defined.

(** ** The signature *)

Lemma forallb_combine_eq (a b : list Z) :
  length a = length b ->
  forallb (fun xy => fst xy =? snd xy) (combine a b) = true -> a = b.
Proof.
  revert b. induction a as [| x a IH]; intros [| y b] Hl H; try discriminate;
    [reflexivity |].
  simpl in H. apply andb_prop in H as [Hxy Hrest].
  apply Z.eqb_eq in Hxy. f_equal; [exact Hxy |].
  apply IH; [simpl in Hl; lia | exact Hrest].
Qed.

Lemma forallb_combine_refl (a : list Z) :
  forallb (fun xy => fst xy =? snd xy) (combine a a) = true.
Proof.
  induction a as [| x a IH]; [reflexivity |].
  simpl. now rewrite Z.eqb_refl.
Qed.

Lemma equalBytes_iff (a b : list Z) : equalBytes a b = true <-> a = b.
Proof.
  unfold equalBytes, JS.len. split.
  - destruct (Z.eqb_spec (Z.of_nat (length a)) (Z.of_nat (length b))) as [E | E];
      simpl; [| discriminate].
    apply forallb_combine_eq. lia.
  - intros ->. rewrite Z.eqb_refl. simpl. apply forallb_combine_refl.
Qed.

(** X2.  [equalBytes] decides the equality of two byte arrays. *)
Theorem equalBytes_eq (a b : list Z) : equalBytes a b = true <-> a = b.
Proof. exact (equalBytes_iff a b). Qed.

Lemma slice_prefix (a rest : list Z) (n : Z) :
  n = JS.len a -> JS.slice (a ++ rest) 0 n = a.
Proof.
  intros ->. unfold JS.slice, JS.len. rewrite length_app. simpl.
  destruct (Z.ltb_spec (Z.of_nat (length a)) 0); [lia |].
  rewrite Z.min_l, Z.min_l by lia. simpl. rewrite Z.sub_0_r, Nat2Z.id.
  apply take_app_length.
Qed.

(** X3.  [decodeHeader]: with the cursor elsewhere than 0 it throws and
    reads nothing; with fewer than 8 bytes it throws the end-of-file
    error; with 8 bytes that are not the PNG signature it throws 'bad
    signature', the cursor already behind them; with the signature it
    stores it as [header] and leaves the cursor at 8.  Nothing else of
    the reader changes. *)
Theorem decodeHeader_cases (r : Reader) :
  (i r <> 0 -> decodeHeader r = (Throw PointerNotAtStart, r)) /\
  (i r = 0 -> JS.len (bytes r) < 8 -> decodeHeader r = (Throw UnexpectedEOF, r)) /\
  (i r = 0 -> 8 <= JS.len (bytes r) -> JS.slice (bytes r) 0 8 <> signature ->
     decodeHeader r = (Throw BadSignature, with_i 8 r)) /\
  (i r = 0 -> forall rest, JS.elems (bytes r) = signature ++ rest ->
     decodeHeader r = (Ok tt, with_header signature (with_i 8 r))).
Proof.
  unfold decodeHeader, bind, readBytes.
  split; [| split; [| split]].
  - intros H. destruct (Z.eqb_spec (i r) 0); [contradiction | reflexivity].
  - intros Hi Hl. rewrite Hi. change (0 + 8) with 8. cbn [Z.eqb negb].
    destruct (Z.gtb_spec 8 (JS.len (bytes r))); [reflexivity | lia].
  - intros Hi Hl Hne. rewrite Hi. change (0 + 8) with 8. cbn [Z.eqb negb].
    destruct (Z.gtb_spec 8 (JS.len (bytes r))); [lia |].
    rewrite elems_sliceOf.
    destruct (equalBytes (JS.slice (bytes r) 0 8) signature) eqn:E; [| reflexivity].
    apply equalBytes_iff in E. contradiction.
  - intros Hi rest Hb. rewrite Hi. change (0 + 8) with 8. cbn [Z.eqb negb].
    destruct (Z.gtb_spec 8 (JS.len (bytes r))) as [Hgt | _].
    { rewrite Hb in Hgt. unfold JS.len in Hgt. rewrite length_app in Hgt.
      simpl in Hgt. lia. }
    rewrite !elems_sliceOf, Hb.
    rewrite (slice_prefix signature rest 8) by reflexivity.
    assert (E : equalBytes signature signature = true) by now apply equalBytes_iff.
    rewrite E. reflexivity.
Qed.

Lemma decodeHeader_cases_witness :
  decodeHeader (PNGReader [1; 2; 3]) = (Throw UnexpectedEOF, PNGReader [1; 2; 3]) /\
  decodeHeader (PNGReader (signature ++ [7]))
  = (Ok tt, with_header signature (with_i 8 (PNGReader (signature ++ [7])))) /\
  decodeHeader (PNGReader [0; 80; 78; 71; 13; 10; 26; 10; 9])
  = (Throw BadSignature, with_i 8 (PNGReader [0; 80; 78; 71; 13; 10; 26; 10; 9])).
Proof.
  split; [| split].
  - apply (decodeHeader_cases (PNGReader [1; 2; 3])); [reflexivity | len_tac].
  - apply (decodeHeader_cases (PNGReader (signature ++ [7]))) with (rest := [7]);
      reflexivity.
  - apply (decodeHeader_cases (PNGReader [0; 80; 78; 71; 13; 10; 26; 10; 9]));
      [reflexivity | vm_compute; congruence | vm_compute; congruence].
Defined.

(** ** Chunk types *)

Lemma ascii_of_byte_inj (x y : Z) :
  JS.byte_ok x -> JS.byte_ok y ->
  ascii_of_N (Z.to_N x) = ascii_of_N (Z.to_N y) -> x = y.
Proof.
  unfold JS.byte_ok. intros Hx Hy H.
  apply (f_equal N_of_ascii) in H.
  rewrite !N_ascii_embedding in H by lia. lia.
Qed.

(** X4.  [bufferToString] loses nothing on byte arrays: two byte arrays
    with the same string are equal.  So the comparison of the chunk type
    with 'IHDR' in [decodeChunk] holds exactly for the type bytes
    73 72 68 82, and likewise for the other four names. *)
Theorem bufferToString_inj (a b : list Z) :
  JS.bytes_ok a -> JS.bytes_ok b ->
  (bufferToString a = bufferToString b -> a = b) /\
  (String.eqb (bufferToString a) "IHDR" = true <-> a = [73; 72; 68; 82]) /\
  (String.eqb (bufferToString a) "PLTE" = true <-> a = [80; 76; 84; 69]) /\
  (String.eqb (bufferToString a) "IDAT" = true <-> a = [73; 68; 65; 84]) /\
  (String.eqb (bufferToString a) "tRNS" = true <-> a = [116; 82; 78; 83]) /\
  (String.eqb (bufferToString a) "IEND" = true <-> a = [73; 69; 78; 68]).
Proof.
  intros Ha Hb.
  assert (Hinj : forall a b, JS.bytes_ok a -> JS.bytes_ok b ->
                             bufferToString a = bufferToString b -> a = b).
  { clear. intros a. induction a as [| x a IH]; intros [| y b] Ha Hb H;
      try discriminate; [reflexivity |].
    simpl in H. injection H as Hxy Hrest.
    inversion Ha; inversion Hb; subst.
    f_equal; [now apply ascii_of_byte_inj | now apply IH]. }
  split; [apply Hinj; assumption |].
  assert (Hname : forall (t : list Z), JS.bytes_ok t ->
            String.eqb (bufferToString a) (bufferToString t) = true <-> a = t).
  { intros t Ht. rewrite String.eqb_eq. split; [now apply Hinj | now intros ->]. }
  repeat split;
    first [ apply (Hname [73; 72; 68; 82]) | apply (Hname [80; 76; 84; 69])
          | apply (Hname [73; 68; 65; 84]) | apply (Hname [116; 82; 78; 83])
          | apply (Hname [73; 69; 78; 68]) ];
    first [ assumption | bytes_ok_tac ].
Qed.

Lemma bufferToString_inj_witness :
  String.eqb (bufferToString [73; 68; 65; 84]) "IDAT" = true.
Proof.
  apply (bufferToString_inj [73; 68; 65; 84] []);
    [bytes_ok_tac | bytes_ok_tac | reflexivity].
Defined.

(** ** One chunk at the cursor *)

Lemma slice_app_mid (pre mid rest : list Z) (s e : Z) :
  s = JS.len pre -> e = JS.len pre + JS.len mid ->
  JS.slice (pre ++ mid ++ rest) s e = mid.
Proof.
  intros -> ->. unfold JS.slice, JS.len. rewrite !length_app.
  destruct (Z.ltb_spec (Z.of_nat (length pre)) 0); [lia |].
  destruct (Z.ltb_spec (Z.of_nat (length pre) + Z.of_nat (length mid)) 0); [lia |].
  rewrite !Z.min_l by lia.
  rewrite drop_app_length' by lia.
  apply take_app_length'. lia.
Qed.

Lemma readBytes_app (r : Reader) (pre mid rest : list Z) (n : Z) :
  JS.elems (bytes r) = pre ++ mid ++ rest -> i r = JS.len pre -> n = JS.len mid ->
  readBytes n r = (Ok (JS.sliceOf (bytes r) (i r) (i r + n)), with_i (i r + n) r) /\
  JS.elems (JS.sliceOf (bytes r) (i r) (i r + n)) = mid.
Proof.
  intros Hb Hi ->. unfold readBytes. split.
  - destruct (Z.gtb_spec (i r + JS.len mid) (JS.len (bytes r))) as [Hgt | _];
      [| reflexivity].
    rewrite Hb, Hi in Hgt. unfold JS.len in Hgt. rewrite !length_app in Hgt. lia.
  - rewrite elems_sliceOf, Hb, Hi. now apply slice_app_mid.
Qed.

Lemma decodeChunk_layout (r : Reader) (pre L T payload C rest : list Z) :
  JS.elems (bytes r) = pre ++ L ++ T ++ payload ++ C ++ rest ->
  i r = JS.len pre ->
  length L = 4%nat -> length T = 4%nat -> length C = 4%nat ->
  getUint32 L 0 = Ok (JS.len payload) ->
  let chunk := JS.sliceOf (bytes r) (i r + 8) (i r + 8 + JS.len payload) in
  JS.elems chunk = payload /\
  decodeChunk r
  = (chunkHandler (bufferToString T) chunk ;;; ret (bufferToString T))
      (with_i (i r + 12 + JS.len payload) r).
Proof.
  intros Hb Hi HL HT HC Hlen chunk.
  assert (Hp : 0 <= JS.len payload) by (unfold JS.len; lia).
  set (r1 := with_i (i r + 4) r).
  set (r2 := with_i (i r1 + 4) r1).
  set (r3 := with_i (i r2 + JS.len payload) r2).
  destruct (readBytes_app r pre L (T ++ payload ++ C ++ rest) 4 Hb Hi)
    as [E1 EL]; [unfold JS.len; lia |].
  destruct (readBytes_app r1 (pre ++ L) T (payload ++ C ++ rest) 4)
    as [E2 ET];
    [ unfold r1; cbn [bytes i with_i]; rewrite Hb, <- ?app_assoc; reflexivity
    | unfold r1, JS.len; cbn [bytes i with_i]; rewrite ?length_app;
      unfold JS.len in Hi; lia
    | unfold JS.len; lia |].
  destruct (readBytes_app r2 (pre ++ L ++ T) payload (C ++ rest) (JS.len payload))
    as [E3 EP];
    [ unfold r2, r1; cbn [bytes i with_i]; rewrite Hb, <- ?app_assoc; reflexivity
    | unfold r2, r1, JS.len; cbn [bytes i with_i]; rewrite ?length_app;
      unfold JS.len in Hi; lia
    | reflexivity |].
  destruct (readBytes_app r3 (pre ++ L ++ T ++ payload) C rest 4)
    as [E4 _];
    [ unfold r3, r2, r1; cbn [bytes i with_i]; rewrite Hb, <- ?app_assoc; reflexivity
    | unfold r3, r2, r1, JS.len; cbn [bytes i with_i]; rewrite ?length_app;
      unfold JS.len in Hi |- *; lia
    | unfold JS.len; lia |].
  assert (Echunk : JS.sliceOf (bytes r2) (i r2) (i r2 + JS.len payload) = chunk).
  { unfold chunk, r2, r1. cbn [bytes i with_i]. f_equal; lia. }
  rewrite Echunk in E3, EP.
  split; [exact EP |].
  unfold decodeChunk. unfold bind at 1. rewrite E1.
  unfold bind at 1, lift.
  rewrite readUInt32_inside by (rewrite ?EL; unfold JS.len; lia).
  rewrite EL, Hlen.
  destruct (Z.ltb_spec (JS.len payload) 0); [lia |].
  fold r1. unfold bind at 1. rewrite E2. fold r2.
  unfold bind at 1. rewrite E3. fold r3.
  unfold bind at 1. rewrite E4.
  replace (with_i (i r3 + 4) r3) with (with_i (i r + 12 + JS.len payload) r).
  2: { unfold r3, r2, r1, with_i. cbn [bytes i png dataChunks header]. f_equal. lia. }
  rewrite ET. reflexivity.
Qed.

(** X5.  A chunk laid out at the cursor: four length bytes [L] whose
    big-endian value is the length of the payload, four type bytes [T],
    the payload and four more bytes [C].  [decodeChunk] hands exactly the
    payload to the handler of the type (the slice of the file that holds
    it: for a [Buffer] a view of the file, otherwise a copy), with the
    cursor behind [C], and returns the type; the bytes [C], the CRC, are
    read and never looked at. *)
Theorem decodeChunk_at (r : Reader) (pre L T payload C rest : list Z) :
  JS.elems (bytes r) = pre ++ L ++ T ++ payload ++ C ++ rest ->
  i r = JS.len pre ->
  length L = 4%nat -> length T = 4%nat -> length C = 4%nat ->
  getUint32 L 0 = Ok (JS.len payload) ->
  let chunk := JS.sliceOf (bytes r) (i r + 8) (i r + 8 + JS.len payload) in
  JS.elems chunk = payload /\
  decodeChunk r
  = (chunkHandler (bufferToString T) chunk ;;; ret (bufferToString T))
      (with_i (i r + 12 + JS.len payload) r).
Proof. exact (decodeChunk_layout r pre L T payload C rest). Qed.

Lemma getUint32_be32 (v : Z) (rest : list Z) :
  0 <= v < 2 ^ 32 -> getUint32 (Layout.be32 v ++ rest) 0 = Ok v.
Proof.
  intros Hv. unfold getUint32, Layout.be32. cbn [app].
  change (JS.rd (?a :: ?b :: ?c :: ?d :: rest) 0) with (Some a).
  change (JS.rd (?a :: ?b :: ?c :: ?d :: rest) (0 + 1)) with (Some b).
  change (JS.rd (?a :: ?b :: ?c :: ?d :: rest) (0 + 2)) with (Some c).
  change (JS.rd (?a :: ?b :: ?c :: ?d :: rest) (0 + 3)) with (Some d).
  f_equal. Z.to_euclidean_division_equations. lia.
Qed.

Lemma decodeChunk_at_witness :
  JS.elems (JS.sliceOf (bytes afterIHDR) (i afterIHDR + 8)
                       (i afterIHDR + 8
                        + JS.len [120; 156; 99; 104; 0; 0; 0; 130; 0; 129]))
  = [120; 156; 99; 104; 0; 0; 0; 130; 0; 129] /\
  decodeChunk afterIHDR
  = (chunkHandler (bufferToString [73; 68; 65; 84])
       (JS.sliceOf (bytes afterIHDR) (i afterIHDR + 8)
                   (i afterIHDR + 8
                    + JS.len [120; 156; 99; 104; 0; 0; 0; 130; 0; 129])) ;;;
     ret (bufferToString [73; 68; 65; 84]))
      (with_i (i afterIHDR + 12 + JS.len [120; 156; 99; 104; 0; 0; 0; 130; 0; 129])
              afterIHDR).
Proof.
  apply (decodeChunk_at afterIHDR
           (signature ++ chunkIHDR 0 [58; 126; 155; 85])
           [0; 0; 0; 10] [73; 68; 65; 84]
           [120; 156; 99; 104; 0; 0; 0; 130; 0; 129]
           [119; 205; 114; 182] chunkIEND); reflexivity.
Defined.

(** ** What every call keeps true *)

Section Hoare.

Context {S : Type}.
Variable I : S -> Prop.

Lemma hoare_ret {A} (a : A) (Q : A -> S -> Prop) :
  (forall s, I s -> Q a s) -> hoare I (ret a) Q I.
Proof. intros H s Hs. simpl. now apply H. Qed.

Lemma hoare_throw {A} (e : error) (Q : A -> S -> Prop) : hoare I (throw e) Q I.
Proof. intros s Hs. exact Hs. Qed.

Lemma hoare_lift {A} (o : outcome A) (Q : A -> S -> Prop) :
  (forall a s, o = Ok a -> I s -> Q a s) -> hoare I (lift o) Q I.
Proof.
  intros H s Hs. unfold lift. destruct o as [a | e | b]; [now apply H | exact Hs | exact Hs].
Qed.

Lemma hoare_bind {A B} (P : S -> Prop) (c : M S A) (k : A -> M S B)
      (Q : A -> S -> Prop) (R : B -> S -> Prop) :
  hoare P c Q I -> (forall a, hoare (Q a) (k a) R I) -> hoare P (bind c k) R I.
Proof.
  intros Hc Hk s Hs. unfold bind. specialize (Hc s Hs).
  destruct (c s) as [[a | e | b] s']; [| exact Hc | exact Hc].
  apply (Hk a s' Hc).
Qed.

Lemma hoare_pure {A} (phi : Prop) (c : M S A) (Q : A -> S -> Prop) :
  (phi -> hoare I c Q I) -> hoare (fun s => I s /\ phi) c Q I.
Proof. intros H s [Hs Hphi]. now apply H. Qed.

Lemma hoare_post {A} (P : S -> Prop) (c : M S A) (Q Q' : A -> S -> Prop) :
  hoare P c Q I -> (forall a s, Q a s -> Q' a s) -> hoare P c Q' I.
Proof.
  intros Hc HQ s Hs. specialize (Hc s Hs).
  destruct (c s) as [[a | e | b] s']; [now apply HQ | exact Hc | exact Hc].
Qed.

End Hoare.

(** *** The setters *)

Lemma pinv_newPNG : pinv newPNG.
Proof.
  unfold pinv, png_ok, dims_ok. simpl. repeat split; try lia; auto.
Qed.

Ltac pinv_tac :=
  intros q [(Hc & Hcm & Hfm & Him & Hpal) (Hd1 & Hd2 & Hd3)];
  unfold pinv, png_ok, dims_ok; cbn; repeat split; auto; try lia.

Lemma pinv_setWidth (w : Z) :
  0 <= w < 2 ^ 32 -> hoare pinv (setWidth w) (fun _ => pinv) pinv.
Proof. intros Hw. pinv_tac. Qed.

Lemma pinv_setHeight (h : Z) :
  0 <= h < 2 ^ 32 -> hoare pinv (setHeight h) (fun _ => pinv) pinv.
Proof. intros Hh. pinv_tac. Qed.

Lemma pinv_setBitDepth (b : JS.num) :
  match b with Some v => 0 <= v < 256 | None => True end ->
  hoare pinv (setBitDepth b) (fun _ => pinv) pinv.
Proof. intros Hb. pinv_tac. Qed.

Lemma pinv_setColorType (c : Z) : hoare pinv (setColorType c) (fun _ => pinv) pinv.
Proof.
  unfold setColorType. destruct (colorTable c) as [[cs al] |] eqn:E.
  - intros q [(Hc & Hcm & Hfm & Him & Hpal) (Hd1 & Hd2 & Hd3)].
    unfold pinv, png_ok, dims_ok; cbn. repeat split; auto; lia.
  - intros q Hq. exact Hq.
Qed.

Lemma pinv_setCompressionMethod (v : Z) :
  hoare pinv (setCompressionMethod v) (fun _ => pinv) pinv.
Proof.
  unfold setCompressionMethod. destruct (Z.eqb_spec v 0) as [-> | Hv]; cbn [negb].
  - pinv_tac.
  - intros q Hq. exact Hq.
Qed.

Lemma pinv_setFilterMethod (v : Z) :
  hoare pinv (setFilterMethod v) (fun _ => pinv) pinv.
Proof.
  unfold setFilterMethod. destruct (Z.eqb_spec v 0) as [-> | Hv]; cbn [negb].
  - pinv_tac.
  - intros q Hq. exact Hq.
Qed.

Lemma pinv_setInterlaceMethod (v : Z) :
  hoare pinv (setInterlaceMethod v) (fun _ => pinv) pinv.
Proof.
  unfold setInterlaceMethod.
  destruct (Z.eqb_spec v 0) as [-> | H0]; cbn [negb andb]; [pinv_tac |].
  destruct (Z.eqb_spec v 1) as [-> | H1]; cbn [negb andb]; [pinv_tac |].
  intros q Hq. exact Hq.
Qed.

Lemma pinv_setPalette (c : list Z) : hoare pinv (setPalette c) (fun _ => pinv) pinv.
Proof.
  intros q Hq. unfold setPalette.
  destruct (Z.eqb_spec (JS.len c mod 3) 0) as [E | E]; cbn [negb]; [| exact Hq].
  destruct (exceeds _ _); [exact Hq |].
  revert q Hq. pinv_tac.
Qed.

Lemma pinv_setTRNS (t : list Z) : hoare pinv (setTRNS t) (fun _ => pinv) pinv.
Proof. pinv_tac. Qed.

Lemma pinv_setPixels (px : list Z) : hoare pinv (setPixels px) (fun _ => pinv) pinv.
Proof. pinv_tac. Qed.

(** *** The reader *)

Section ReaderInvariant.

Variables (bs : JS.u8) (lo : Z).
Hypothesis Hbs : JS.bytes_ok (JS.buffer bs).

Local Abbreviation R := (reader_ok bs lo).

Lemma R_onPng {A} (c : M PNG A) :
  hoare pinv c (fun _ => pinv) pinv -> hoare R (onPng c) (fun _ => R) R.
Proof.
  intros Hc r (Hb & Hi & Hp & Hd). unfold onPng.
  specialize (Hc (png r) (conj Hp Hd)).
  destruct (c (png r)) as [[a | e | b] q]; destruct Hc as [Hp' Hd'];
    (split; [| split; [| split]]); cbn; auto.
Qed.

Lemma R_readBytes (n : Z) :
  0 <= n -> hoare R (readBytes n) (fun b r => R r /\ JS.bytes_ok (JS.buffer b)) R.
Proof.
  intros Hn r Hr. unfold readBytes.
  destruct (Z.gtb_spec (i r + n) (JS.len (bytes r))) as [Hgt | Hle].
  - exact Hr.
  - destruct Hr as (Hb & Hi & Hp & Hd). rewrite Hb in *.
    split; [| now apply bytes_ok_buffer_sliceOf].
    (split; [| split; [| split]]); cbn; auto. lia.
Qed.

Lemma R_readUInt32 (b : JS.u8) (k : Z) :
  JS.bytes_ok (JS.buffer b) ->
  hoare R (lift (readUInt32 b k)) (fun v r => R r /\ 0 <= v < 2 ^ 32) R.
Proof.
  intros Hb. apply hoare_lift. intros v r Hv Hr. split; [exact Hr |].
  exact (readUInt32_range b k v Hb Hv).
Qed.

Lemma R_decodeIHDR (chunk : JS.u8) :
  JS.bytes_ok (JS.buffer chunk) -> hoare R (decodeIHDR chunk) (fun _ => R) R.
Proof.
  intros Hc. pose proof (bytes_ok_elems _ Hc) as Hce. unfold decodeIHDR.
  eapply hoare_bind; [apply R_readUInt32, Hc | intros w; apply hoare_pure; intros Hw].
  eapply hoare_bind; [apply R_onPng, pinv_setWidth, Hw | intros ?].
  eapply hoare_bind; [apply R_readUInt32, Hc | intros h; apply hoare_pure; intros Hh].
  eapply hoare_bind; [apply R_onPng, pinv_setHeight, Hh | intros ?].
  eapply hoare_bind with (Q := fun _ => R).
  { apply R_onPng, pinv_setBitDepth.
    destruct (readUInt8 chunk 8) as [b |] eqn:E; [| exact I].
    exact (rd_bytes _ _ _ Hce E). }
  intros ?.
  eapply hoare_bind with (Q := fun _ => R).
  { destruct (readUInt8 chunk 9); [apply R_onPng, pinv_setColorType | apply hoare_throw]. }
  intros ?.
  eapply hoare_bind with (Q := fun _ => R).
  { destruct (readUInt8 chunk 10);
      [apply R_onPng, pinv_setCompressionMethod | apply hoare_throw]. }
  intros ?.
  eapply hoare_bind with (Q := fun _ => R).
  { destruct (readUInt8 chunk 11);
      [apply R_onPng, pinv_setFilterMethod | apply hoare_throw]. }
  intros ?.
  destruct (readUInt8 chunk 12);
    [apply R_onPng, pinv_setInterlaceMethod | apply hoare_throw].
Qed.

Lemma R_chunkHandler (type : string) (chunk : JS.u8) :
  JS.bytes_ok (JS.buffer chunk) -> hoare R (chunkHandler type chunk) (fun _ => R) R.
Proof.
  intros Hc. unfold chunkHandler.
  repeat match goal with
         | |- hoare _ (if ?b then _ else _) _ _ => destruct b
         end.
  - now apply R_decodeIHDR.
  - apply R_onPng, pinv_setPalette.
  - intros r Hr. exact Hr.
  - apply R_onPng, pinv_setTRNS.
  - apply hoare_ret. auto.
  - apply hoare_ret. auto.
Qed.

Lemma R_decodeChunk : hoare R decodeChunk (fun _ => R) R.
Proof.
  unfold decodeChunk.
  eapply hoare_bind; [apply R_readBytes; lia | intros b; apply hoare_pure; intros Hb].
  eapply hoare_bind; [apply R_readUInt32, Hb | intros v; apply hoare_pure; intros Hv].
  destruct (Z.ltb_spec v 0); [apply hoare_throw |].
  eapply hoare_bind; [apply R_readBytes; lia | intros t; apply hoare_pure; intros Ht].
  eapply hoare_bind; [apply R_readBytes; lia | intros c; apply hoare_pure; intros Hc].
  eapply hoare_bind; [apply R_readBytes; lia | intros crc; apply hoare_pure; intros _].
  eapply hoare_bind; [apply (R_chunkHandler _ _ Hc) | intros ?].
  apply hoare_ret. auto.
Qed.

Lemma R_chunkLoop (readData : bool) (fuel : nat) :
  hoare R (chunkLoop fuel readData) (fun _ => R) R.
Proof.
  induction fuel as [| fuel IH]; intros r Hr; [exact Hr |].
  cbn [chunkLoop].
  destruct (i r <? JS.len (bytes r)); [| exact Hr].
  revert r Hr.
  change (hoare R (type <- decodeChunk ;;
                   if (String.eqb type "IHDR" && negb readData) || String.eqb type "IEND"
                   then ret tt else chunkLoop fuel readData) (fun _ => R) R).
  eapply hoare_bind; [apply R_decodeChunk | intros t].
  destruct (_ || _); [apply hoare_ret; auto | exact IH].
Qed.

Lemma R_decodeHeader : hoare R decodeHeader (fun _ => R) R.
Proof.
  intros r Hr. unfold decodeHeader.
  destruct (negb (i r =? 0)); [exact Hr |].
  revert r Hr.
  change (hoare R (h <- readBytes 8 ;;
                   if negb (equalBytes h signature) then throw BadSignature
                   else modify (with_header h)) (fun _ => R) R).
  eapply hoare_bind; [apply R_readBytes; lia | intros h; apply hoare_pure; intros _].
  destruct (negb _); [apply hoare_throw |].
  intros r Hr. exact Hr.
Qed.

End ReaderInvariant.

(** ** The inverse filters stay in their row *)

Lemma for_range_outside (off : Z) (f : Z -> list Z -> JS.num) (lo hi : Z)
      (px : list Z) (k : Z) :
  k < off + lo \/ off + Z.max lo hi <= k ->
  JS.rd (JS.for_range lo hi (fun i px => JS.wr px (off + i) (f i px)) px) k = JS.rd px k.
Proof.
  intros Hk. unfold JS.for_range. apply (fill_outside off f). lia.
Qed.

Lemma for_range_keeps {S : Type} (P : S -> Prop) (body : Z -> S -> S) (lo hi : Z) (s : S) :
  (forall i s, P s -> P (body i s)) -> P s -> P (JS.for_range lo hi body s).
Proof.
  intros Hbody. unfold JS.for_range. generalize (Z.to_nat (hi - lo)) as n.
  intros n. revert lo s. induction n as [| n IH]; intros lo s Hs; [exact Hs |].
  cbn [JS.for_loop]. apply IH, Hbody, Hs.
Qed.

Lemma wr_keeps (L : nat) (px : list Z) (k : Z) (v : JS.num) :
  length px = L /\ JS.bytes_ok px ->
  length (JS.wr px k v) = L /\ JS.bytes_ok (JS.wr px k v).
Proof.
  intros [Hl Hb]. split; [now rewrite wr_length | now apply wr_bytes_ok].
Qed.

Lemma unFilter_keeps (scanline pixels : list Z) (bpp off n : Z) :
  let P := fun px => length px = length pixels /\ JS.bytes_ok px in
  JS.bytes_ok pixels ->
  P (unFilterNone scanline pixels bpp off n) /\
  P (unFilterSub scanline pixels bpp off n) /\
  P (unFilterUp scanline pixels bpp off n) /\
  P (unFilterAverage scanline pixels bpp off n) /\
  P (unFilterPaeth scanline pixels bpp off n).
Proof.
  intros P Hpx. assert (H0 : P pixels) by (split; [reflexivity | exact Hpx]).
  unfold unFilterNone, unFilterSub, unFilterUp, unFilterAverage, unFilterPaeth.
  (split; [| split; [| split; [| split]]]);
    try destruct (off - n <? 0); cbv zeta;
    repeat (apply (for_range_keeps P); [intros; apply wr_keeps; assumption |]);
    exact H0.
Qed.

Lemma unFilter_outside (scanline pixels : list Z) (bpp off n k : Z) :
  (k < off \/ off + n <= k ->
     JS.rd (unFilterNone scanline pixels bpp off n) k = JS.rd pixels k /\
     JS.rd (unFilterUp scanline pixels bpp off n) k = JS.rd pixels k) /\
  (k < off \/ off + Z.max bpp n <= k ->
     JS.rd (unFilterSub scanline pixels bpp off n) k = JS.rd pixels k /\
     JS.rd (unFilterAverage scanline pixels bpp off n) k = JS.rd pixels k /\
     JS.rd (unFilterPaeth scanline pixels bpp off n) k = JS.rd pixels k) /\
  (length (unFilterNone scanline pixels bpp off n) = length pixels /\
   length (unFilterSub scanline pixels bpp off n) = length pixels /\
   length (unFilterUp scanline pixels bpp off n) = length pixels /\
   length (unFilterAverage scanline pixels bpp off n) = length pixels /\
   length (unFilterPaeth scanline pixels bpp off n) = length pixels) /\
  (JS.bytes_ok pixels ->
   JS.bytes_ok (unFilterNone scanline pixels bpp off n) /\
   JS.bytes_ok (unFilterSub scanline pixels bpp off n) /\
   JS.bytes_ok (unFilterUp scanline pixels bpp off n) /\
   JS.bytes_ok (unFilterAverage scanline pixels bpp off n) /\
   JS.bytes_ok (unFilterPaeth scanline pixels bpp off n)).
Proof.
  split; [| split; [| split]].
  - intros Hk. unfold unFilterNone, unFilterUp. split.
    + rewrite for_range_outside by lia. reflexivity.
    + destruct (off - n <? 0); cbv zeta; rewrite for_range_outside by lia; reflexivity.
  - intros Hk. unfold unFilterSub, unFilterAverage, unFilterPaeth.
    (split; [| split]); try destruct (off - n <? 0); cbv zeta;
      rewrite !for_range_outside by lia; reflexivity.
  - unfold unFilterNone, unFilterSub, unFilterUp, unFilterAverage, unFilterPaeth.
    (split; [| split; [| split; [| split]]]);
      try destruct (off - n <? 0); cbv zeta;
      repeat (apply (for_range_keeps (fun px => length px = length pixels));
              [intros; rewrite wr_length; assumption |]); reflexivity.
  - intros Hpx.
    destruct (unFilter_keeps scanline pixels bpp off n Hpx)
      as ([_ H1] & [_ H2] & [_ H3] & [_ H4] & [_ H5]).
    repeat split; assumption.
Qed.

(** X6.  The five inverse filters write inside their row only: a byte
    of the buffer before offset [off], or from [off + n] on ([off +
    max(bpp, n)] for the filters that copy [bpp] bytes first), keeps its
    value, whatever the scanline holds.  The buffer keeps its length and,
    if it held bytes, still holds bytes. *)
Theorem unFilter_confined (scanline pixels : list Z) (bpp off n k : Z) :
  (k < off \/ off + n <= k ->
     JS.rd (unFilterNone scanline pixels bpp off n) k = JS.rd pixels k /\
     JS.rd (unFilterUp scanline pixels bpp off n) k = JS.rd pixels k) /\
  (k < off \/ off + Z.max bpp n <= k ->
     JS.rd (unFilterSub scanline pixels bpp off n) k = JS.rd pixels k /\
     JS.rd (unFilterAverage scanline pixels bpp off n) k = JS.rd pixels k /\
     JS.rd (unFilterPaeth scanline pixels bpp off n) k = JS.rd pixels k) /\
  (length (unFilterNone scanline pixels bpp off n) = length pixels /\
   length (unFilterSub scanline pixels bpp off n) = length pixels /\
   length (unFilterUp scanline pixels bpp off n) = length pixels /\
   length (unFilterAverage scanline pixels bpp off n) = length pixels /\
   length (unFilterPaeth scanline pixels bpp off n) = length pixels) /\
  (JS.bytes_ok pixels ->
   JS.bytes_ok (unFilterNone scanline pixels bpp off n) /\
   JS.bytes_ok (unFilterSub scanline pixels bpp off n) /\
   JS.bytes_ok (unFilterUp scanline pixels bpp off n) /\
   JS.bytes_ok (unFilterAverage scanline pixels bpp off n) /\
   JS.bytes_ok (unFilterPaeth scanline pixels bpp off n)).
Proof. exact (unFilter_outside scanline pixels bpp off n k). Qed.

Lemma unFilter_confined_witness :
  JS.rd (unFilterSub [10; 20] [1; 2; 3; 4; 5; 6] 1 2 2) 4 = Some 5 /\
  JS.rd (unFilterPaeth [10; 20] [1; 2; 3; 4; 5; 6] 1 2 2) 1 = Some 2.
Proof.
  split.
  - destruct (unFilter_confined [10; 20] [1; 2; 3; 4; 5; 6] 1 2 2 4) as (_ & H & _).
    destruct H as (H & _); [lia |]. rewrite H. reflexivity.
  - destruct (unFilter_confined [10; 20] [1; 2; 3; 4; 5; 6] 1 2 2 1) as (_ & H & _).
    destruct H as (_ & _ & H); [lia |]. rewrite H. reflexivity.
Defined.

(** ** The raster of a parsed file *)

Lemma wr8_keeps (L : nat) (px : list Z) (k : Z) (v : JS.num) :
  length px = L /\ JS.bytes_ok px ->
  length (JS.wr8 px k v) = L /\ JS.bytes_ok (JS.wr8 px k v).
Proof.
  intros H. unfold JS.wr8. destruct (_ =? 0); [| exact H]. now apply wr_keeps.
Qed.

Lemma unFilter_eighths_keeps (scanline pixels : list Z) (bpp off n : Z) :
  let P := fun px => length px = length pixels /\ JS.bytes_ok px in
  JS.bytes_ok pixels ->
  P (Eighths.unFilterNone scanline pixels bpp off n) /\
  P (Eighths.unFilterSub scanline pixels bpp off n) /\
  P (Eighths.unFilterUp scanline pixels bpp off n) /\
  P (Eighths.unFilterAverage scanline pixels bpp off n) /\
  P (Eighths.unFilterPaeth scanline pixels bpp off n).
Proof.
  intros P Hpx. assert (H0 : P pixels) by (split; [reflexivity | exact Hpx]).
  unfold Eighths.unFilterNone, Eighths.unFilterSub, Eighths.unFilterUp,
    Eighths.unFilterAverage, Eighths.unFilterPaeth.
  (split; [| split; [| split; [| split]]]);
    try destruct (off - n <? 0); cbv zeta;
    repeat (apply (for_range_keeps P); [intros; apply wr8_keeps; assumption |]);
    exact H0.
Qed.

Lemma scanlines_keeps (bpp cpr : Z) (data : list Z) (fuel : nat) :
  forall (k off : Z) (px px' : list Z),
    JS.bytes_ok px ->
    Eighths.scanlines fuel bpp cpr data k off px = Ok px' ->
    length px' = length px /\ JS.bytes_ok px'.
Proof.
  induction fuel as [| fuel IH]; intros k off px px' Hpx; [discriminate |].
  cbn [Eighths.scanlines].
  destruct (k <? 8 * JS.len data); [| intros [= <-]; auto].
  pose proof (unFilter_eighths_keeps
                (JS.slice data (Z.quot (k + 8) 8) (Z.quot (k + cpr + 8) 8))
                px bpp off cpr Hpx)
    as ([L0 B0] & [L1 B1] & [L2 B2] & [L3 B3] & [L4 B4]).
  assert (Hnext : forall px1, length px1 = length px -> JS.bytes_ok px1 ->
             Eighths.scanlines fuel bpp cpr data (k + (cpr + 8)) (off + cpr) px1 = Ok px' ->
             length px' = length px /\ JS.bytes_ok px').
  { intros px1 Hl Hb H. destruct (IH _ _ _ _ Hb H) as [Hl' Hb']. split; congruence. }
  destruct (JS.rd8 data k) as [[| q | q] |]; try discriminate; [now apply Hnext |].
  do 3 (try destruct q as [q | q |]); try discriminate; now apply Hnext.
Qed.

Lemma alloc_bytes_ok (n : Z) : JS.bytes_ok (JS.alloc n).
Proof.
  unfold JS.alloc, JS.bytes_ok. generalize (Z.to_nat n) as m.
  induction m as [| m IH]; simpl; constructor; [unfold JS.byte_ok; lia | exact IH].
Qed.

Lemma alloc_len (n : Z) : 0 <= n -> JS.len (JS.alloc n) = n.
Proof. intros Hn. unfold JS.len, JS.alloc. rewrite repeat_length. lia. Qed.

(** For a header of whole bytes per pixel the raster holds
    [bytesPerPixel * width * height] bytes. *)
Lemma raster_floor_whole (p : PNG) (bpp : Z) :
  raster_floor p -> bytesPerPixel p = Some bpp -> raster_ok p.
Proof.
  intros (bd & px & Hbd & Hpx & Hl & Hb) Hbpp.
  destruct (bytesPerPixel_eighths _ _ Hbpp) as (bd' & Hbd' & Hmax).
  assert (bd' = bd) as -> by congruence.
  exists bpp, px. repeat split; auto.
  rewrite Hl, Hmax. Z.to_euclidean_division_equations. lia.
Qed.

Section ParseInvariant.

Variables (bs : JS.u8) (lo : Z).
Hypothesis Hbs : JS.bytes_ok (JS.buffer bs).
Variable inflate : list Z -> option (list Z).

Local Abbreviation R := (reader_ok bs lo).
Local Abbreviation decoded :=
  (fun r => R r /\ interlaceMethod (png r) = 0 /\ raster_floor (png r)).

Lemma R_interlaceNone (data : list Z) :
  hoare (fun r => R r /\ interlaceMethod (png r) = 0) (interlaceNone data)
        (fun _ => decoded) R.
Proof.
  intros r [Hr Him]. unfold interlaceNone.
  destruct (bitDepth (png r)) as [bd |] eqn:Hbd; [| exact Hr].
  cbv zeta.
  destruct (Z.ltb_spec (Z.max 8 (colors (png r) * bd) * width (png r) * height (png r)) 0)
    as [Hneg | Hsize]; [exact Hr |].
  destruct (Eighths.scanlines _ _ _ data 0 0 _) as [px | e | b] eqn:Hs;
    [| exact Hr | exact Hr].
  destruct Hr as (Hbytes & Hi & Hp & Hd).
  apply scanlines_keeps in Hs; [| apply alloc_bytes_ok].
  destruct Hs as [Hl Hpx]. cbn.
  split; [| split; [exact Him |]].
  - (split; [| split; [| split]]); auto.
  - exists bd, px. repeat split; auto.
    cbn [width height colors with_pixels].
    unfold JS.len. rewrite Hl. apply alloc_len.
    apply Z.div_pos; lia.
Qed.

Lemma R_decodePixels : hoare R (decodePixels inflate) (fun _ => decoded) R.
Proof.
  intros r Hr. unfold decodePixels.
  destruct (inflate _) as [d |]; [| exact Hr].
  destruct (Z.eqb_spec (interlaceMethod (png r)) 0) as [E | E]; [| exact Hr].
  apply (R_interlaceNone d r). auto.
Qed.

Lemma R_parse (readData : bool) :
  hoare R (parse inflate readData) (fun p r => decoded r /\ p = png r) R.
Proof.
  unfold parse.
  eapply hoare_bind; [apply R_decodeHeader, Hbs | intros ?].
  eapply hoare_bind with (Q := fun _ => R).
  { intros r Hr. apply (R_chunkLoop bs lo Hbs readData _ r Hr). }
  intros ?.
  eapply hoare_bind with (I := R); [apply R_decodePixels | intros ?].
  intros r Hr. cbn. auto.
Qed.

End ParseInvariant.







(** X8.  [parse] on any file, a Node [Buffer] or another typed array,
    with any decompressor, for both values of [readData]: it ends with
    the file unchanged and the cursor inside it, and a PNG object it
    returns has a colour type of the table with the matching channel
    count and alpha flag (or the fields of a fresh object, when no IHDR
    chunk was met), compression and filter method 0, interlace method 0,
    a palette of whole triples, a bit depth that is a byte, and a raster
    of as many bytes as [Math.max(1, colors * bitDepth / 8) * width *
    height], cut down to a whole number: [bytesPerPixel * width * height]
    where the bytes per pixel are whole. *)
Theorem parse_result (inflate : list Z -> option (list Z)) (readData : bool)
        (bs : JS.u8) :
  JS.bytes_ok (JS.buffer bs) ->
  let res := parse inflate readData (PNGReaderOn bs) in
  bytes (snd res) = bs /\ 0 <= i (snd res) <= JS.len bs /\
  forall p, fst res = Ok p ->
            p = png (snd res) /\ png_ok p /\ dims_ok p /\
            interlaceMethod p = 0 /\ raster_floor p /\
            (forall bpp, bytesPerPixel p = Some bpp -> raster_ok p).
Proof.
  intros Hbs res.
  assert (Hr0 : reader_ok bs 0 (PNGReaderOn bs)).
  { destruct pinv_newPNG as [Hp Hd].
    (split; [| split; [| split]]); auto. unfold JS.len. cbn. lia. }
  pose proof (R_parse bs 0 Hbs inflate readData _ Hr0) as H. fold res in H.
  destruct res as [[p | e | b] r']; cbn [fst snd].
  - destruct H as [[(Hb & Hi & Hp & Hd) [Him Hrast]] Heq].
    split; [exact Hb |]. split; [lia |].
    intros q [= <-].
    split; [exact Heq |]. rewrite Heq.
    split; [exact Hp |]. split; [exact Hd |]. split; [exact Him |].
    split; [exact Hrast |].
    intros bpp Hbpp. exact (raster_floor_whole _ _ Hrast Hbpp).
  - destruct H as (Hb & Hi & _).
    split; [exact Hb |]. split; [lia | discriminate].
  - destruct H as (Hb & Hi & _).
    split; [exact Hb |]. split; [lia | discriminate].
Qed.

(** A 1x1 image of colour type 2 and bit depth 4, one and a half bytes
    per pixel, as a Node [Buffer]: the raster holds one byte. *)
Lemma parse_result_witness :
  let res := parse (fun _ => Some [0; 128]) true (PNGReaderOn fracPNG) in
  (fst res = Ok (with_pixels (Some [128]) (headerPNG 1 1 4 2 3 false 0)) /\
   bytesPerPixel (headerPNG 1 1 4 2 3 false 0) = None) /\
  bytes (snd res) = fracPNG /\
  0 <= i (snd res) <= JS.len fracPNG /\
  forall p, fst res = Ok p ->
            p = png (snd res) /\ png_ok p /\ dims_ok p /\
            interlaceMethod p = 0 /\ raster_floor p /\
            (forall bpp, bytesPerPixel p = Some bpp -> raster_ok p).
Proof.
  split; [split; reflexivity |].
  apply (parse_result (fun _ => Some [0; 128]) true fracPNG).
  apply bytes_ok_forallb. reflexivity.
Defined.

(** ** The IHDR chunk *)

Lemma be32_value (v : Z) :
  0 <= v < 2 ^ 32 ->
  v / 2 ^ 24 mod 256 * 2 ^ 24 + v / 2 ^ 16 mod 256 * 2 ^ 16
  + v / 2 ^ 8 mod 256 * 2 ^ 8 + v mod 256 = v.
Proof. intros Hv. Z.to_euclidean_division_equations. lia. Qed.

Lemma bind_Ok {S A B} (c : M S A) (k : A -> M S B) (s s' : S) (b : B) :
  bind c k s = (Ok b, s') ->
  exists a s1, c s = (Ok a, s1) /\ k a s1 = (Ok b, s').
Proof.
  unfold bind. destruct (c s) as [[a | e | x] s1]; try discriminate.
  intros H. eauto.
Qed.

Lemma decodeIHDR_layout (r : Reader) (chunk : JS.u8) (w h bd ct cm fm im : Z)
      (extra : list Z) :
  JS.elems chunk = Layout.ihdr w h bd ct cm fm im ++ extra ->
  0 <= w < 2 ^ 32 -> 0 <= h < 2 ^ 32 ->
  let p1 := with_bitDepth (Some bd) (with_height h (with_width w (png r))) in
  decodeIHDR chunk r =
    match colorTable ct with
    | None => (Throw InvalidColorType, with_png p1 r)
    | Some (cs, al) =>
      let p2 := with_color ct cs al p1 in
      let p3 := with_compressionMethod cm p2 in
      let p4 := with_filterMethod fm p3 in
      if negb (cm =? 0) then
        (Throw (InvalidCompressionMethod (Some cm)), with_png p2 r)
      else if negb (fm =? 0) then
        (Throw (InvalidFilterMethod (Some fm)), with_png p3 r)
      else if negb (im =? 0) && negb (im =? 1) then
        (Throw (InvalidInterlaceMethod (Some im)), with_png p4 r)
      else (Ok tt, with_png (with_interlaceMethod im p4) r)
    end /\
  (forall (chunk : JS.u8) r0, JS.len chunk < 13 -> fst (decodeIHDR chunk r0) <> Ok tt).
Proof.
  intros He Hw Hh p1. split.
  - unfold decodeIHDR.
    assert (Hl : 13 <= JS.len chunk).
    { rewrite He. unfold JS.len, Layout.ihdr, Layout.be32.
      rewrite length_app. cbn [length app]. lia. }
    rewrite !readUInt32_inside by lia.
    unfold readUInt8. rewrite He.
    set (l := Layout.ihdr w h bd ct cm fm im ++ extra).
    assert (E0 : getUint32 l 0 = Ok w).
    { rewrite <- (be32_value w Hw) at 1. reflexivity. }
    assert (E4 : getUint32 l 4 = Ok h).
    { rewrite <- (be32_value h Hh) at 1. reflexivity. }
    change (JS.rd l 8) with (Some bd).
    change (JS.rd l 9) with (Some ct).
    change (JS.rd l 10) with (Some cm).
    change (JS.rd l 11) with (Some fm).
    change (JS.rd l 12) with (Some im).
    rewrite E0, E4. unfold bind, lift, onPng, setWidth, setHeight, setBitDepth, modify.
    cbn [png with_png fst snd].
    unfold setColorType. fold p1.
    change (png (with_png (with_bitDepth (Some bd) (with_height h (with_width w (png r)))) r))
      with p1.
    destruct (colorTable ct) as [[cs al] |]; [| reflexivity].
    unfold modify, setCompressionMethod, setFilterMethod, setInterlaceMethod, throw, modify.
    cbv zeta.
    destruct (negb (cm =? 0)); [reflexivity |].
    destruct (negb (fm =? 0)); [reflexivity |].
    destruct (negb (im =? 0) && negb (im =? 1)); reflexivity.
  - intros chunk0 r0 Hl H.
    destruct (decodeIHDR chunk0 r0) as [o r'] eqn:E. simpl in H. subst o.
    unfold decodeIHDR in E.
    repeat (apply bind_Ok in E; destruct E as (? & ? & _ & E)).
    destruct (readUInt8 chunk0 12) as [v |] eqn:E12; [| discriminate].
    apply rd_Some_range in E12. lia.
Qed.

(** X9.  [decodeIHDR] on a payload that starts with the 13 header bytes
    (width and height big-endian, then bit depth, colour type,
    compression, filter and interlace method), be the payload a view of
    the file or a copy.  The fields are stored one after the other and
    the first one a setter rejects ends the call: an unknown colour type
    after width, height and bit depth are stored, a compression method
    other than 0 after the colour fields are stored too, and so on; when
    no setter objects all seven fields hold the values of the payload.  A
    payload of fewer than 13 bytes is never accepted. *)
Theorem decodeIHDR_fields (r : Reader) (chunk : JS.u8) (w h bd ct cm fm im : Z)
      (extra : list Z) :
  JS.elems chunk = Layout.ihdr w h bd ct cm fm im ++ extra ->
  0 <= w < 2 ^ 32 -> 0 <= h < 2 ^ 32 ->
  let p1 := with_bitDepth (Some bd) (with_height h (with_width w (png r))) in
  decodeIHDR chunk r =
    match colorTable ct with
    | None => (Throw InvalidColorType, with_png p1 r)
    | Some (cs, al) =>
      let p2 := with_color ct cs al p1 in
      let p3 := with_compressionMethod cm p2 in
      let p4 := with_filterMethod fm p3 in
      if negb (cm =? 0) then
        (Throw (InvalidCompressionMethod (Some cm)), with_png p2 r)
      else if negb (fm =? 0) then
        (Throw (InvalidFilterMethod (Some fm)), with_png p3 r)
      else if negb (im =? 0) && negb (im =? 1) then
        (Throw (InvalidInterlaceMethod (Some im)), with_png p4 r)
      else (Ok tt, with_png (with_interlaceMethod im p4) r)
    end /\
  (forall (chunk : JS.u8) r0, JS.len chunk < 13 -> fst (decodeIHDR chunk r0) <> Ok tt).
Proof. exact (decodeIHDR_layout r chunk w h bd ct cm fm im extra). Qed.

Lemma decodeIHDR_fields_witness :
  decodeIHDR (JS.newUint8Array (Layout.ihdr 1 1 8 0 0 0 1 ++ [])) (PNGReader [])
  = (Ok tt, with_png (headerPNG 1 1 8 0 1 false 1) (PNGReader [])) /\
  decodeIHDR (JS.newUint8Array (Layout.ihdr 1 1 8 5 0 0 0 ++ [])) (PNGReader [])
  = (Throw InvalidColorType,
     with_png (with_bitDepth (Some 8) (with_height 1 (with_width 1 newPNG))) (PNGReader [])).
Proof.
  split.
  - apply (decodeIHDR_fields (PNGReader []) _ 1 1 8 0 0 0 1 []); [reflexivity | lia | lia].
  - apply (decodeIHDR_fields (PNGReader []) _ 1 1 8 5 0 0 0 []); [reflexivity | lia | lia].
Defined.

(** ** The inverse filters inside the image *)

Lemma rd_byteAt (a : list Z) (k : Z) :
  0 <= k < JS.len a -> JS.rd a k = Some (byteAt a k).
Proof.
  intros Hk. unfold byteAt. destruct (rd_is_Some a k Hk) as [v ->]. reflexivity.
Qed.

Lemma byteAt_byte (a : list Z) (k : Z) : JS.bytes_ok a -> JS.byte_ok (byteAt a k).
Proof.
  intros Ha. unfold byteAt. destruct (JS.rd a k) as [v |] eqn:E; simpl.
  - exact (rd_bytes _ _ _ Ha E).
  - unfold JS.byte_ok. lia.
Qed.

(** The value a turn of a filling loop stores, and the state it reads:
    below the byte it stores, that state already is the final one. *)
Lemma fill_inside_final (off : Z) (f : Z -> list Z -> JS.num) (lo hi : Z)
      (px : list Z) (k : Z) :
  lo <= k < hi -> 0 <= off + k < JS.len px ->
  let out := JS.for_range lo hi (fun i px => JS.wr px (off + i) (f i px)) px in
  exists st,
    JS.rd out (off + k) = Some (JS.toUint8 (f k st)) /\
    forall j, j < off + k -> JS.rd st j = JS.rd out j.
Proof.
  intros Hk Hr out.
  exists (JS.for_loop (Z.to_nat (k - lo)) lo (fun i px => JS.wr px (off + i) (f i px)) px).
  split.
  - unfold out, JS.for_range. apply (fill_inside off f); lia.
  - intros j Hj. unfold out, JS.for_range.
    replace (Z.to_nat (hi - lo)) with (Z.to_nat (k - lo) + Z.to_nat (hi - k))%nat by lia.
    rewrite for_loop_split.
    symmetry. apply (fill_outside off f). lia.
Qed.

Section Recurrence.

Variables (scanline pixels : list Z) (bpp n off : Z).
Hypothesis Hbpp : 1 <= bpp.
Hypothesis Hlen : JS.len scanline = n.
Hypothesis Hs : JS.bytes_ok scanline.
Hypothesis Hpx : JS.bytes_ok pixels.
Hypothesis Hoff : 0 <= off.
Hypothesis Hfit : off + n <= JS.len pixels.

Lemma out_len (out : list Z) : length out = length pixels -> JS.len out = JS.len pixels.
Proof. unfold JS.len. now intros ->. Qed.

Lemma store_sum (v l : Z) :
  Some (JS.toUint8 (JS.and (JS.add (Some v) (Some l)) 255)) = Some ((v + l) mod 256).
Proof. simpl JS.add. rewrite and_255. simpl. now rewrite Z.mod_mod by lia. Qed.

Lemma unFilterSub_rec (k : Z) :
  bpp <= k < n ->
  let out := unFilterSub scanline pixels bpp off n in
  JS.rd out (off + k) = Some ((byteAt scanline k + byteAt out (off + k - bpp)) mod 256).
Proof.
  intros Hk out.
  destruct (unFilter_keeps scanline pixels bpp off n Hpx) as (_ & [Hl Hb] & _).
  fold out in Hl, Hb. apply out_len in Hl.
  unfold out at 1, unFilterSub.
  set (px1 := JS.for_range 0 bpp _ pixels).
  assert (Hl1 : JS.len px1 = JS.len pixels).
  { apply out_len. unfold px1.
    apply (for_range_keeps (fun px => length px = length pixels));
      [intros; now rewrite wr_length | reflexivity]. }
  destruct (fill_inside_final off
              (fun i px => JS.and (JS.add (JS.rd scanline i) (JS.rd px (off + i - bpp))) 255)
              (Z.max 0 bpp) n px1 k) as (st & -> & Hst); [lia | lia |].
  rewrite Hst by lia.
  change (JS.for_range (Z.max 0 bpp) n _ px1) with out.
  rewrite (rd_byteAt scanline k) by lia.
  rewrite (rd_byteAt out (off + k - bpp)) by lia.
  apply store_sum.
Qed.

Hypothesis Hlater : n <= off.

Lemma later_test : (off - n <? 0) = false.
Proof. apply Z.ltb_ge. lia. Qed.

Lemma unFilterUp_rec (k : Z) :
  0 <= k < n ->
  JS.rd (unFilterUp scanline pixels bpp off n) (off + k)
  = Some ((byteAt scanline k + byteAt pixels (off + k - n)) mod 256).
Proof.
  intros Hk. unfold unFilterUp. rewrite later_test. cbv zeta.
  destruct (fill_inside_final off
              (fun i px => JS.and (JS.add (JS.rd scanline i) (JS.rd px (off + i - n))) 255)
              0 n pixels k) as (st & -> & Hst); [lia | lia |].
  rewrite Hst by lia.
  rewrite for_range_outside by lia.
  rewrite (rd_byteAt scanline k) by lia.
  rewrite (rd_byteAt pixels (off + k - n)) by lia.
  apply store_sum.
Qed.

Lemma unFilterAverage_rec (k : Z) :
  bpp <= k < n ->
  let out := unFilterAverage scanline pixels bpp off n in
  JS.rd out (off + k)
  = Some ((byteAt scanline k
           + (byteAt out (off + k - bpp) + byteAt pixels (off + k - n)) / 2) mod 256).
Proof.
  intros Hk out.
  destruct (unFilter_keeps scanline pixels bpp off n Hpx) as (_ & _ & _ & [Hl Hb] & _).
  fold out in Hl, Hb. apply out_len in Hl.
  assert (Hprior : JS.rd out (off + k - n) = JS.rd pixels (off + k - n)).
  { apply (unFilter_outside scanline pixels bpp off n (off + k - n)). lia. }
  unfold out at 1, unFilterAverage. rewrite later_test. cbv zeta.
  match goal with
  | |- JS.rd ?E _ = _ =>
    assert (Hout : out = E)
      by (unfold out, unFilterAverage; rewrite later_test; reflexivity)
  end.
  set (px1 := JS.for_range 0 bpp _ pixels) in *.
  assert (Hl1 : JS.len px1 = JS.len pixels).
  { apply out_len. unfold px1.
    apply (for_range_keeps (fun px => length px = length pixels));
      [intros; now rewrite wr_length | reflexivity]. }
  destruct (fill_inside_final off
              (fun i px =>
                 JS.and (JS.add (JS.rd scanline i)
                                (JS.shr (JS.add (JS.rd px (off + i - bpp))
                                                (JS.rd px (off + i - n))) 1)) 255)
              (Z.max 0 bpp) n px1 k) as (st & -> & Hst); [lia | lia |].
  rewrite <- Hout in Hst.
  rewrite !Hst by lia. rewrite Hprior.
  rewrite (rd_byteAt scanline k) by lia.
  rewrite (rd_byteAt out (off + k - bpp)) by lia.
  rewrite (rd_byteAt pixels (off + k - n)) by lia.
  pose proof (byteAt_byte out (off + k - bpp) Hb) as H1.
  pose proof (byteAt_byte pixels (off + k - n) Hpx) as H2.
  simpl JS.add at 2. rewrite shr_1 by (unfold JS.byte_ok in *; lia).
  apply store_sum.
Qed.

Lemma unFilterPaeth_rec (k : Z) :
  bpp <= k < n ->
  let out := unFilterPaeth scanline pixels bpp off n in
  JS.rd out (off + k)
  = Some ((byteAt scanline k
           + PngFilter.PaethPredictor (byteAt out (off + k - bpp))
                                      (byteAt pixels (off + k - n))
                                      (byteAt pixels (off + k - n - bpp))) mod 256).
Proof.
  intros Hk out.
  destruct (unFilter_keeps scanline pixels bpp off n Hpx) as (_ & _ & _ & _ & [Hl Hb]).
  fold out in Hl, Hb. apply out_len in Hl.
  assert (Hprior : forall j, j < off -> JS.rd out j = JS.rd pixels j).
  { intros j Hj. apply (unFilter_outside scanline pixels bpp off n j). lia. }
  unfold out at 1, unFilterPaeth. rewrite later_test. cbv zeta.
  match goal with
  | |- JS.rd ?E _ = _ =>
    assert (Hout : out = E)
      by (unfold out, unFilterPaeth; rewrite later_test; reflexivity)
  end.
  set (px1 := JS.for_range 0 bpp _ pixels) in *.
  assert (Hl1 : JS.len px1 = JS.len pixels).
  { apply out_len. unfold px1.
    apply (for_range_keeps (fun px => length px = length pixels));
      [intros; now rewrite wr_length | reflexivity]. }
  destruct (fill_inside_final off
              (fun i px =>
                 JS.and (JS.add (JS.rd scanline i)
                                (paethPredictor (JS.rd px (off + i - bpp))
                                                (JS.rd px (off + i - n))
                                                (JS.rd px (off + i - n - bpp)))) 255)
              (Z.max 0 bpp) n px1 k) as (st & -> & Hst); [lia | lia |].
  rewrite <- Hout in Hst.
  rewrite !Hst by lia.
  rewrite (Hprior (off + k - n)), (Hprior (off + k - n - bpp)) by lia.
  rewrite (rd_byteAt scanline k) by lia.
  rewrite (rd_byteAt out (off + k - bpp)) by lia.
  rewrite (rd_byteAt pixels (off + k - n)) by lia.
  rewrite (rd_byteAt pixels (off + k - n - bpp)) by lia.
  rewrite paethPredictor_defined.
  apply store_sum.
Qed.

End Recurrence.

(** X10.  Past the first [bpp] bytes of a row of [n] bytes that fits
    the buffer, each inverse filter stores the scanline byte plus its
    predictor, modulo 256: Sub adds the byte it stored [bpp] places to
    the left; on a row below the first, Up adds the byte above (at every
    place of the row), Average adds the half, rounded down, of the sum of
    left and above, and Paeth adds the PaethPredictor of left, above and
    upper left. *)
Theorem unFilter_recurrence (scanline pixels : list Z) (bpp n off k : Z) :
  1 <= bpp -> JS.len scanline = n ->
  JS.bytes_ok scanline -> JS.bytes_ok pixels ->
  0 <= off -> off + n <= JS.len pixels ->
  bpp <= k < n ->
  let sub := unFilterSub scanline pixels bpp off n in
  let up := unFilterUp scanline pixels bpp off n in
  let avg := unFilterAverage scanline pixels bpp off n in
  let pae := unFilterPaeth scanline pixels bpp off n in
  JS.rd sub (off + k)
  = Some ((byteAt scanline k + byteAt sub (off + k - bpp)) mod 256) /\
  (n <= off ->
   (forall j, 0 <= j < n ->
      JS.rd up (off + j)
      = Some ((byteAt scanline j + byteAt pixels (off + j - n)) mod 256)) /\
   JS.rd avg (off + k)
   = Some ((byteAt scanline k
            + (byteAt avg (off + k - bpp) + byteAt pixels (off + k - n)) / 2) mod 256) /\
   JS.rd pae (off + k)
   = Some ((byteAt scanline k
            + PngFilter.PaethPredictor (byteAt pae (off + k - bpp))
                                       (byteAt pixels (off + k - n))
                                       (byteAt pixels (off + k - n - bpp))) mod 256)).
Proof.
  intros Hbpp Hlen Hs Hpx Hoff Hfit Hk sub up avg pae.
  split; [apply (unFilterSub_rec scanline pixels bpp n off); assumption |].
  intros Hlater. split; [| split].
  - intros j Hj. apply (unFilterUp_rec scanline pixels bpp n off); assumption.
  - apply (unFilterAverage_rec scanline pixels bpp n off); assumption.
  - apply (unFilterPaeth_rec scanline pixels bpp n off); assumption.
Qed.

Lemma unFilter_recurrence_witness :
  JS.rd (unFilterSub [10; 250; 30] [0; 0; 0; 0; 0; 0] 1 0 3) (0 + 1)
  = Some ((byteAt [10; 250; 30] 1
           + byteAt (unFilterSub [10; 250; 30] [0; 0; 0; 0; 0; 0] 1 0 3) (0 + 1 - 1))
          mod 256).
Proof.
  assert (H1 : JS.bytes_ok [10; 250; 30]) by bytes_ok_tac.
  assert (H2 : JS.bytes_ok [0; 0; 0; 0; 0; 0]) by bytes_ok_tac.
  assert (H3 : 0 + 3 <= JS.len [0; 0; 0; 0; 0; 0]) by (unfold JS.len; cbn [length]; lia).
  exact (proj1 (unFilter_recurrence [10; 250; 30] [0; 0; 0; 0; 0; 0] 1 3 0 1
                  ltac:(lia) eq_refl H1 H2 ltac:(lia) H3 ltac:(lia))).
Defined.

(** ** Filter type bytes *)

(** X11.  The row loop of [interlaceNone], for rows of [cpr >= 0]
    bytes: it throws 'unknown filtered scanline' exactly when the byte
    that heads one of the rows of the stream is not 0, 1, 2, 3 or 4, and
    otherwise returns a buffer (the rows may be cut short or outnumber
    the image). *)
Theorem scanlines_unknown_filter (bpp cpr : Z) (data : list Z) (fuel : nat) :
  0 <= cpr ->
  forall (k off : Z) (px : list Z),
    0 <= k -> (Z.to_nat (JS.len data - k) < fuel)%nat ->
    (scanlines fuel bpp cpr data k off px = Throw UnknownFilter <->
     exists m t, 0 <= m /\ JS.rd data (k + m * (cpr + 1)) = Some t /\ ~ 0 <= t <= 4) /\
    (scanlines fuel bpp cpr data k off px <> Throw UnknownFilter ->
     exists px', scanlines fuel bpp cpr data k off px = Ok px').
Proof.
  intros Hcpr. induction fuel as [| fuel IH]; intros k off px Hk Hfuel; [lia |].
  split.
  2: { intros Hne.
       destruct (scanlines_fuel bpp cpr data (S fuel) k off px Hcpr Hk Hfuel)
         as [H | H]; [exact H | contradiction]. }
  cbn [scanlines].
  destruct (Z.ltb_spec k (JS.len data)) as [Hlt | Hge].
  - assert (Hnext : forall px1,
               scanlines fuel bpp cpr data (k + (cpr + 1)) (off + cpr) px1
               = Throw UnknownFilter <->
               exists m t, 0 <= m /\
                           JS.rd data (k + (cpr + 1) + m * (cpr + 1)) = Some t /\
                           ~ 0 <= t <= 4).
    { intros px1. apply IH; lia. }
    assert (Hshift : forall t0, JS.rd data k = Some t0 -> 0 <= t0 <= 4 ->
               (exists m t, 0 <= m /\ JS.rd data (k + (cpr + 1) + m * (cpr + 1)) = Some t
                            /\ ~ 0 <= t <= 4) <->
               (exists m t, 0 <= m /\ JS.rd data (k + m * (cpr + 1)) = Some t
                            /\ ~ 0 <= t <= 4)).
    { intros t0 Ht0 Hok. split.
      - intros (m & t & Hm & Hrd & Ht). exists (m + 1), t.
        split; [lia |]. split; [| exact Ht].
        replace (k + (m + 1) * (cpr + 1)) with (k + (cpr + 1) + m * (cpr + 1)) by lia.
        exact Hrd.
      - intros (m & t & Hm & Hrd & Ht).
        destruct (Z.eq_dec m 0) as [-> | Hm0].
        + rewrite Z.mul_0_l, Z.add_0_r in Hrd. rewrite Ht0 in Hrd.
          injection Hrd as <-. contradiction.
        + exists (m - 1), t. split; [lia |]. split; [| exact Ht].
          replace (k + (cpr + 1) + (m - 1) * (cpr + 1)) with (k + m * (cpr + 1)) by lia.
          exact Hrd. }
    assert (Hbad : forall t0, JS.rd data k = Some t0 -> ~ 0 <= t0 <= 4 ->
               exists m t, 0 <= m /\ JS.rd data (k + m * (cpr + 1)) = Some t
                           /\ ~ 0 <= t <= 4).
    { intros t0 Ht0 Hno. exists 0, t0. rewrite Z.mul_0_l, Z.add_0_r. auto with zarith. }
    destruct (rd_is_Some data k ltac:(lia)) as [t0 Ht0]. rewrite Ht0.
    destruct t0 as [| q | q].
    + rewrite Hnext. apply (Hshift 0 Ht0). lia.
    + do 3 (try destruct q as [q | q |]);
        try (rewrite Hnext; apply (Hshift _ Ht0); lia);
        (split; [intros _; apply (Hbad _ Ht0); lia | reflexivity]).
    + split; [intros _; apply (Hbad _ Ht0); lia | reflexivity].
  - split; [discriminate |].
    intros (m & t & Hm & Hrd & _). apply rd_Some_range in Hrd. nia.
Qed.

Lemma scanlines_unknown_filter_witness :
  scanlines 5 1 1 [0; 7; 9; 8] 0 0 [0; 0] = Throw UnknownFilter.
Proof.
  apply (scanlines_unknown_filter 1 1 [0; 7; 9; 8] 5 ltac:(lia) 0 0 [0; 0]);
    [lia | unfold JS.len; cbn [length]; lia |].
  exists 1, 9. split; [lia |]. split; [reflexivity | lia].
Defined.

(** ** A whole file *)

Lemma getUint32_be32_only (v : Z) :
  0 <= v < 2 ^ 32 -> getUint32 (Layout.be32 v) 0 = Ok v.
Proof.
  intros Hv. unfold getUint32, Layout.be32.
  change (JS.rd [?a; ?b; ?c; ?d] 0) with (Some a).
  change (JS.rd [?a; ?b; ?c; ?d] (0 + 1)) with (Some b).
  change (JS.rd [?a; ?b; ?c; ?d] (0 + 2)) with (Some c).
  change (JS.rd [?a; ?b; ?c; ?d] (0 + 3)) with (Some d).
  f_equal. now apply be32_value.
Qed.

Lemma decodeHeader_signature (r : Reader) (rest : list Z) :
  i r = 0 -> JS.elems (bytes r) = signature ++ rest ->
  decodeHeader r = (Ok tt, with_header signature (with_i 8 r)).
Proof.
  intros Hi Hb. unfold decodeHeader, bind, readBytes.
  rewrite Hi. change (0 + 8) with 8. cbn [Z.eqb negb].
  destruct (Z.gtb_spec 8 (JS.len (bytes r))) as [Hgt | _].
  { rewrite Hb in Hgt. unfold JS.len in Hgt. rewrite length_app in Hgt.
    simpl in Hgt. lia. }
  rewrite !elems_sliceOf, Hb.
  rewrite (slice_prefix signature rest 8) by reflexivity.
  replace (equalBytes signature signature) with true by reflexivity.
  reflexivity.
Qed.

Lemma length_itemBytes (its : list Layout.item) :
  (length its <= length (concat (map Layout.itemBytes its)))%nat.
Proof.
  induction its as [| it its IH]; [reflexivity |].
  cbn [map concat]. rewrite length_app.
  unfold Layout.itemBytes in *. unfold Layout.chunk at 1.
  rewrite length_app. cbn [length Layout.be32].
  lia.
Qed.

Lemma unhandled_false (t : string) :
  unhandled t = true ->
  String.eqb t "IHDR" = false /\ String.eqb t "PLTE" = false /\
  String.eqb t "IDAT" = false /\ String.eqb t "tRNS" = false /\
  String.eqb t "IEND" = false.
Proof.
  unfold unhandled. intros H.
  repeat (apply andb_prop in H; destruct H as [H ?]).
  repeat split; apply negb_true_iff; assumption.
Qed.

(** The chunk loop over IDAT chunks and chunks it has no case for, up to
    the IEND chunk: the IDAT payloads are gathered in file order, the
    other chunks are passed over, the loop stops behind IEND. *)
Lemma chunkLoop_items (crcE rest : list Z) (its : list Layout.item) :
  forall (r : Reader) (pre : list Z) (fuel : nat),
    length crcE = 4%nat ->
    Forall Layout.item_ok its ->
    JS.elems (bytes r) = pre ++ concat (map Layout.itemBytes its)
                             ++ Layout.chunk Layout.IEND [] crcE ++ rest ->
    i r = JS.len pre ->
    (length its < fuel)%nat ->
    chunkLoop fuel true r
    = (Ok tt,
       mkReader (bytes r)
                (JS.len pre + JS.len (concat (map Layout.itemBytes its)) + 12)
                (png r) (dataChunks r ++ Layout.idatPayloads its) (header r)).
Proof.
  induction its as [| it its IH]; intros r pre fuel HcE Hits Hb Hi Hfuel.
  - destruct fuel as [| fuel]; [simpl in Hfuel; lia |].
    cbn [chunkLoop map concat Layout.idatPayloads List.filter] in *.
    rewrite app_nil_l in Hb.
    destruct (Z.ltb_spec (i r) (JS.len (bytes r))) as [_ | Hge].
    2: { rewrite Hb, Hi in Hge. unfold JS.len, Layout.chunk in Hge.
         rewrite !length_app in Hge. cbn [length Layout.be32] in Hge. lia. }
    unfold bind.
    destruct (decodeChunk_layout r pre (Layout.be32 0) Layout.IEND [] crcE rest)
      as [_ ->];
      [exact Hb | exact Hi | reflexivity | reflexivity | exact HcE | reflexivity |].
    set (r1 := with_i _ r).
    set (chunk := JS.sliceOf _ _ _).
    replace ((chunkHandler (bufferToString Layout.IEND) chunk ;;;
              ret (bufferToString Layout.IEND)) r1)
      with (@Ok string "IEND"%string, r1) by reflexivity.
    cbn -[chunkLoop]. unfold r1, with_i. rewrite app_nil_r, Hi.
    f_equal. f_equal. unfold JS.len. cbn [length]. lia.
  - destruct fuel as [| fuel]; [simpl in Hfuel; lia |].
    inversion Hits as [| it' its' Hit Hits']; subst it' its'.
    destruct it as [[T payload] C].
    destruct Hit as (HT & HC & Hlen & Htype). cbn [fst snd] in HT, HC, Hlen, Htype.
    cbn [chunkLoop].
    assert (Hb' : JS.elems (bytes r)
                  = pre ++ Layout.be32 (JS.len payload) ++ T ++ payload ++ C
                              ++ (concat (map Layout.itemBytes its)
                                    ++ Layout.chunk Layout.IEND [] crcE ++ rest)).
    { rewrite Hb. cbn [map concat]. unfold Layout.itemBytes, Layout.chunk at 1.
      cbn [fst snd]. now rewrite <- !app_assoc. }
    destruct (Z.ltb_spec (i r) (JS.len (bytes r))) as [_ | Hge].
    2: { rewrite Hb', Hi in Hge. unfold JS.len in Hge.
         rewrite !length_app in Hge. cbn [length Layout.be32] in Hge. lia. }
    unfold bind at 1.
    destruct (decodeChunk_layout r pre (Layout.be32 (JS.len payload)) T payload C _ Hb' Hi
                eq_refl HT HC) as [EP ->];
      [apply getUint32_be32_only; unfold JS.len in *; lia |].
    set (chunk := JS.sliceOf _ _ _) in *.
    set (r1 := with_i (i r + 12 + JS.len payload) r).
    assert (Hlen1 : JS.len (pre ++ Layout.be32 (JS.len payload) ++ T ++ payload ++ C)
                    = i r + 12 + JS.len payload).
    { rewrite Hi. unfold JS.len. rewrite !length_app. cbn [length Layout.be32]. lia. }
    assert (Hcat : JS.len pre + JS.len (concat (map Layout.itemBytes ((T, payload, C) :: its)))
                   = i r + 12 + JS.len payload + JS.len (concat (map Layout.itemBytes its))).
    { rewrite Hi. cbn [map concat]. unfold Layout.itemBytes at 1, Layout.chunk, JS.len.
      cbn [fst snd]. rewrite !length_app. cbn [length Layout.be32]. lia. }
    destruct Htype as [-> | Hun].
    + (* an IDAT chunk *)
      change (bufferToString Layout.IDAT) with "IDAT"%string.
      unfold bind. cbn [chunkHandler String.eqb Ascii.eqb Bool.eqb andb orb negb
                          decodeIDAT modify ret].
      rewrite EP.
      rewrite (IH (with_dataChunks (dataChunks r1 ++ [payload]) r1)
                  (pre ++ Layout.be32 (JS.len payload) ++ Layout.IDAT ++ payload ++ C));
        [| exact HcE | exact Hits'
         | cbn [bytes with_dataChunks with_i r1]; rewrite Hb'; now rewrite <- !app_assoc
         | cbn [i with_dataChunks with_i r1]; now rewrite Hlen1
         | simpl in Hfuel; lia].
      cbn [bytes png dataChunks header with_dataChunks with_i r1].
      f_equal. f_equal.
      * rewrite Hlen1. f_equal. symmetry. exact Hcat.
      * unfold Layout.idatPayloads. cbn [List.filter fst snd map].
        change (bufferToString Layout.IDAT) with "IDAT"%string.
        cbn [String.eqb Ascii.eqb Bool.eqb andb]. cbn [map].
        now rewrite <- app_assoc.
    + (* a chunk the reader has no case for *)
      destruct (unhandled_false _ Hun) as (E1 & E2 & E3 & E4 & E5).
      unfold bind, chunkHandler. rewrite E1, E2, E3, E4, E5.
      cbn [ret andb orb]. rewrite E1, E5. cbn [andb orb].
      rewrite (IH r1 (pre ++ Layout.be32 (JS.len payload) ++ T ++ payload ++ C));
        [| exact HcE | exact Hits'
         | cbn [bytes with_i r1]; rewrite Hb'; now rewrite <- !app_assoc
         | cbn [i with_i r1]; now rewrite Hlen1
         | simpl in Hfuel; lia].
      cbn [bytes png dataChunks header with_i r1].
      f_equal. f_equal.
      * rewrite Hlen1. f_equal. symmetry. exact Hcat.
      * unfold Layout.idatPayloads. cbn [List.filter fst snd map]. now rewrite E3.
Qed.

Lemma parse_fileOf (inflate : list Z -> option (list Z)) (b : JS.u8)
      (w h bd ct cs : Z) (al : bool) (im : Z)
      (crc0 : list Z) (its : list Layout.item) (crcE rest : list Z) :
  JS.elems b = fileOf w h bd ct im crc0 its crcE rest ->
  0 <= w < 2 ^ 32 -> 0 <= h < 2 ^ 32 ->
  colorTable ct = Some (cs, al) -> im = 0 \/ im = 1 ->
  length crc0 = 4%nat -> length crcE = 4%nat ->
  Forall Layout.item_ok its ->
  parse inflate true (PNGReaderOn b)
  = (decodePixels inflate ;;; gets png)
      {| bytes := b; i := JS.len b - JS.len rest;
         png := headerPNG w h bd ct cs al im;
         dataChunks := Layout.idatPayloads its;
         header := Some signature |}.
Proof.
  intros Hb Hw Hh Hct Him Hc0 HcE Hits.
  set (file := fileOf w h bd ct im crc0 its crcE rest) in *.
  set (r0 := PNGReaderOn b).
  set (payload := Layout.ihdr w h bd ct 0 0 im).
  set (tail := concat (map Layout.itemBytes its) ++ Layout.chunk Layout.IEND [] crcE ++ rest).
  assert (Hfile : file = signature ++ Layout.be32 13 ++ Layout.IHDR ++ payload ++ crc0 ++ tail).
  { unfold file, fileOf, Layout.chunk at 1. fold payload. fold tail.
    now rewrite <- !app_assoc. }
  assert (Hlenb : length (JS.elems b) = length file) by now rewrite Hb.
  assert (H1 : decodeHeader r0 = (Ok tt, with_header signature (with_i 8 r0))).
  { apply decodeHeader_signature
      with (rest := Layout.be32 13 ++ Layout.IHDR ++ payload ++ crc0 ++ tail);
      [reflexivity | cbn [bytes r0 PNGReaderOn]; now rewrite Hb]. }
  set (r1 := with_header signature (with_i 8 r0)) in *.
  set (r2 := with_png (headerPNG w h bd ct cs al im) (with_i 33 r1)).
  assert (H2 : decodeChunk r1 = (Ok "IHDR"%string, r2)).
  { destruct (decodeChunk_layout r1 signature (Layout.be32 13) Layout.IHDR payload crc0 tail)
      as [EP ->];
      [ cbn [bytes r1 r0 PNGReaderOn with_header with_i]; now rewrite Hb
      | reflexivity | reflexivity | reflexivity | exact Hc0 | reflexivity |].
    set (chunk := JS.sliceOf _ _ _) in *.
    change (bufferToString Layout.IHDR) with "IHDR"%string.
    change (chunkHandler "IHDR" chunk) with (decodeIHDR chunk).
    unfold bind.
    rewrite (proj1 (decodeIHDR_layout _ chunk w h bd ct 0 0 im []
                      ltac:(rewrite EP; symmetry; apply app_nil_r) Hw Hh)).
    rewrite Hct. cbn [Z.eqb negb].
    replace (negb (im =? 0) && negb (im =? 1)) with false
      by (destruct Him as [-> | ->]; reflexivity).
    reflexivity. }
  assert (H3 : chunkLoop (length file) true r2
               = (Ok tt,
                  {| bytes := b; i := JS.len b - JS.len rest;
                     png := headerPNG w h bd ct cs al im;
                     dataChunks := Layout.idatPayloads its;
                     header := Some signature |})).
  { rewrite (chunkLoop_items crcE rest its r2
               (signature ++ Layout.be32 13 ++ Layout.IHDR ++ payload ++ crc0));
      [| exact HcE | exact Hits
       | change (bytes r2) with b; rewrite Hb, Hfile; now rewrite <- !app_assoc
       | unfold JS.len; rewrite !length_app, Hc0; reflexivity
       | pose proof (length_itemBytes its); rewrite Hfile;
         rewrite !length_app; unfold tail; rewrite length_app; lia ].
    change (bytes r2) with b. change (png r2) with (headerPNG w h bd ct cs al im).
    change (dataChunks r2) with (@nil (list Z)). change (header r2) with (Some signature).
    cbn [app]. f_equal. f_equal.
    unfold JS.len. rewrite Hlenb.
    rewrite Hfile. unfold tail, Layout.chunk. rewrite !length_app.
    rewrite Hc0, HcE. cbn [length Layout.be32 Layout.IHDR Layout.IEND payload Layout.ihdr app signature].
    lia. }
  unfold parse. unfold bind at 1. rewrite H1.
  unfold bind at 1.
  change (bytes r1) with b. rewrite Hlenb.
  cbn [chunkLoop].
  destruct (Z.ltb_spec (i r1) (JS.len (bytes r1))) as [_ | Hge].
  2: { change (i r1) with 8 in Hge. change (bytes r1) with b in Hge.
       rewrite Hb, Hfile in Hge. unfold JS.len in Hge. rewrite !length_app in Hge.
       cbn [length signature Layout.be32] in Hge. lia. }
  unfold bind at 1. rewrite H2.
  change (String.eqb "IHDR" "IHDR" && negb true || String.eqb "IHDR" "IEND") with false.
  cbv iota. rewrite H3. reflexivity.
Qed.

Lemma interlaceNone_filterRows (r : Reader) (bpp : Z) (raw types : list Z) :
  bytesPerPixel (png r) = Some bpp -> 0 <= width (png r) ->
  height (png r) = JS.len types ->
  JS.bytes_ok raw -> Forall (fun t => 0 <= t <= 4) types ->
  JS.len raw = JS.len types * (bpp * width (png r)) ->
  interlaceNone (PngFilter.filterRows bpp (bpp * width (png r)) raw 0 types) r
  = (Ok tt, with_png (with_pixels (Some raw) (png r)) r).
Proof.
  intros Hb Hw Hh Hraw Hts Hlen.
  pose proof (bytesPerPixel_pos _ _ Hb) as Hbpp.
  assert (Hcpr : 0 <= bpp * width (png r)) by (apply Z.mul_nonneg_nonneg; lia).
  assert (Hty : 0 <= JS.len types) by (unfold JS.len; lia).
  rewrite (interlaceNone_whole _ r bpp Hb) by (rewrite Hh; lia).
  replace (bpp * width (png r) * height (png r)) with (JS.len raw) by (rewrite Hh; lia).
  rewrite (scanlines_filterRows bpp (bpp * width (png r)) raw Hbpp Hcpr Hraw types 0 []);
    [reflexivity | exact Hts | lia | reflexivity | lia | apply agree_alloc |].
  pose proof (length_filterRows bpp (bpp * width (png r)) raw 0 types). lia.
Qed.

(** X12.  [parse(true)] on a file, a Node [Buffer] or any other
    typed array, made of the signature, an IHDR chunk with a colour type
    of the table, then IDAT chunks mixed with chunks of types the reader
    has no case for, then IEND and any trailing bytes: whatever the CRC
    bytes, the call is [decodePixels] run on a reader whose PNG object
    holds the header fields, whose payload list is the IDAT payloads in
    file order, and whose cursor stands right behind the IEND chunk. *)
Theorem parse_file (inflate : list Z -> option (list Z)) (b : JS.u8)
        (w h bd ct cs : Z) (al : bool) (im : Z)
        (crc0 : list Z) (its : list Layout.item) (crcE rest : list Z) :
  JS.elems b = fileOf w h bd ct im crc0 its crcE rest ->
  0 <= w < 2 ^ 32 -> 0 <= h < 2 ^ 32 ->
  colorTable ct = Some (cs, al) -> im = 0 \/ im = 1 ->
  length crc0 = 4%nat -> length crcE = 4%nat ->
  Forall Layout.item_ok its ->
  parse inflate true (PNGReaderOn b)
  = (decodePixels inflate ;;; gets png)
      {| bytes := b; i := JS.len b - JS.len rest;
         png := headerPNG w h bd ct cs al im;
         dataChunks := Layout.idatPayloads its;
         header := Some signature |}.
Proof. exact (parse_fileOf inflate b w h bd ct cs al im crc0 its crcE rest). Qed.

Lemma tinyPNG_fileOf :
  tinyPNG = fileOf 1 1 8 0 0 [58; 126; 155; 85]
                   [(Layout.IDAT, [120; 156; 99; 104; 0; 0; 0; 130; 0; 129],
                     [119; 205; 114; 182])]
                   [174; 66; 96; 130] [].
Proof. reflexivity. Qed.

Ltac item_ok_tac :=
  repeat (apply Forall_cons; split;
          [unfold Layout.item_ok; cbn [fst snd];
           split; [reflexivity | split; [reflexivity | split;
             [unfold JS.len; cbn [length]; lia
             | first [left; reflexivity | right; reflexivity]]]] |]);
  apply Forall_nil; exact I.

(** [tinyPNG] as a Node [Buffer] would hold it: a view of a larger
    ArrayBuffer. *)
Lemma parse_file_witness :
  parse (fun _ => Some [0; 128]) true (PNGReaderOn (JS.mkU8 [1; 2] tinyPNG [3] true))
  = (decodePixels (fun _ => Some [0; 128]) ;;; gets png)
      {| bytes := JS.mkU8 [1; 2] tinyPNG [3] true;
         i := JS.len (JS.mkU8 [1; 2] tinyPNG [3] true) - JS.len (@nil Z);
         png := headerPNG 1 1 8 0 1 false 0;
         dataChunks := [[120; 156; 99; 104; 0; 0; 0; 130; 0; 129]];
         header := Some signature |}.
Proof.
  apply (parse_file (fun _ => Some [0; 128]) (JS.mkU8 [1; 2] tinyPNG [3] true)
                    1 1 8 0 1 false 0 [58; 126; 155; 85]
                    [(Layout.IDAT, [120; 156; 99; 104; 0; 0; 0; 130; 0; 129],
                      [119; 205; 114; 182])]
                    [174; 66; 96; 130] []);
    [reflexivity | lia | lia | reflexivity | left; reflexivity | reflexivity
     | reflexivity | item_ok_tac].
Defined.

(** X13.  The whole pipeline.  For such a file with interlace method
    0 whose IDAT payloads, joined, inflate to the filtered rows of a raw
    image of the header's size, [parse(true)] returns the PNG object with
    the header fields and that raw image as pixels: the CRC bytes, the
    cut of the payload into IDAT chunks, the chunks of other types and the
    bytes after IEND make no difference. *)
Theorem parse_decodes (inflate : list Z -> option (list Z)) (b : JS.u8)
        (w h bd ct cs : Z) (al : bool)
        (crc0 : list Z) (its : list Layout.item) (crcE rest : list Z)
        (bpp : Z) (raw types : list Z) :
  JS.elems b = fileOf w h bd ct 0 crc0 its crcE rest ->
  0 <= w < 2 ^ 32 -> 0 <= h < 2 ^ 32 ->
  colorTable ct = Some (cs, al) ->
  length crc0 = 4%nat -> length crcE = 4%nat ->
  Forall Layout.item_ok its ->
  bytesPerPixel (headerPNG w h bd ct cs al 0) = Some bpp ->
  h = JS.len types ->
  JS.bytes_ok raw -> Forall (fun t => 0 <= t <= 4) types ->
  JS.len raw = JS.len types * (bpp * w) ->
  inflate (concat (Layout.idatPayloads its))
  = Some (PngFilter.filterRows bpp (bpp * w) raw 0 types) ->
  fst (parse inflate true (PNGReaderOn b))
  = Ok (with_pixels (Some raw) (headerPNG w h bd ct cs al 0)).
Proof.
  intros Hfile Hw Hh Hct Hc0 HcE Hits Hb Hht Hraw Hts Hlen Hinf.
  rewrite (parse_fileOf inflate b w h bd ct cs al 0 crc0 its crcE rest)
    by (auto; lia).
  unfold bind at 1. unfold decodePixels. cbn [dataChunks png interlaceMethod headerPNG].
  rewrite Hinf. cbn [Z.eqb].
  match goal with
  | |- context [interlaceNone _ ?r] =>
    pose proof (interlaceNone_filterRows r bpp raw types) as Hn
  end.
  cbn [png width height headerPNG] in Hn.
  rewrite Hn by (assumption || lia).
  reflexivity.
Qed.

Lemma parse_decodes_witness :
  fst (parse (fun _ => Some [0; 128]) true (PNGReader tinyPNG))
  = Ok (with_pixels (Some [128]) (headerPNG 1 1 8 0 1 false 0)).
Proof.
  apply (parse_decodes (fun _ => Some [0; 128]) (JS.newUint8Array tinyPNG)
                       1 1 8 0 1 false [58; 126; 155; 85]
                       [(Layout.IDAT, [120; 156; 99; 104; 0; 0; 0; 130; 0; 129],
                         [119; 205; 114; 182])]
                       [174; 66; 96; 130] [] 1 [128] [0]);
    [reflexivity | lia | lia | reflexivity | reflexivity | reflexivity | item_ok_tac
     | reflexivity | reflexivity | bytes_ok_tac
     | repeat (constructor; [lia |]); constructor | reflexivity | reflexivity].
Defined.

Lemma decodePixels_png_only (inflate : list Z -> option (list Z)) (r r' : Reader) :
  png r = png r' -> concat (dataChunks r) = concat (dataChunks r') ->
  fst ((decodePixels inflate ;;; gets png) r)
  = fst ((decodePixels inflate ;;; gets png) r').
Proof.
  intros Hp Hd. unfold bind, decodePixels, interlaceNone, interlaceAdam7.
  rewrite Hd, Hp.
  destruct (inflate _) as [d |]; [| reflexivity].
  destruct (interlaceMethod (png r') =? 0); [| reflexivity].
  destruct (bitDepth (png r')); [| reflexivity].
  cbv zeta. destruct (_ <? 0); [reflexivity |].
  destruct (Eighths.scanlines _ _ _ _ _ _ _); try reflexivity.
  cbn. now rewrite Hp.
Qed.

(** X14.  Two such files with the same header fields whose IDAT
    payloads join to the same bytes, however they are cut into IDAT
    chunks and whatever else differs (CRC bytes, chunks of other types,
    trailing bytes, the kind of typed array that holds them), give the
    same result of [parse(true)]: the same PNG object or the same
    error. *)
Theorem parse_idat_split (inflate : list Z -> option (list Z)) (b b' : JS.u8)
        (w h bd ct cs : Z) (al : bool) (im : Z)
        (crc0 crc0' : list Z) (its its' : list Layout.item)
        (crcE crcE' rest rest' : list Z) :
  JS.elems b = fileOf w h bd ct im crc0 its crcE rest ->
  JS.elems b' = fileOf w h bd ct im crc0' its' crcE' rest' ->
  0 <= w < 2 ^ 32 -> 0 <= h < 2 ^ 32 ->
  colorTable ct = Some (cs, al) -> im = 0 \/ im = 1 ->
  length crc0 = 4%nat -> length crcE = 4%nat ->
  length crc0' = 4%nat -> length crcE' = 4%nat ->
  Forall Layout.item_ok its -> Forall Layout.item_ok its' ->
  concat (Layout.idatPayloads its) = concat (Layout.idatPayloads its') ->
  fst (parse inflate true (PNGReaderOn b))
  = fst (parse inflate true (PNGReaderOn b')).
Proof.
  intros Hb Hb' Hw Hh Hct Him Hc0 HcE Hc0' HcE' Hits Hits' Hcat.
  rewrite (parse_fileOf inflate b w h bd ct cs al im crc0 its crcE rest) by assumption.
  rewrite (parse_fileOf inflate b' w h bd ct cs al im crc0' its' crcE' rest') by assumption.
  apply decodePixels_png_only; [reflexivity | exact Hcat].
Qed.

Lemma parse_idat_split_witness :
  fst (parse (fun _ => Some [0; 128]) true
             (PNGReader (fileOf 1 1 8 0 0 [1; 2; 3; 4]
                                [(Layout.IDAT, [5; 6], [0; 0; 0; 0])]
                                [9; 9; 9; 9] [])))
  = fst (parse (fun _ => Some [0; 128]) true
               (PNGReader (fileOf 1 1 8 0 0 [4; 3; 2; 1]
                                  [(Layout.IDAT, [5], [1; 1; 1; 1]);
                                   (Layout.IDAT, [6], [2; 2; 2; 2])]
                                  [8; 8; 8; 8] [7]))).
Proof.
  apply (parse_idat_split (fun _ => Some [0; 128])
           (JS.newUint8Array (fileOf 1 1 8 0 0 [1; 2; 3; 4]
                                [(Layout.IDAT, [5; 6], [0; 0; 0; 0])]
                                [9; 9; 9; 9] []))
           (JS.newUint8Array (fileOf 1 1 8 0 0 [4; 3; 2; 1]
                                  [(Layout.IDAT, [5], [1; 1; 1; 1]);
                                   (Layout.IDAT, [6], [2; 2; 2; 2])]
                                  [8; 8; 8; 8] [7]))
           1 1 8 0 1 false 0 [1; 2; 3; 4] [4; 3; 2; 1]
           [(Layout.IDAT, [5; 6], [0; 0; 0; 0])]
           [(Layout.IDAT, [5], [1; 1; 1; 1]); (Layout.IDAT, [6], [2; 2; 2; 2])]
           [9; 9; 9; 9] [8; 8; 8; 8] [] [7]);
    [reflexivity | reflexivity | lia | lia | reflexivity | left; reflexivity
     | reflexivity | reflexivity | reflexivity | reflexivity
     | item_ok_tac | item_ok_tac | reflexivity].
Defined.

(** ** [getRGBA8Array] *)

Lemma getPixel_Ok (p : PNG) (px : list Z) (c : Z * bool) (x y : Z) :
  pixels p = Some px -> colorTable (colorType p) = Some c ->
  x < width p -> y < height p ->
  exists t, getPixel p x y = Ok t.
Proof.
  intros Hpx Hc Hx Hy. unfold getPixel. rewrite Hpx.
  destruct (Z.geb_spec x (width p)); [lia |].
  destruct (Z.geb_spec y (height p)); [lia |].
  cbn [orb]. unfold colorTable in Hc.
  destruct (colorType p) as [| q | q]; [eauto | | discriminate].
  do 3 (try destruct q as [q | q |]); try discriminate; eauto.
Qed.

Lemma aset_inside (a : list JS.num) (k : Z) (v : JS.num) :
  0 <= k < Z.of_nat (length a) -> aset a k v = <[Z.to_nat k := v]> a.
Proof.
  intros Hk. unfold aset.
  destruct (Z.ltb_spec k 0); [lia |].
  destruct (Z.ltb_spec k (Z.of_nat (length a))); [reflexivity | lia].
Qed.

Lemma for_loop_M_inv {St : Type} (Inv : Z -> St -> Prop)
      (body : Z -> St -> outcome St) (n : nat) :
  forall k s,
    Inv k s ->
    (forall j s0, k <= j < k + Z.of_nat n -> Inv j s0 ->
                  exists s', body j s0 = Ok s' /\ Inv (j + 1) s') ->
    exists s', for_loop_M n k body s = Ok s' /\ Inv (k + Z.of_nat n) s'.
Proof.
  induction n as [| n IH]; intros k s Hi Hstep.
  - exists s. split; [reflexivity |].
    now replace (k + Z.of_nat 0) with k by lia.
  - destruct (Hstep k s) as (s1 & Hb & Hi1); [lia | assumption |].
    destruct (IH (k + 1) s1 Hi1) as (s2 & Hl & Hi2).
    + intros j s0 Hj. apply Hstep. lia.
    + exists s2. split.
      * cbn [for_loop_M]. rewrite Hb. exact Hl.
      * replace (k + Z.of_nat (S n)) with (k + 1 + Z.of_nat n) by lia. exact Hi2.
Qed.

Lemma idx_lt (w x y x' y' : Z) :
  0 <= x' < w -> 0 <= x < w -> 0 <= y' ->
  y' < y \/ (y' = y /\ x' < x) -> 0 <= y' * w + x' < y * w + x.
Proof. intros Hx' Hx Hy' [Hlt | [-> Hlt]]; nia. Qed.

Lemma idx_bound (w h x y : Z) :
  0 <= x < w -> 0 <= y < h -> 0 <= y * w + x < w * h.
Proof. intros Hx Hy. nia. Qed.

Lemma filled_step (p : PNG) (data : array) (x y : Z) (r g b a : JS.num) :
  0 <= x < width p -> 0 <= y < height p ->
  getPixel p x y = Ok (r, g, b, a) ->
  filled p data x y ->
  filled p
    (aset (aset (aset (aset data ((y * width p + x) * 4 + 0) r)
                      ((y * width p + x) * 4 + 1) g)
                ((y * width p + x) * 4 + 2) b)
          ((y * width p + x) * 4 + 3) a)
    (x + 1) y.
Proof.
  intros Hx Hy Hg [Hlen Hdone].
  pose proof (idx_bound (width p) (height p) x y Hx Hy) as Hn.
  rewrite (aset_inside data) by lia.
  unfold array in *.
  repeat match goal with
         | |- context [aset (<[?j := ?v]> ?d) ?k ?u] =>
           rewrite (aset_inside (<[j := v]> d) k u) by (rewrite !length_insert; lia)
         end.
  split; [rewrite !length_insert; exact Hlen |].
  intros x' y' k Hx' Hy' Hbefore Hk. unfold array in *.
  destruct (Z.eq_dec y' y) as [-> | Hne];
    [destruct (Z.eq_dec x' x) as [-> | Hnx] |].
  - exists (r, g, b, a). split; [exact Hg |].
    assert (Hcases : k = 0 \/ k = 1 \/ k = 2 \/ k = 3) by lia.
    destruct Hcases as [-> | [-> | [-> | ->]]]; cbn [component Z.eqb Pos.eqb];
      repeat (rewrite list_lookup_insert_ne by lia);
      (rewrite list_lookup_insert_eq by (rewrite ?length_insert; lia)); reflexivity.
  - assert (Hb' : y < y \/ (y = y /\ x' < x)) by (right; split; [reflexivity | lia]).
    pose proof (idx_lt (width p) x y x' y Hx' Hx Hy' Hb') as Hlt.
    destruct (Hdone x' y k Hx' Hy' Hb' Hk) as (t & Ht & Hl).
    exists t. split; [exact Ht |].
    rewrite !list_lookup_insert_ne by lia. exact Hl.
  - assert (Hb' : y' < y \/ (y' = y /\ x' < x)) by (left; lia).
    pose proof (idx_lt (width p) x y x' y' Hx' Hx Hy' Hb') as Hlt.
    destruct (Hdone x' y' k Hx' Hy' Hb' Hk) as (t & Ht & Hl).
    exists t. split; [exact Ht |].
    rewrite !list_lookup_insert_ne by lia. exact Hl.
Qed.

Lemma getRGBA8Array_entries (p : PNG) (px : list Z) (c : Z * bool) :
  pixels p = Some px -> colorTable (colorType p) = Some c ->
  0 <= width p -> 0 <= height p -> width p * height p * 4 < 2 ^ 32 ->
  exists data,
    getRGBA8Array p = Ok data /\
    Z.of_nat (length data) = width p * height p * 4 /\
    forall x y k,
      0 <= x < width p -> 0 <= y < height p -> 0 <= k < 4 ->
      exists t, getPixel p x y = Ok t /\
                data !! Z.to_nat ((y * width p + x) * 4 + k) = Some (component t k).
Proof.
  intros Hpx Hc Hw Hh Hsz.
  assert (Hnn : 0 <= width p * height p * 4) by nia.
  unfold getRGBA8Array, newArray.
  destruct (Z.ltb_spec (width p * height p * 4) 0); [lia |].
  destruct (Z.geb_spec (width p * height p * 4) (2 ^ 32)); [lia |].
  cbn [orb].
  destruct (for_loop_M_inv (fun y data => filled p data 0 y)
              (fun y data =>
                 for_loop_M (Z.to_nat (width p - 0)) 0
                   (fun x data =>
                      match getPixel p x y with
                      | Ok (r, g, b, a) =>
                        let data := aset data ((y * width p + x) * 4 + 0) r in
                        let data := aset data ((y * width p + x) * 4 + 1) g in
                        let data := aset data ((y * width p + x) * 4 + 2) b in
                        let data := aset data ((y * width p + x) * 4 + 3) a in
                        Ok data
                      | Throw e => Throw e
                      | Beyond b => Beyond b
                      end)
                   data)
              (Z.to_nat (height p - 0)) 0
              (repeat None (Z.to_nat (width p * height p * 4))))
    as (data & Hrun & [Hlen Hdone]).
  - split; [rewrite repeat_length; lia |].
    intros x' y' k Hx' Hy' Hb. lia.
  - intros y d Hy Hd.
    destruct (for_loop_M_inv (fun x data => filled p data x y)
                (fun x data =>
                   match getPixel p x y with
                   | Ok (r, g, b, a) =>
                     let data := aset data ((y * width p + x) * 4 + 0) r in
                     let data := aset data ((y * width p + x) * 4 + 1) g in
                     let data := aset data ((y * width p + x) * 4 + 2) b in
                     let data := aset data ((y * width p + x) * 4 + 3) a in
                     Ok data
                   | Throw e => Throw e
                   | Beyond b => Beyond b
                   end)
                (Z.to_nat (width p - 0)) 0 d Hd)
      as (d' & Hrow & [Hlen' Hdone']).
    + intros x d0 Hx Hd0.
      destruct (getPixel_Ok p px c x y Hpx Hc) as ([[[r g] b] a] & Hg); [lia | lia |].
      rewrite Hg. eexists. split; [reflexivity |].
      apply filled_step; [lia | lia | exact Hg | exact Hd0].
    + exists d'. split; [exact Hrow |].
      split; [exact Hlen' |].
      intros x' y' k Hx' Hy' Hb Hk. apply Hdone'; try assumption. lia.
  - exists data. split; [exact Hrun |]. split; [exact Hlen |].
    intros x y k Hx Hy Hk. apply Hdone; try assumption; lia.
Qed.

(** X15.  [getRGBA8Array] on a PNG object that has a pixel buffer, a
    colour type of the table and a size whose product [width * height * 4]
    is an array length: the call returns an array of exactly
    [width * height * 4] entries, and entry [(y * width + x) * 4 + k] is
    component [k] of [getPixel(x, y)], for every pixel of the image
    (the value may be [undefined] where [getPixel] gives that). *)
Theorem getRGBA8Array_spec (p : PNG) (px : list Z) (c : Z * bool) :
  pixels p = Some px -> colorTable (colorType p) = Some c ->
  0 <= width p -> 0 <= height p -> width p * height p * 4 < 2 ^ 32 ->
  exists data,
    getRGBA8Array p = Ok data /\
    Z.of_nat (length data) = width p * height p * 4 /\
    forall x y k,
      0 <= x < width p -> 0 <= y < height p -> 0 <= k < 4 ->
      exists t, getPixel p x y = Ok t /\
                data !! Z.to_nat ((y * width p + x) * 4 + k) = Some (component t k).
Proof. exact (getRGBA8Array_entries p px c). Qed.

Lemma getRGBA8Array_spec_witness :
  exists data,
    getRGBA8Array (with_pixels (Some [128]) (headerPNG 1 1 8 0 1 false 0)) = Ok data /\
    Z.of_nat (length data) = 1 * 1 * 4 /\
    forall x y k,
      0 <= x < 1 -> 0 <= y < 1 -> 0 <= k < 4 ->
      exists t,
        getPixel (with_pixels (Some [128]) (headerPNG 1 1 8 0 1 false 0)) x y = Ok t /\
        data !! Z.to_nat ((y * 1 + x) * 4 + k) = Some (component t k).
Proof.
  apply (getRGBA8Array_spec (with_pixels (Some [128]) (headerPNG 1 1 8 0 1 false 0))
                            [128] (1, false));
    [reflexivity | reflexivity | cbn; lia | cbn; lia | cbn; lia].
Defined.

Lemma colorTable_colors (p : PNG) :
  colorTable (colorType p) = Some (colors p, alpha p) -> colorType p <> 3 ->
  (colorType p = 0 /\ colors p = 1) \/ (colorType p = 2 /\ colors p = 3) \/
  (colorType p = 4 /\ colors p = 2) \/ (colorType p = 6 /\ colors p = 4).
Proof.
  intros Hct H3. unfold colorTable in Hct.
  destruct (colorType p) as [| q | q]; [| | discriminate].
  - injection Hct as <- _. tauto.
  - do 3 (try destruct q as [q | q |]); try discriminate; try (exfalso; apply H3; reflexivity);
      injection Hct as <- _; tauto.
Qed.

Lemma raster_byte (px : list Z) (q w h x y k : Z) :
  JS.len px = q * w * h -> 0 <= x < w -> 0 <= y < h -> 0 <= k < q ->
  JS.rd px (q * (y * w + x) + k) = Some (byteAt px (q * (y * w + x) + k)).
Proof.
  intros Hlen Hx Hy Hk. apply rd_byteAt.
  pose proof (idx_bound w h x y Hx Hy) as Hn. rewrite Hlen. nia.
Qed.

Lemma getPixel_bytes (p : PNG) (x y : Z) :
  raster_ok p ->
  colorTable (colorType p) = Some (colors p, alpha p) -> colorType p <> 3 ->
  bitDepth p = Some 8 \/ bitDepth p = Some 16 ->
  0 <= x < width p -> 0 <= y < height p ->
  exists r g b a,
    getPixel p x y = Ok (Some r, Some g, Some b, Some a) /\
    JS.byte_ok r /\ JS.byte_ok g /\ JS.byte_ok b /\ JS.byte_ok a.
Proof.
  intros (bpp & px & Hb & Hpx & Hlen & Hbytes) Hct H3 Hbd Hx Hy.
  pose proof (colorTable_colors p Hct H3) as Hcol.
  assert (Hex : exists bd q, bitDepth p = Some bd /\
                             1 <= q /\ colors p * bd = 8 * q /\ colors p <= q).
  { destruct Hbd as [E | E]; rewrite E;
      [exists 8, (colors p) | exists 16, (2 * colors p)];
      (split; [reflexivity | lia]). }
  destruct Hex as (bd & q & Hbd' & Hq1 & Hq & Hcq).
  destruct (getPixel_whole_bytes p px bd q x y Hpx) as [Hb' Hs];
    [lia | lia | lia | exact Hbd' | exact Hq |].
  cbv zeta in Hs. destruct Hs as (H0 & H2 & H4 & H6).
  assert (bpp = q) as -> by congruence.
  assert (H255 : JS.byte_ok 255) by (unfold JS.byte_ok; lia).
  pose proof (fun k => byteAt_byte px k Hbytes) as Hbyte.
  destruct Hcol as [[E Ec] | [[E Ec] | [[E Ec] | [E Ec]]]].
  - rewrite (H0 E), !(raster_byte px q (width p) (height p)) by (assumption || lia).
    do 4 eexists. split; [reflexivity | auto].
  - rewrite (H2 E), !(raster_byte px q (width p) (height p)) by (assumption || lia).
    do 4 eexists. split; [reflexivity | auto].
  - rewrite (H4 E), !(raster_byte px q (width p) (height p)) by (assumption || lia).
    do 4 eexists. split; [reflexivity | auto].
  - rewrite (H6 E), !(raster_byte px q (width p) (height p)) by (assumption || lia).
    do 4 eexists. split; [reflexivity | auto].
Qed.

(** X16.  [getPixel] on a decoded image.  When the pixel buffer has
    the size [interlaceNone] gives it and holds bytes, the colour type is
    0, 2, 4 or 6 with its number of colours, and the bit depth is 8 or 16,
    then for every position inside the image [getPixel] returns four
    defined numbers, each a byte. *)
Theorem getPixel_decoded (p : PNG) (x y : Z) :
  raster_ok p ->
  colorTable (colorType p) = Some (colors p, alpha p) -> colorType p <> 3 ->
  bitDepth p = Some 8 \/ bitDepth p = Some 16 ->
  0 <= x < width p -> 0 <= y < height p ->
  exists r g b a,
    getPixel p x y = Ok (Some r, Some g, Some b, Some a) /\
    JS.byte_ok r /\ JS.byte_ok g /\ JS.byte_ok b /\ JS.byte_ok a.
Proof. exact (getPixel_bytes p x y). Qed.

Lemma getPixel_decoded_witness :
  exists r g b a,
    getPixel (with_pixels (Some [128]) (headerPNG 1 1 8 0 1 false 0)) 0 0
    = Ok (Some r, Some g, Some b, Some a) /\
    JS.byte_ok r /\ JS.byte_ok g /\ JS.byte_ok b /\ JS.byte_ok a.
Proof.
  apply (getPixel_decoded (with_pixels (Some [128]) (headerPNG 1 1 8 0 1 false 0)) 0 0);
    [ exists 1, [128]; repeat split; [bytes_ok_tac]
    | reflexivity | discriminate | left; reflexivity | cbn; lia | cbn; lia ].
Defined.

Lemma component_bytes (r g b a k : Z) :
  JS.byte_ok r -> JS.byte_ok g -> JS.byte_ok b -> JS.byte_ok a ->
  exists v, component (Some r, Some g, Some b, Some a) k = Some v /\ JS.byte_ok v.
Proof.
  intros Hr Hg Hb Ha. unfold component.
  destruct (k =? 0); [eauto |].
  destruct (k =? 1); [eauto |].
  destruct (k =? 2); eauto.
Qed.

Lemma pixel_of_index (w h n : Z) :
  0 <= n < w * h * 4 -> 0 <= w -> 0 <= h ->
  exists x y k, 0 <= x < w /\ 0 <= y < h /\ 0 <= k < 4 /\ (y * w + x) * 4 + k = n.
Proof.
  intros Hn Hw Hh.
  assert (Hw0 : 0 < w) by nia.
  exists ((n / 4) mod w), ((n / 4) / w), (n mod 4).
  pose proof (Z.div_mod n 4 ltac:(lia)) as E4.
  pose proof (Z.mod_pos_bound n 4 ltac:(lia)) as B4.
  pose proof (Z.div_mod (n / 4) w ltac:(lia)) as Ew.
  pose proof (Z.mod_pos_bound (n / 4) w Hw0) as Bw.
  assert (Hm : 0 <= n / 4 < w * h).
  { split; [apply Z.div_pos; lia | apply Z.div_lt_upper_bound; lia]. }
  assert (Hy : 0 <= n / 4 / w < h).
  { split; [apply Z.div_pos; lia | apply Z.div_lt_upper_bound; lia]. }
  repeat split; try lia.
Qed.

(** X17.  [getRGBA8Array] on a decoded image.  Under the conditions
    of X16 and a size whose product [width * height * 4] is an array
    length, the call returns an array of [width * height * 4] entries
    with no hole: every entry is a defined byte. *)
Theorem getRGBA8Array_decoded (p : PNG) :
  raster_ok p ->
  colorTable (colorType p) = Some (colors p, alpha p) -> colorType p <> 3 ->
  bitDepth p = Some 8 \/ bitDepth p = Some 16 ->
  0 <= width p -> 0 <= height p -> width p * height p * 4 < 2 ^ 32 ->
  exists data,
    getRGBA8Array p = Ok data /\
    Z.of_nat (length data) = width p * height p * 4 /\
    forall n, 0 <= n < width p * height p * 4 ->
              exists v, data !! Z.to_nat n = Some (Some v) /\ JS.byte_ok v.
Proof.
  intros Hr Hct H3 Hbd Hw Hh Hsz.
  destruct Hr as (bpp & px & Hb & Hpx & Hlen & Hbytes).
  destruct (getRGBA8Array_entries p px _ Hpx Hct Hw Hh Hsz) as (data & Hrun & Hl & Hent).
  exists data. split; [exact Hrun |]. split; [exact Hl |].
  intros n Hn.
  destruct (pixel_of_index (width p) (height p) n Hn Hw Hh)
    as (x & y & k & Hx & Hy & Hk & <-).
  destruct (Hent x y k Hx Hy Hk) as (t & Ht & Hd).
  destruct (getPixel_bytes p x y) as (r & g & b & a & Hg & Hbr & Hbg & Hbb & Hba);
    try assumption.
  { exists bpp, px. auto. }
  rewrite Hg in Ht. injection Ht as <-.
  destruct (component_bytes r g b a k Hbr Hbg Hbb Hba) as (v & Hv & Hbv).
  exists v. split; [| exact Hbv]. rewrite <- Hv. exact Hd.
Qed.

Lemma getRGBA8Array_decoded_witness :
  exists data,
    getRGBA8Array (with_pixels (Some [128]) (headerPNG 1 1 8 0 1 false 0)) = Ok data /\
    Z.of_nat (length data) = 1 * 1 * 4 /\
    forall n, 0 <= n < 1 * 1 * 4 ->
              exists v, data !! Z.to_nat n = Some (Some v) /\ JS.byte_ok v.
Proof.
  apply (getRGBA8Array_decoded (with_pixels (Some [128]) (headerPNG 1 1 8 0 1 false 0)));
    [ exists 1, [128]; repeat split; [bytes_ok_tac]
    | reflexivity | discriminate | left; reflexivity | cbn; lia | cbn; lia | cbn; lia ].
Defined.

(** ** The setters of [PNG] *)

Lemma png_ok_call (c : setter) (p : PNG) : png_ok p -> png_ok (snd (call c p)).
Proof.
  intros Hp. pose proof Hp as (Hc & Hcm & Hfm & Him & Hpal).
  destruct c as [w | h | b | c | v | v | v | t | pal | px]; cbn [call].
  - unfold png_ok; cbn; repeat split; auto.
  - unfold png_ok; cbn; repeat split; auto.
  - unfold png_ok; cbn; repeat split; auto.
  - unfold setColorType. destruct (colorTable c) as [[cs al] |] eqn:E; [| exact Hp].
    unfold png_ok; cbn; repeat split; auto.
  - unfold setCompressionMethod.
    destruct (Z.eqb_spec v 0) as [-> | Hv]; cbn [negb]; [| exact Hp].
    unfold png_ok; cbn; repeat split; auto.
  - unfold setFilterMethod.
    destruct (Z.eqb_spec v 0) as [-> | Hv]; cbn [negb]; [| exact Hp].
    unfold png_ok; cbn; repeat split; auto.
  - unfold setInterlaceMethod.
    destruct (Z.eqb_spec v 0) as [-> | H0]; cbn [negb andb];
      [unfold png_ok; cbn; repeat split; auto |].
    destruct (Z.eqb_spec v 1) as [-> | H1]; cbn [negb andb];
      [unfold png_ok; cbn; repeat split; auto | exact Hp].
  - unfold png_ok; cbn; repeat split; auto.
  - unfold setPalette.
    destruct (Z.eqb_spec (JS.len pal mod 3) 0) as [E | E]; cbn [negb]; [| exact Hp].
    destruct (exceeds _ _); [exact Hp |].
    unfold png_ok; cbn; repeat split; auto.
  - unfold png_ok; cbn; repeat split; auto.
Qed.

(** X18.  What the setters keep true.  On an object whose colour
    type, number of colours and alpha flag agree with the table of
    [setColorType] (or are all still the initial 0, 0, false), whose
    compression and filter methods are 0, whose interlace method is 0 or
    1 and whose palette length is a multiple of 3, every sequence of
    calls of [setWidth], [setHeight], [setBitDepth], [setColorType],
    [setCompressionMethod], [setFilterMethod], [setInterlaceMethod],
    [setTRNS], [setPalette] and [setPixels], with any arguments, leaves
    all of that true, whether the sequence ends normally or by a throw. *)
Theorem setters_keep_png_ok (cs : list setter) (p : PNG) :
  png_ok p -> png_ok (snd (calls cs p)).
Proof.
  revert p. induction cs as [| c cs IH]; intros p Hp; [exact Hp |].
  cbn [calls]. unfold bind.
  pose proof (png_ok_call c p Hp) as Hc.
  destruct (call c p) as [[[] | e | b] p']; cbn [snd] in *; auto.
Qed.

Lemma setters_keep_png_ok_witness :
  png_ok (snd (calls [SetBitDepth (Some 8); SetColorType 3; SetPalette [1; 2; 3];
                      SetInterlaceMethod 2; SetWidth 5] newPNG)).
Proof.
  apply (setters_keep_png_ok _ newPNG).
  unfold png_ok. cbn. intuition lia.
Defined.

(** X19.  A setter that throws has changed nothing: after a call of
    [setColorType], [setCompressionMethod], [setFilterMethod],
    [setInterlaceMethod] or [setPalette] that throws, and the other
    setters never throw, every field of the object is as before the
    call. *)
Theorem setter_throw_unchanged (c : setter) (p : PNG) (e : error) :
  fst (call c p) = Throw e -> snd (call c p) = p.
Proof.
  destruct c as [w | h | b | c | v | v | v | t | pal | px]; cbn [call];
    try (unfold setWidth, setHeight, setBitDepth, setTRNS, setPixels, modify;
         cbn [fst]; discriminate).
  - unfold setColorType. destruct (colorTable c) as [[cs al] |]; [discriminate | reflexivity].
  - unfold setCompressionMethod. destruct (negb (v =? 0)); [reflexivity | discriminate].
  - unfold setFilterMethod. destruct (negb (v =? 0)); [reflexivity | discriminate].
  - unfold setInterlaceMethod.
    destruct (negb (v =? 0) && negb (v =? 1)); [reflexivity | discriminate].
  - unfold setPalette. destruct (negb (JS.len pal mod 3 =? 0)); [reflexivity |].
    destruct (exceeds _ _); [reflexivity | discriminate].
Qed.

Lemma setter_throw_unchanged_witness :
  snd (call (SetColorType 5) newPNG) = newPNG.
Proof.
  apply (setter_throw_unchanged (SetColorType 5) newPNG InvalidColorType).
  reflexivity.
Defined.

(** ** [readUInt32] *)

Lemma be32_bytes (b0 b1 b2 b3 : Z) :
  JS.byte_ok b0 -> JS.byte_ok b1 -> JS.byte_ok b2 -> JS.byte_ok b3 ->
  Layout.be32 (b0 * 2 ^ 24 + b1 * 2 ^ 16 + b2 * 2 ^ 8 + b3) = [b0; b1; b2; b3].
Proof.
  unfold JS.byte_ok, Layout.be32. intros H0 H1 H2 H3.
  repeat f_equal; Z.to_euclidean_division_equations; lia.
Qed.

Lemma be32_inj (v v' : Z) :
  0 <= v < 2 ^ 32 -> 0 <= v' < 2 ^ 32 -> Layout.be32 v = Layout.be32 v' -> v = v'.
Proof.
  intros Hv Hv' E. rewrite <- (be32_value v Hv), <- (be32_value v' Hv').
  unfold Layout.be32 in E. injection E as -> -> -> ->. reflexivity.
Qed.

Lemma slice_four (buffer : list Z) (offset b0 b1 b2 b3 : Z) :
  JS.rd buffer offset = Some b0 -> JS.rd buffer (offset + 1) = Some b1 ->
  JS.rd buffer (offset + 2) = Some b2 -> JS.rd buffer (offset + 3) = Some b3 ->
  JS.slice buffer offset (offset + 4) = [b0; b1; b2; b3].
Proof.
  intros H0 H1 H2 H3.
  pose proof (rd_Some_range _ _ _ H0) as R0.
  pose proof (rd_Some_range _ _ _ H3) as R3.
  destruct (slice_inside buffer offset (offset + 4)) as [Hl Hrd]; [lia | lia |].
  apply rd_ext.
  - unfold JS.len in Hl. cbn [length]. lia.
  - intros k Hk. rewrite Hl in Hk. rewrite Hrd by lia.
    assert (Hc : k = 0 \/ k = 1 \/ k = 2 \/ k = 3) by lia.
    destruct Hc as [-> | [-> | [-> | ->]]].
    + rewrite Z.add_0_r, H0. reflexivity.
    + rewrite H1. reflexivity.
    + rewrite H2. reflexivity.
    + rewrite H3. reflexivity.
Qed.

Lemma getUint32_big_endian (arrayBuffer : list Z) (pos v : Z) :
  JS.bytes_ok arrayBuffer ->
  getUint32 arrayBuffer pos = Ok v <->
  0 <= pos /\ pos + 4 <= JS.len arrayBuffer /\ 0 <= v < 2 ^ 32 /\
  JS.slice arrayBuffer pos (pos + 4) = Layout.be32 v.
Proof.
  intros Hb.
  assert (Hfwd : forall u, getUint32 arrayBuffer pos = Ok u ->
                           0 <= pos /\ pos + 4 <= JS.len arrayBuffer /\
                           0 <= u < 2 ^ 32 /\
                           JS.slice arrayBuffer pos (pos + 4) = Layout.be32 u).
  { intros u. unfold getUint32.
    destruct (JS.rd arrayBuffer pos) as [b0 |] eqn:E0; [| discriminate].
    destruct (JS.rd arrayBuffer (pos + 1)) as [b1 |] eqn:E1; [| discriminate].
    destruct (JS.rd arrayBuffer (pos + 2)) as [b2 |] eqn:E2; [| discriminate].
    destruct (JS.rd arrayBuffer (pos + 3)) as [b3 |] eqn:E3; [| discriminate].
    intros [= <-].
    pose proof (rd_Some_range _ _ _ E0) as R0.
    pose proof (rd_Some_range _ _ _ E3) as R3.
    pose proof (rd_bytes _ _ _ Hb E0) as B0.
    pose proof (rd_bytes _ _ _ Hb E1) as B1.
    pose proof (rd_bytes _ _ _ Hb E2) as B2.
    pose proof (rd_bytes _ _ _ Hb E3) as B3.
    rewrite (be32_bytes b0 b1 b2 b3 B0 B1 B2 B3).
    rewrite (slice_four arrayBuffer pos b0 b1 b2 b3 E0 E1 E2 E3).
    unfold JS.byte_ok in *. repeat split; try lia. }
  split; [apply Hfwd |].
  intros (Ho & Hl & Hv & Hs).
  destruct (rd_is_Some arrayBuffer pos) as [b0 E0]; [lia |].
  destruct (rd_is_Some arrayBuffer (pos + 1)) as [b1 E1]; [lia |].
  destruct (rd_is_Some arrayBuffer (pos + 2)) as [b2 E2]; [lia |].
  destruct (rd_is_Some arrayBuffer (pos + 3)) as [b3 E3]; [lia |].
  assert (Hrun : getUint32 arrayBuffer pos
                 = Ok (b0 * 2 ^ 24 + b1 * 2 ^ 16 + b2 * 2 ^ 8 + b3)).
  { unfold getUint32. rewrite E0, E1, E2, E3. reflexivity. }
  destruct (Hfwd _ Hrun) as (_ & _ & Hu & Hs').
  rewrite Hrun. f_equal. apply be32_inj; [exact Hu | exact Hv | congruence].
Qed.

Lemma slice_buffer_inside (a : JS.u8) (s e : Z) :
  0 <= s <= e -> e <= JS.len a ->
  JS.slice (JS.buffer a) (JS.byteOffset a + s) (JS.byteOffset a + e) = JS.slice a s e.
Proof.
  intros Hs He.
  assert (Hn : JS.len (JS.buffer a) = JS.byteOffset a + JS.len a + JS.len (JS.after a)).
  { unfold JS.buffer, JS.byteOffset, JS.len. rewrite !length_app. lia. }
  assert (Ho : 0 <= JS.byteOffset a) by (unfold JS.byteOffset, JS.len; lia).
  assert (Ha : 0 <= JS.len (JS.after a)) by (unfold JS.len; lia).
  destruct (slice_inside (JS.buffer a) (JS.byteOffset a + s) (JS.byteOffset a + e))
    as [Hl Hrd]; [lia | lia |].
  destruct (slice_inside a s e) as [Hl' Hrd']; [lia | lia |].
  apply rd_ext.
  - unfold JS.len in Hl, Hl'. lia.
  - intros k Hk. rewrite Hl in Hk.
    rewrite Hrd, Hrd' by lia.
    rewrite <- Z.add_assoc. apply rd_buffer_inside. lia.
Qed.

(** X20.  [readUInt32] reads big-endian and unsigned, from the
    ArrayBuffer of the array it is given.  The call returns [v] exactly
    when the four bytes at [byteOffset + offset] lie inside the
    ArrayBuffer, [v] is in [0 .. 2^32) and the four bytes are the
    base-256 digits of [v], most significant first; no input gives a
    negative number.  The four bytes need not lie inside the array
    itself: on a view they may be bytes of the ArrayBuffer behind it.
    Where they do lie inside the array, the call returns the number whose
    digits are the four elements of the array at [offset]. *)
Theorem readUInt32_big_endian (buffer : JS.u8) (offset v : Z) :
  JS.bytes_ok (JS.buffer buffer) ->
  (readUInt32 buffer offset = Ok v <->
   0 <= JS.byteOffset buffer + offset /\
   JS.byteOffset buffer + offset + 4 <= JS.len (JS.buffer buffer) /\
   0 <= v < 2 ^ 32 /\
   JS.slice (JS.buffer buffer) (JS.byteOffset buffer + offset)
            (JS.byteOffset buffer + offset + 4) = Layout.be32 v) /\
  (0 <= offset -> offset + 4 <= JS.len buffer ->
   (readUInt32 buffer offset = Ok v <->
    0 <= v < 2 ^ 32 /\ JS.slice buffer offset (offset + 4) = Layout.be32 v)).
Proof.
  intros Hb.
  pose proof (getUint32_big_endian (JS.buffer buffer) (JS.byteOffset buffer + offset) v Hb)
    as H.
  split; [exact H |].
  intros Ho Hl. unfold readUInt32. rewrite H.
  replace (JS.byteOffset buffer + offset + 4)
    with (JS.byteOffset buffer + (offset + 4)) by lia.
  rewrite slice_buffer_inside by lia.
  assert (Hn : JS.len (JS.buffer buffer)
               = JS.byteOffset buffer + JS.len buffer + JS.len (JS.after buffer)).
  { unfold JS.buffer, JS.byteOffset, JS.len. rewrite !length_app. lia. }
  assert (H0 : 0 <= JS.byteOffset buffer) by (unfold JS.byteOffset, JS.len; lia).
  assert (Ha : 0 <= JS.len (JS.after buffer)) by (unfold JS.len; lia).
  split.
  - intros (_ & _ & Hv & Hs). split; assumption.
  - intros (Hv & Hs). repeat split; try lia. exact Hs.
Qed.

(** A [Buffer] of no element inside an ArrayBuffer of five bytes: the
    number is read from the bytes behind the array. *)
Lemma readUInt32_big_endian_witness :
  readUInt32 (JS.mkU8 [7] [] [0; 0; 1; 2] true) 0 = Ok 258 <->
  0 <= 1 + 0 /\ 1 + 0 + 4 <= 5 /\ 0 <= 258 < 2 ^ 32 /\
  JS.slice [7; 0; 0; 1; 2] (1 + 0) (1 + 0 + 4) = Layout.be32 258.
Proof.
  apply (proj1 (readUInt32_big_endian (JS.mkU8 [7] [] [0; 0; 1; 2] true) 0 258
                  ltac:(bytes_ok_tac))).
Defined.

(** ** [parse] ends *)

Lemma decodeHeader_not_beyond (r r' : Reader) (b : beyond) :
  decodeHeader r <> (Beyond b, r').
Proof.
  unfold decodeHeader.
  destruct (negb (i r =? 0)); [discriminate |].
  unfold bind.
  destruct (readBytes_spec 8 r) as [-> | (h & ->)]; [discriminate |].
  destruct (negb (equalBytes h signature)); unfold throw, modify; discriminate.
Qed.

(** X21.  The two loops of [parse] end on every file, a Node
    [Buffer] or another typed array.  Each turn of the chunk loop that
    does not throw moves the cursor at least 12 bytes forward inside a
    file that does not change, and each turn of the row loop of
    [interlaceNone] moves at least one byte forward in the inflated data,
    the width being a number that is not negative and the bytes per pixel
    at least 1, whole or not: with the fuel of one turn per byte neither
    loop runs out, whatever the bytes, the decompressor and [readData],
    and the call returns or throws. *)
Theorem parse_terminates (inflate : list Z -> option (list Z)) (readData : bool)
        (bs : JS.u8) (b : beyond) :
  JS.bytes_ok (JS.buffer bs) ->
  fst (parse inflate readData (PNGReaderOn bs)) <> Beyond b.
Proof.
  intros Hbs.
  assert (Hr0 : reader_ok bs 0 (PNGReaderOn bs)).
  { destruct pinv_newPNG as [Hp Hd].
    (split; [| split; [| split]]); auto. unfold JS.len. cbn. lia. }
  unfold parse. unfold bind at 1.
  pose proof (R_decodeHeader bs 0 Hbs _ Hr0) as H1.
  destruct (decodeHeader (PNGReaderOn bs)) as [[[] | e | x] r1] eqn:E1.
  - unfold bind at 1.
    pose proof (R_chunkLoop bs 0 Hbs readData (S (length (bytes r1))) r1 H1) as H2.
    pose proof (parse_chunkLoop_fuel readData _ _ E1) as Hf.
    destruct (chunkLoop (S (length (bytes r1))) readData r1) as [[[] | e | x] r2] eqn:E2.
    + unfold bind at 1. unfold decodePixels.
      destruct (inflate _) as [d |]; [| discriminate].
      destruct (interlaceMethod (png r2) =? 0).
      * pose proof (interlaceNone_fuel d r2) as Hn.
        destruct (interlaceNone d r2) as [[[] | e | x] r3]; cbn; try discriminate.
        exfalso. apply (Hn x); [| reflexivity].
        destruct H2 as (_ & _ & _ & Hd). destruct Hd as (Hw & _). lia.
      * unfold interlaceAdam7. cbn. discriminate.
    + discriminate.
    + exfalso. apply (Hf x). reflexivity.
  - discriminate.
  - exfalso. exact (decodeHeader_not_beyond _ _ _ E1).
Qed.

Lemma parse_terminates_witness :
  fst (parse (fun _ => Some [0; 128]) true (PNGReaderOn fracPNG)) <> Beyond FuelExhausted.
Proof.
  apply (parse_terminates (fun _ => Some [0; 128]) true fracPNG FuelExhausted).
  apply bytes_ok_forallb. reflexivity.
Defined.
